(** * RAG support: the retrieval pipeline, embedded and verified

    Part I is a shallow embedding of the TypeScript services of the
    repository:
    - [JS]       strings as sequences of UTF-16 code units, [slice], [trim],
                 the regular expressions of the chunker;
    - [Chunker]  [TextChunkerService] (text-chunker.service.ts);
    - [Exn]      thrown values and outcomes of calls;
    - [VectorDb] [VectorDbService] (vector-db.service.ts), over binary64
                 floats;
    - [Crawler]  [WebScraperService] (web-scraper.service.ts), over an
                 arbitrary web;
    - [Rag]      [EmbeddingService] and [RagService] (embedding.service.ts,
                 rag.service.ts): the Initialize / Query orchestration, over
                 arbitrary collaborators;
    - [Controller] [RagController] (rag.controller.ts) and the schema of the
                 body of Initialize;
    - [Server]   the handlers of the stand-alone Express server (server.js).

    Part II holds the proofs, module by module.

    Offsets and lengths are JavaScript numbers holding small integers; they
    are modelled in [Z] (no rounding happens below 2^53).  The other numbers
    are binary64 floats, with [Math.sqrt] the IEEE 754 square root.  Loops
    that the source does not bound take fuel, and are proved to return when
    given enough of it. *)

From Stdlib Require Import String Ascii DecimalString.
From Stdlib Require Import ZArith NArith List Bool Lia.
From Stdlib Require Import Permutation Sorted Floats.
Import ListNotations.
Local Open Scope Z_scope.

(* ################################################################## *)
(** * Part I: the model *)

(* ================================================================== *)
(** ** JavaScript strings and arrays *)

Module JS.

(** A string is its sequence of UTF-16 code units. *)
Definition str := list N.

(** String literals of the source (all of them are ASCII). *)
Definition lit (s : string) : str := map N_of_ascii (list_ascii_of_string s).

(** [s.length] *)
Definition len {A : Type} (s : list A) : Z := Z.of_nat (length s).

(** Relative index of [String.prototype.slice] / [Array.prototype.slice]:
    a negative index counts from the end, and everything is clamped to
    [0 .. length]. *)
Definition clampIndex (n i : Z) : Z :=
  if i <? 0 then Z.max (n + i) 0 else Z.min i n.

(** [s.slice(a, b)] *)
Definition slice {A : Type} (s : list A) (a b : Z) : list A :=
  let from := clampIndex (len s) a in
  let to := clampIndex (len s) b in
  firstn (Z.to_nat (to - from)) (skipn (Z.to_nat from) s).

(** The class [\s] of a regular expression without the unicode flag:
    WhiteSpace and LineTerminator code units. *)
Definition isWhiteSpace (c : N) : bool :=
  (existsb (N.eqb c)
     [9; 10; 11; 12; 13; 32; 160; 5760; 8232; 8233; 8239; 8287; 12288; 65279]
   || ((8192 <=? c) && (c <=? 8202)))%N.

(** The class [[.!?]] *)
Definition isSentenceEnd (c : N) : bool :=
  ((c =? 46) || (c =? 33) || (c =? 63))%N.

(** Length of the longest prefix of white space: what a greedy [\s+] (or
    [\s*]) consumes. *)
Fixpoint spanWhiteSpace (s : str) : nat :=
  match s with
  | c :: r => if isWhiteSpace c then S (spanWhiteSpace r) else O
  | [] => O
  end.

(** [/[.!?]\s+/.exec(s)]: the leftmost match, [\s+] greedy.  The result is
    [(match.index, match[0].length)]; [i] is the index of the head of [s]. *)
Fixpoint execSentenceFrom (s : str) (i : Z) : option (Z * Z) :=
  match s with
  | [] => None
  | c :: r =>
      if isSentenceEnd c && (0 <? Z.of_nat (spanWhiteSpace r))
      then Some (i, 1 + Z.of_nat (spanWhiteSpace r))
      else execSentenceFrom r (i + 1)
  end.

Definition execSentence (s : str) : option (Z * Z) := execSentenceFrom s 0.

(** The match of [/[.!?]\s+/] that starts exactly at index [j], as the length
    of the matched text: used to say which match [exec] returns. *)
Definition sentenceMatchAt (s : str) (j : nat) : option Z :=
  match skipn j s with
  | c :: r =>
      if isSentenceEnd c && (0 <? Z.of_nat (spanWhiteSpace r))
      then Some (1 + Z.of_nat (spanWhiteSpace r))
      else None
  | [] => None
  end.

(** [/\n\n/.exec(s)]: the leftmost pair of line feeds. *)
Fixpoint execParagraphFrom (s : str) (i : Z) : option (Z * Z) :=
  match s with
  | [] => None
  | c :: r =>
      match r with
      | d :: _ =>
          if ((c =? 10) && (d =? 10))%N then Some (i, 2)
          else execParagraphFrom r (i + 1)
      | [] => None
      end
  end.

Definition execParagraph (s : str) : option (Z * Z) := execParagraphFrom s 0.

(** [s.includes(p)], [s.startsWith(p)] *)
Fixpoint startsWith (s p : str) : bool :=
  match p, s with
  | [], _ => true
  | _ :: _, [] => false
  | x :: p', y :: s' => (x =? y)%N && startsWith s' p'
  end.

Fixpoint includes (s p : str) : bool :=
  startsWith s p ||
  match s with
  | [] => false
  | _ :: r => includes r p
  end.

Definition str_eqb (a b : str) : bool :=
  (length a =? length b)%nat && startsWith a b.

(** Two line feeds, the separator of the source's template strings. *)
Definition LF2 : str := [10%N; 10%N].

(** [s.trim()] removes white space and line terminators at both ends. *)
Fixpoint trimStart (s : str) : str :=
  match s with
  | c :: r => if isWhiteSpace c then trimStart r else s
  | [] => []
  end.

Definition trim (s : str) : str := rev (trimStart (rev (trimStart s))).

(** [parts.join(sep)] *)
Fixpoint join (sep : str) (parts : list str) : str :=
  match parts with
  | [] => []
  | [p] => p
  | p :: rest => p ++ sep ++ join sep rest
  end.

(** [s.endsWith(p)] *)
Definition endsWith (s p : str) : bool := startsWith (rev s) (rev p).

(** [s.slice(n)] when [s] starts with [p]: the rest after the prefix. *)
Fixpoint stripPrefix (p s : str) : option str :=
  match p, s with
  | [], _ => Some s
  | _ :: _, [] => None
  | x :: p', y :: s' => if (x =? y)%N then stripPrefix p' s' else None
  end.

(** The longest prefix of code units satisfying [f], and what follows it:
    what a greedy character class consumes. *)
Fixpoint span (f : N -> bool) (s : str) : str * str :=
  match s with
  | [] => ([], [])
  | c :: r =>
      if f c then let '(run, rest) := span f r in (c :: run, rest)
      else ([], s)
  end.

(** Decimal notation of an integer, as in a template string. *)
Definition decimal (n : Z) : str := lit (NilZero.string_of_int (Z.to_int n)).

(** Whether [/\n\n/] matches at index [j]. *)
Definition paragraphMatchAt (s : str) (j : nat) : bool :=
  match skipn j s with
  | c :: d :: _ => ((c =? 10) && (d =? 10))%N
  | _ => false
  end.

(** [s.split(sep)] for a separator of one code unit. *)
Fixpoint split (sep : N) (s : str) : list str :=
  match s with
  | [] => [[]]
  | c :: r =>
      if (c =? sep)%N then [] :: split sep r
      else match split sep r with
           | p :: ps => (c :: p) :: ps
           | [] => [[c]]
           end
  end.

End JS.

(* ================================================================== *)
(** ** TextChunkerService *)

Module Chunker.
Import JS.

Record TextChunk := mkChunk {
  text : str;
  index : Z;
  startChar : Z;
  endChar : Z
}.

(** The two private fields of the service. *)
Definition chunkSize : Z := 1000.
Definition chunkOverlap : Z := 200.

(** [findSentenceBoundary(text, start, end)] *)
Definition findSentenceBoundary (text : str) (start end_ : Z) : Z :=
  let searchStart := Z.max start (end_ - 200) in
  let searchText := slice text searchStart end_ in
  match execSentence searchText with
  | Some (idx, l) => searchStart + idx + l
  | None =>
      match execParagraph searchText with
      | Some (idx, l) => searchStart + idx + l
      | None => end_
      end
  end.

(** The update of [startChar] at the end of one iteration. *)
Definition nextStart (size overlap adjustedEnd startChar : Z) : Z :=
  Z.max (adjustedEnd - overlap) (startChar + size).

(** The [while] loop of [chunkText], with the two fields as parameters.  One
    unit of [fuel] is spent per iteration; [None] means that the fuel ran out
    with the loop condition still true. *)
Fixpoint chunkLoop (size overlap : Z) (fuel : nat) (txt : str)
  (startChar index : Z) (chunks : list TextChunk) : option (list TextChunk) :=
  if startChar <? len txt then
    match fuel with
    | O => None
    | S fuel' =>
        let endChar := Z.min (startChar + size) (len txt) in
        let adjustedEnd := findSentenceBoundary txt startChar endChar in
        let chunks' :=
          chunks ++ [mkChunk (slice txt startChar adjustedEnd) index
                             startChar adjustedEnd] in
        chunkLoop size overlap fuel' txt
          (nextStart size overlap adjustedEnd startChar) (index + 1) chunks'
    end
  else Some chunks.

(** [chunkText(text)] for given field values: the loop started at offset 0
    with an empty array.  [length txt] iterations always suffice
    (see [chunkLoop_enough_fuel]). *)
Definition chunkTextWith (size overlap : Z) (txt : str) : list TextChunk :=
  match chunkLoop size overlap (length txt) txt 0 0 [] with
  | Some chunks => chunks
  | None => []
  end.

Definition chunkText (txt : str) : list TextChunk :=
  chunkTextWith chunkSize chunkOverlap txt.

End Chunker.

(* ================================================================== *)
(** ** Exceptions *)

Module Exn.
Import JS.

Inductive HttpStatus := BAD_REQUEST | NOT_FOUND | INTERNAL_SERVER_ERROR.

(** The two kinds of thrown values of the services: a plain [Error] and the
    framework's [HttpException]. *)
Inductive exn :=
| Error (message : str)
| HttpException (message : str) (status : HttpStatus).

Definition message (e : exn) : str :=
  match e with
  | Error m => m
  | HttpException m _ => m
  end.

(** [error instanceof HttpException] *)
Definition isHttpException (e : exn) : bool :=
  match e with
  | Error _ => false
  | HttpException _ _ => true
  end.

(** The outcome of a call: a returned value or a thrown exception. *)
Inductive result (A : Type) :=
| Ok (a : A)
| Throw (e : exn).
Arguments Ok {A} a.
Arguments Throw {A} e.

(** The numeric value of a status of [HttpStatus]. *)
Definition statusCode (s : HttpStatus) : Z :=
  match s with
  | BAD_REQUEST => 400
  | NOT_FOUND => 404
  | INTERNAL_SERVER_ERROR => 500
  end.

End Exn.

(* ================================================================== *)
(** ** VectorDbService *)

Module VectorDb.
Import JS Exn.

(** The metadata that [RagService] attaches to a document. *)
Record Metadata := mkMetadata {
  meta_index : Z;
  meta_startChar : Z;
  meta_endChar : Z;
  meta_source : option str;
  meta_baseUrls : list str
}.

Record Document := mkDocument {
  id : str;
  text : str;
  embedding : list float;
  metadata : option Metadata
}.

(** An element of the array [similarities] of [searchSimilar]. *)
Record Scored := mkScored {
  document : Document;
  similarity : float
}.

(** [v[i]] on numbers: an index out of range gives [undefined], which
    arithmetic turns into NaN. *)
Definition at_ (v : list float) (i : nat) : float := nth i v nan.

(** The [for] loop of [cosineSimilarity]: [steps] iterations from index [i],
    on the three accumulators [dotProduct], [normA], [normB]. *)
Fixpoint cosineLoop (steps i : nat) (vecA vecB : list float)
  (acc : float * float * float) : float * float * float :=
  match steps with
  | O => acc
  | S steps' =>
      let '(dotProduct, normA, normB) := acc in
      cosineLoop steps' (S i) vecA vecB
        ((dotProduct + at_ vecA i * at_ vecB i)%float,
         (normA + at_ vecA i * at_ vecA i)%float,
         (normB + at_ vecB i * at_ vecB i)%float)
  end.

(** [cosineSimilarity(vecA, vecB)] *)
Definition cosineSimilarity (vecA vecB : list float) : result float :=
  if negb (length vecA =? length vecB)%nat then
    Throw (Error (lit "Vectors must have the same length"))
  else
    let '(dotProduct, normA, normB) :=
      cosineLoop (length vecA) 0 vecA vecB (0, 0, 0)%float in
    let normA := sqrt normA in
    let normB := sqrt normB in
    if (normA =? 0)%float || (normB =? 0)%float then Ok 0%float
    else Ok (dotProduct / (normA * normB))%float.

(** The quantities of the specification, each as its own left-to-right sum
    (the order in which the loop adds). *)
Definition dot (a b : list float) : float :=
  fold_left (fun acc p => (acc + fst p * snd p)%float) (combine a b) 0%float.

Definition norm (a : list float) : float :=
  sqrt (fold_left (fun acc x => (acc + x * x)%float) a 0%float).

Definition cosine (a b : list float) : float :=
  if (norm a =? 0)%float || (norm b =? 0)%float then 0%float
  else (dot a b / (norm a * norm b))%float.

(** [Array.prototype.sort(compare)] is stable, and for a comparator that is
    consistent on the elements its result is determined: the stable sorted
    arrangement ([stable_sort_unique]).  It is modelled by insertion from the
    right, which yields that arrangement.  For a comparator that is not
    consistent (a NaN similarity makes [b - a] NaN) the order that the
    engine returns is implementation-defined and need not be the one of the
    model: there the statements below use the result only as a permutation
    of the input.  [after x y] says [compare(x, y) > 0]: [x] has to stand
    after [y]. *)
Section Sort.
Context {A : Type}.
Variable after : A -> A -> bool.

Fixpoint insert (x : A) (l : list A) : list A :=
  match l with
  | [] => [x]
  | y :: r => if after x y then y :: insert x r else x :: l
  end.

Definition sort (l : list A) : list A := fold_right insert [] l.

(** Two elements tie when neither has to stand after the other. *)
Definition tie (x y : A) : bool := negb (after x y) && negb (after y x).

End Sort.

(** The comparator of [searchSimilar]: [(a, b) => b.similarity - a.similarity] *)
Definition comparator (a b : Scored) : float :=
  (similarity b - similarity a)%float.

Definition sortsAfter (a b : Scored) : bool := (0 <? comparator a b)%float.

(** [documents.map(doc => ({document: doc, similarity: cosineSimilarity(q,
    doc.embedding)}))]: the first exception ends the map. *)
Fixpoint scoreAll (queryEmbedding : list float) (docs : list Document)
  : result (list Scored) :=
  match docs with
  | [] => Ok []
  | doc :: rest =>
      match cosineSimilarity queryEmbedding (embedding doc) with
      | Throw e => Throw e
      | Ok s =>
          match scoreAll queryEmbedding rest with
          | Throw e => Throw e
          | Ok l => Ok (mkScored doc s :: l)
          end
      end
  end.

(** [searchSimilar(queryEmbedding, topK)] on the collection [documents].  The
    [catch] block logs and rethrows. *)
Definition searchSimilar (documents : list Document)
  (queryEmbedding : list float) (topK : Z) : result (list Document) :=
  if (length documents =? 0)%nat then Ok []
  else
    match scoreAll queryEmbedding documents with
    | Throw e => Throw e
    | Ok similarities =>
        Ok (map document (slice (sort sortsAfter similarities) 0 topK))
    end.

(** [addDocuments], [clearCollection], [getCollectionCount] on the field
    [documents]. *)
Definition addDocuments (documents new : list Document) : list Document :=
  documents ++ new.

Definition clearCollection (documents : list Document) : list Document := [].

Definition getCollectionCount (documents : list Document) : Z := len documents.

(** The similarity of a stored document to the query, and ties. *)
Definition simOf (q : list float) (d : Document) : float :=
  cosine q (embedding d).

Definition sameSim (q : list float) (d e : Document) : bool :=
  ((simOf q d <=? simOf q e) && (simOf q e <=? simOf q d))%float.

(** The comparator on documents, through their similarity to [q]. *)
Definition docAfter (q : list float) (x y : Document) : bool :=
  sortsAfter (mkScored x (simOf q x)) (mkScored y (simOf q y)).

(** Three stored vectors and the query [(1, 0)]. *)
Definition sampleDocuments : list Document :=
  [mkDocument (lit "chunk_0_0") (lit "a") [1; 1]%float None;
   mkDocument (lit "chunk_1_0") (lit "b") [1; 0]%float None;
   mkDocument (lit "chunk_2_0") (lit "c") [2; 2]%float None].

End VectorDb.

(* ================================================================== *)
(** ** WebScraperService *)

Module Crawler.
Import JS Exn.

(** What [new URL(..)] exposes of a URL. *)
Record URL := mkURL {
  href : str;
  origin : str;
  pathname : str;
  search : str
}.

(** One HTTP request of a crawl ([axios.get]): by [scrapeSinglePage], with
    its outcome, or by [extractLinks]. *)
Inductive Request :=
| ReqPage (url : str) (ok : bool)
| ReqLinks (url : str).

(** The fields and locals of [scrapeWebsite] during the loop, and the
    requests issued so far. *)
Record CrawlState := mkCrawl {
  visitedUrls : list str;
  urlsToVisit : list str;
  allContent : list str;
  requests : list Request
}.

Definition maxPages : Z := 50.

(** Membership in a [Set] or an array of strings. *)
Fixpoint has (l : list str) (u : str) : bool :=
  match l with
  | [] => false
  | v :: r => str_eqb v u || has r u
  end.

(** [[...new Set(links)]]: first occurrences, in order. *)
Definition unique (links : list str) : list str :=
  fold_left (fun acc u => if has acc u then acc else acc ++ [u]) links [].

(** [text.replace(/\s+/g, ' ')]: [inRun] tells that the previous code unit
    was white space, already replaced. *)
Fixpoint collapseWhiteSpace (inRun : bool) (s : str) : str :=
  match s with
  | [] => []
  | c :: r =>
      if isWhiteSpace c
      then (if inRun then collapseWhiteSpace true r
            else 32%N :: collapseWhiteSpace true r)
      else c :: collapseWhiteSpace false r
  end.

(** [text.replace(/\n{3,}/g, '\n\n')]: [run] line feeds are pending. *)
Definition flushNewlines (run : nat) : str :=
  if (3 <=? run)%nat then [10%N; 10%N] else repeat 10%N run.

Fixpoint collapseNewlines (run : nat) (s : str) : str :=
  match s with
  | [] => flushNewlines run
  | c :: r =>
      if (c =? 10)%N then collapseNewlines (S run) r
      else flushNewlines run ++ c :: collapseNewlines 0 r
  end.

(** [cleanText(text)] *)
Definition cleanText (s : str) : str :=
  trim (collapseNewlines 0 (collapseWhiteSpace false s)).

(** No two white-space code units stand next to each other. *)
Fixpoint singleSpaced (s : str) : bool :=
  match s with
  | [] => true
  | a :: r =>
      negb (isWhiteSpace a && match r with
                              | b :: _ => isWhiteSpace b
                              | [] => false
                              end)
      && singleSpaced r
  end.

(** The visible code units of a string: those that are not white space. *)
Definition visible (s : str) : str :=
  filter (fun c => negb (isWhiteSpace c)) s.

(** *** Link filter of [extractLinks] *)

Definition excludedPaths : list str :=
  map lit ["/api/"; "/contact"; "/about"; "/privacy"; "/terms"; "/legal";
           "/blog"; "/news"; "/social"; "/facebook"; "/twitter";
           "/instagram"; "/linkedin"; "/youtube"]%string.

(** Case folding of the [i] flag, on the ASCII letters. *)
Definition lower (c : N) : N :=
  if ((65 <=? c) && (c <=? 90))%N then (c + 32)%N else c.

(** [linkPath.match(/\.(pdf|jpg|jpeg|png|gif|svg|zip|doc|docx)$/i)] *)
Definition hasFileExtension (path : str) : bool :=
  existsb (fun ext => endsWith (map lower path) (lit ext))
    [".pdf"; ".jpg"; ".jpeg"; ".png"; ".gif"; ".svg"; ".zip"; ".doc";
     ".docx"]%string.

(** [path.split('/').filter((p) => p).length]: the number of non-empty
    segments; [inSegment] tells that the previous code unit was not a
    slash. *)
Fixpoint depth (inSegment : bool) (path : str) : Z :=
  match path with
  | [] => 0
  | c :: r =>
      if (c =? 47)%N then depth false r
      else (if inSegment then 0 else 1) + depth true r
  end.

Definition isExcluded (urlObj : URL) : bool :=
  let linkPath := pathname urlObj in
  existsb (fun path => includes linkPath path) excludedPaths
  || hasFileExtension linkPath
  || includes linkPath (lit "#")
  || negb (len (search urlObj) =? 0)
  || (len linkPath <=? 1).

(** The test a same-origin, non-excluded link has to pass, from a page at
    [currentPath]. *)
Definition goesDeeper (currentPath linkPath : str) : bool :=
  let isFromRoot := str_eqb currentPath (lit "/") || str_eqb currentPath [] in
  let isChildPath :=
    startsWith linkPath currentPath && negb (str_eqb linkPath currentPath) in
  (isFromRoot || isChildPath)
  && (depth false currentPath <=? depth false linkPath).

(** The [for] loop over [links] in [scrapeWebsite]. *)
Fixpoint enqueue (visited queue links : list str) : list str :=
  match links with
  | [] => queue
  | link :: rest =>
      if negb (has visited link) && negb (has queue link)
      then enqueue visited (queue ++ [link]) rest
      else enqueue visited queue rest
  end.

(** The environment of a crawl: URL parsing and the web.  The outcome of a
    request may depend on how many requests came before it. *)
Section Crawl.

(** [new URL(s)] and [new URL(href, base)] *)
Variable parseURL : str -> result URL.
Variable resolveURL : str -> str -> result URL.

(** [axios.get(url)], [cheerio.load] and [turndown] in [scrapeSinglePage],
    as the n-th request: an exception, no main content ([None]), or the
    markdown of the main content. *)
Variable httpPage : nat -> str -> result (option str).

(** [axios.get(url)] and [cheerio] in [extractLinks], as the n-th request:
    an exception, or the [href] attributes of the anchors of the content
    areas. *)
Variable httpAnchors : nat -> str -> result (list str).

(** [scrapeSinglePage(url)], issued as request number [n]. *)
Definition scrapeSinglePage (n : nat) (url : str) : result str :=
  match httpPage n url with
  | Throw e => Throw e
  | Ok None => Ok []
  | Ok (Some markdown) => Ok (cleanText markdown)
  end.

(** The body of [.each] in [extractLinks]: the link that one anchor adds to
    [links], if any. *)
Definition linkOfAnchor (url : str) (baseUrlObj : URL) (anchor : str)
  : option str :=
  if len anchor =? 0 then None
  else
    match resolveURL anchor url with
    | Throw _ => None
    | Ok resolved =>
        let absoluteUrl := href resolved in
        match parseURL absoluteUrl with
        | Throw _ => None
        | Ok urlObj =>
            if str_eqb (origin urlObj) (origin baseUrlObj)
               && negb (isExcluded urlObj)
               && goesDeeper (pathname baseUrlObj) (pathname urlObj)
            then Some absoluteUrl
            else None
        end
    end.

Fixpoint collectLinks (url : str) (baseUrlObj : URL) (anchors : list str)
  : list str :=
  match anchors with
  | [] => []
  | a :: rest =>
      match linkOfAnchor url baseUrlObj a with
      | Some link => link :: collectLinks url baseUrlObj rest
      | None => collectLinks url baseUrlObj rest
      end
  end.

(** [extractLinks(url)], issued as request number [n]; every failure gives
    the empty array. *)
Definition extractLinks (n : nat) (url : str) : list str :=
  match httpAnchors n url with
  | Throw _ => []
  | Ok anchors =>
      match parseURL url with
      | Throw _ => []
      | Ok baseUrlObj => unique (collectLinks url baseUrlObj anchors)
      end
  end.

(** One evaluation of the loop condition of [scrapeWebsite] and, when it
    holds, one iteration; [None] when the loop is left. *)
Definition crawlStep (st : CrawlState) : option CrawlState :=
  match urlsToVisit st with
  | [] => None
  | currentUrl :: queue =>
      if len (visitedUrls st) <? maxPages then
        if has (visitedUrls st) currentUrl then
          Some (mkCrawl (visitedUrls st) queue (allContent st) (requests st))
        else
          match scrapeSinglePage (length (requests st)) currentUrl with
          | Throw _ =>
              Some (mkCrawl (visitedUrls st) queue (allContent st)
                      (requests st ++ [ReqPage currentUrl false]))
          | Ok pageContent =>
              let content :=
                if 0 <? len (trim pageContent)
                then allContent st ++
                     [LF2 ++ lit "=== Page: " ++ currentUrl ++ lit " ===" ++
                      LF2 ++ pageContent]
                else allContent st in
              let links :=
                extractLinks (S (length (requests st))) currentUrl in
              Some (mkCrawl
                      (visitedUrls st ++ [currentUrl])
                      (enqueue (visitedUrls st) queue links)
                      content
                      (requests st ++
                         [ReqPage currentUrl true; ReqLinks currentUrl]))
          end
      else None
  end.

(** The state after at most [n] iterations. *)
Fixpoint crawlIter (n : nat) (st : CrawlState) : CrawlState :=
  match n with
  | O => st
  | S n' =>
      match crawlStep st with
      | None => st
      | Some st' => crawlIter n' st'
      end
  end.

(** The whole loop; [None] when the fuel runs out before the loop is left. *)
Fixpoint crawlLoop (fuel : nat) (st : CrawlState) : option CrawlState :=
  match crawlStep st with
  | None => Some st
  | Some st' =>
      match fuel with
      | O => None
      | S fuel' => crawlLoop fuel' st'
      end
  end.

(** The state in which the loop of [scrapeWebsite(baseUrl)] starts. *)
Definition crawlStart (baseUrl : str) : CrawlState :=
  mkCrawl [] [baseUrl] [] [].

(** [scrapeWebsite(baseUrl)] *)
Definition scrapeWebsite (fuel : nat) (baseUrl : str)
  : option (result str * list Request) :=
  match parseURL baseUrl with
  | Throw e =>
      Some (if isHttpException e then Throw e
            else Throw (HttpException
                          (lit "Failed to scrape website: " ++ message e)
                          INTERNAL_SERVER_ERROR), [])
  | Ok _ =>
      match crawlLoop fuel (crawlStart baseUrl) with
      | None => None
      | Some st =>
          let combinedContent := join LF2 (allContent st) in
          if len (trim combinedContent) =? 0
          then Some (Throw (HttpException
                              (lit "No content found on any pages")
                              BAD_REQUEST), requests st)
          else Some (Ok combinedContent, requests st)
      end
  end.

End Crawl.

(** The URLs whose page was scraped with success, in the order of the
    requests. *)
Fixpoint scraped (log : list Request) : list str :=
  match log with
  | [] => []
  | ReqPage u true :: r => u :: scraped r
  | _ :: r => scraped r
  end.

(** The URLs that [scrapeSinglePage] requested, with or without success. *)
Fixpoint pageRequests (log : list Request) : list str :=
  match log with
  | [] => []
  | ReqPage u _ :: r => u :: pageRequests r
  | _ :: r => pageRequests r
  end.

(** The URLs that [extractLinks] requested. *)
Fixpoint linkRequests (log : list Request) : list str :=
  match log with
  | [] => []
  | ReqLinks u :: r => u :: linkRequests r
  | _ :: r => linkRequests r
  end.

(** No page is requested once it has been scraped: in a log with this
    property, a page request for [u] is never preceded by a successful one
    for [u]. *)
Definition neverAgain (log : list Request) : Prop :=
  forall l1 u ok l2,
    log = l1 ++ ReqPage u ok :: l2 -> ~ In u (scraped l1).

(** The invariant of the crawl loop. *)
Definition crawlInv (st : CrawlState) : Prop :=
  NoDup (visitedUrls st) /\
  NoDup (urlsToVisit st) /\
  scraped (requests st) = visitedUrls st /\
  linkRequests (requests st) = visitedUrls st /\
  neverAgain (requests st).

(** The visited set never exceeds the page budget, and there is at most one
    block of content per visited page. *)
Definition withinBudget (st : CrawlState) : Prop :=
  len (visitedUrls st) <= maxPages /\
  (length (allContent st) <= length (visitedUrls st))%nat.

(** A URL on the site of the seed: it parses, and is the seed itself or a
    link on the seed's origin that passed the exclusion list. *)
Definition onSite (parseURL : str -> result URL) (baseUrl : str) (b0 : URL)
  (u : str) : Prop :=
  exists o,
    parseURL u = Ok o /\
    (u = baseUrl \/ (origin o = origin b0 /\ isExcluded o = false)).

(** Every URL that the crawl knows is on the site of the seed. *)
Definition siteInv (parseURL : str -> result URL) (baseUrl : str) (b0 : URL)
  (st : CrawlState) : Prop :=
  Forall (onSite parseURL baseUrl b0) (urlsToVisit st) /\
  Forall (onSite parseURL baseUrl b0) (visitedUrls st) /\
  Forall (onSite parseURL baseUrl b0) (pageRequests (requests st)) /\
  Forall (onSite parseURL baseUrl b0) (linkRequests (requests st)).

(** A small site, for the examples: the root page links to [/docs/x] and
    [/docs], [/docs] links to [/docs/x], and the third request of the crawl
    fails. *)
Definition siteOrigin : str := lit "https://a.com".
Definition seedUrl : str := lit "https://a.com/".
Definition pageA : str := lit "https://a.com/docs/x".
Definition pageB : str := lit "https://a.com/docs".

Definition siteParse (s : str) : result URL :=
  if startsWith s siteOrigin
  then Ok (mkURL s siteOrigin (skipn (length siteOrigin) s) [])
  else Throw (Error (lit "Invalid URL")).

Definition siteResolve (anchor base : str) : result URL := siteParse anchor.

Definition sitePage (failing : nat) (n : nat) (url : str)
  : result (option str) :=
  if (n =? failing)%nat then Throw (Error (lit "timeout of 30000ms exceeded"))
  else Ok (Some (lit "text")).

Definition siteAnchors (n : nat) (url : str) : result (list str) :=
  if str_eqb url seedUrl then Ok [pageA; pageB]
  else if str_eqb url pageB then Ok [pageA]
  else Ok [].

End Crawler.

(* ================================================================== *)
(** ** EmbeddingService and RagService *)

Module Rag.
Import JS Exn.

(** The calls that [RagService] makes to its collaborators: the scraper,
    the embedder, the vector index and the answer generator. *)
Inductive Call :=
| CallScrape (url : str)
| CallEmbed (text : str)
| CallSearch (queryEmbedding : list float) (topK : Z)
| CallComplete (prompt : str).

(** The state of the session: the two fields of [RagService], the
    collection of [VectorDbService], and the calls made so far. *)
Record RagState := mkRag {
  websiteUrl : option str;
  isInitialized : bool;
  documents : list VectorDb.Document;
  calls : list Call
}.

(** The state at start-up. *)
Definition initialState : RagState := mkRag None false [] [].

(** A computation on the session state that returns or throws. *)
Definition M (A : Type) : Type := RagState -> result A * RagState.

Definition ret {A : Type} (a : A) : M A := fun st => (Ok a, st).

Definition throw {A : Type} (e : exn) : M A := fun st => (Throw e, st).

Definition bind {A B : Type} (m : M A) (k : A -> M B) : M B :=
  fun st =>
    match m st with
    | (Ok a, st') => k a st'
    | (Throw e, st') => (Throw e, st')
    end.

(** [try { m } catch (error) { handler(error) }] *)
Definition tryCatch {A : Type} (m : M A) (handler : exn -> M A) : M A :=
  fun st =>
    match m st with
    | (Ok a, st') => (Ok a, st')
    | (Throw e, st') => handler e st'
    end.

Notation "x <- m ;; k" := (bind m (fun x => k))
  (at level 61, m at next level, right associativity).
Notation "m ;;; k" := (bind m (fun _ => k))
  (at level 61, right associativity).

Definition logCall (c : Call) (st : RagState) : RagState :=
  mkRag (websiteUrl st) (isInitialized st) (documents st) (calls st ++ [c]).

(** The state after further calls: nothing but the log changes. *)
Definition appendCalls (st : RagState) (new : list Call) : RagState :=
  mkRag (websiteUrl st) (isInitialized st) (documents st) (calls st ++ new).

(** The exceptions of [generateEmbedding]. *)
Definition embeddingFailure (e : exn) : Prop :=
  exists detail,
    e = HttpException (lit "Failed to generate embedding: " ++ detail)
          INTERNAL_SERVER_ERROR.

Definition setWebsiteUrl (u : option str) : M unit :=
  fun st => (Ok tt, mkRag u (isInitialized st) (documents st) (calls st)).

Definition setInitialized (b : bool) : M unit :=
  fun st => (Ok tt, mkRag (websiteUrl st) b (documents st) (calls st)).

(** [vectorDbService.clearCollection()], [.addDocuments(documents)] *)
Definition clearCollection : M unit :=
  fun st =>
    (Ok tt, mkRag (websiteUrl st) (isInitialized st)
              (VectorDb.clearCollection (documents st)) (calls st)).

Definition addDocuments (new : list VectorDb.Document) : M unit :=
  fun st =>
    (Ok tt, mkRag (websiteUrl st) (isInitialized st)
              (VectorDb.addDocuments (documents st) new) (calls st)).

(** *** The markers in chunk texts *)

(** [=== (?:Page|Website): ] at the head of [s]: what follows it. *)
Definition afterMarkerHead (s : str) : option str :=
  match stripPrefix (lit "=== ") s with
  | None => None
  | Some r =>
      match stripPrefix (lit "Page") r with
      | Some r' => stripPrefix (lit ": ") r'
      | None =>
          match stripPrefix (lit "Website") r with
          | Some r' => stripPrefix (lit ": ") r'
          | None => None
          end
      end
  end.

(** [/=== (?:Page|Website): (https?:\/\/[^\s]+) ===/] matched at the head of
    [s]: the captured URL. *)
Definition sourceAt (s : str) : option str :=
  match afterMarkerHead s with
  | None => None
  | Some r =>
      match stripPrefix (lit "http") r with
      | None => None
      | Some r1 =>
          let scheme :=
            match stripPrefix (lit "s://") r1 with
            | Some r2 => Some (lit "https://", r2)
            | None =>
                match stripPrefix (lit "://") r1 with
                | Some r2 => Some (lit "http://", r2)
                | None => None
                end
            end in
          match scheme with
          | None => None
          | Some (prefix, r2) =>
              let '(run, rest) := span (fun c => negb (isWhiteSpace c)) r2 in
              if (0 <? len run) && startsWith rest (lit " ===")
              then Some (prefix ++ run)
              else None
          end
      end
  end.

(** [chunk.text.match(..)]: the capture of the leftmost match. *)
Fixpoint matchSource (s : str) : option str :=
  match sourceAt s with
  | Some u => Some u
  | None =>
      match s with
      | [] => None
      | _ :: r => matchSource r
      end
  end.

(** [/=== (?:Page|Website): [^\n]+ ===\n\n/] matched at the head of [s]: the
    length of the match.  The run [[^\n]+] ends where the line ends, so the
    line has to end with [" ==="], after at least one other code unit, and
    an empty line has to follow. *)
Definition markerLengthAt (s : str) : option nat :=
  match afterMarkerHead s with
  | None => None
  | Some r =>
      let '(line, rest) := span (fun c => negb (c =? 10)%N) r in
      if (5 <=? length line)%nat && endsWith line (lit " ===")
         && startsWith rest LF2
      then Some (length s - length rest + 2)%nat
      else None
  end.

(** [chunk.text.replace(/=== (?:Page|Website): [^\n]+ ===\n\n/g, '')];
    [skip] code units of a match are still to be dropped. *)
Fixpoint stripMarkers (skip : nat) (s : str) : str :=
  match s with
  | [] => []
  | c :: r =>
      match skip with
      | S k => stripMarkers k r
      | O =>
          match markerLengthAt s with
          | Some (S l) => stripMarkers l r
          | _ => c :: stripMarkers O r
          end
      end
  end.

(** The collaborators outside the process.  The outcome of a call may depend
    on how many calls came before it. *)
Section Orchestrator.

(** [webScraperService.scrapeWebsite(url)], as call number [n]. *)
Variable scrapeWebsite : nat -> str -> result str.

(** [model.embedContent(text)] and the unwrapping of its response, as call
    number [n]: an exception, a response that holds no array ([None]), or
    the vector. *)
Variable embedContent : nat -> str -> result (option (list float)).

(** [openaiClient.chat.completions.create(..)], as call number [n]: an
    exception, or [choices[0]?.message?.content]. *)
Variable chatCompletion : nat -> str -> result (option str).

(** [Date.now()] when the i-th document is built. *)
Variable now : nat -> Z.

(** *** EmbeddingService *)

(** [generateEmbedding(text)] *)
Definition generateEmbedding (text : str) : M (list float) :=
  fun st =>
    let st' := logCall (CallEmbed text) st in
    match embedContent (length (calls st)) text with
    | Ok (Some embedding) => (Ok embedding, st')
    | Ok None =>
        (Throw (HttpException
                  (lit "Failed to generate embedding: " ++
                   lit "Invalid embedding response from Gemini")
                  INTERNAL_SERVER_ERROR), st')
    | Throw e =>
        (Throw (HttpException
                  (lit "Failed to generate embedding: " ++ message e)
                  INTERNAL_SERVER_ERROR), st')
    end.

(** [batch.map((text) => this.generateEmbedding(text))]: every request of
    the batch is issued, whatever the outcome of the others. *)
Fixpoint startBatch (batch : list str) (st : RagState)
  : list (result (list float)) * RagState :=
  match batch with
  | [] => ([], st)
  | text :: rest =>
      let '(r, st') := generateEmbedding text st in
      let '(rs, st'') := startBatch rest st' in
      (r :: rs, st'')
  end.

(** [Promise.all]: the values in order, or a rejection.  When several
    requests of a batch fail, [Promise.all] rejects with the rejection that
    settles first; the oracles carry no settling times, and the model
    reports the first failure in the order of the batch.  Which of the
    failures of a batch is reported is therefore not a fact of the code, and
    no statement below relies on it. *)
Fixpoint promiseAll {A : Type} (rs : list (result A)) : result (list A) :=
  match rs with
  | [] => Ok []
  | Throw e :: _ => Throw e
  | Ok a :: rest =>
      match promiseAll rest with
      | Ok l => Ok (a :: l)
      | Throw e => Throw e
      end
  end.

Definition batchSize : nat := 10.

(** The [for] loop of [generateEmbeddings]: [texts] are the texts from index
    [i] on, [embeddings] the array built so far; one unit of fuel per
    batch. *)
Fixpoint embedLoop (fuel : nat) (texts : list str)
  (embeddings : list (list float)) : M (list (list float)) :=
  match texts, fuel with
  | [], _ => ret embeddings
  | _, O => ret embeddings
  | _, S fuel' =>
      fun st =>
        let '(rs, st') := startBatch (firstn batchSize texts) st in
        match promiseAll rs with
        | Throw e => (Throw e, st')
        | Ok batchEmbeddings =>
            embedLoop fuel' (skipn batchSize texts)
              (embeddings ++ batchEmbeddings) st'
        end
  end.

(** [generateEmbeddings(texts)]; there are at most [length texts] batches. *)
Definition generateEmbeddings (texts : list str) : M (list (list float)) :=
  embedLoop (length texts) texts [].

(** *** RagService.initializeRag *)

(** The argument of [initializeRag]: one URL or an array of URLs. *)
Inductive UrlArg :=
| OneUrl (url : str)
| ManyUrls (urls : list str).

(** The [for] loop over [urls]: a seed whose crawl throws is skipped. *)
Fixpoint scrapeAll (urls : list str) (allContent : list str) : M (list str) :=
  match urls with
  | [] => ret allContent
  | url :: rest =>
      fun st =>
        let st' := logCall (CallScrape url) st in
        match scrapeWebsite (length (calls st)) url with
        | Ok content =>
            scrapeAll rest
              (allContent ++
                 [LF2 ++ lit "=== Website: " ++ url ++ lit " ===" ++ LF2 ++
                  content]) st'
        | Throw _ => scrapeAll rest allContent st'
        end
  end.

(** The callback of [chunks.map((chunk, index) => ..)]. *)
Definition buildDocument (urls : list str) (embeddings : list (list float))
  (index : nat) (chunk : Chunker.TextChunk) : VectorDb.Document :=
  let sourceUrl :=
    if includes (Chunker.text chunk) (lit "=== Page:")
       || includes (Chunker.text chunk) (lit "=== Website:")
    then
      match matchSource (Chunker.text chunk) with
      | Some url => Some url
      | None => hd_error urls
      end
    else hd_error urls in
  VectorDb.mkDocument
    (lit "chunk_" ++ decimal (Z.of_nat index) ++ lit "_" ++ decimal (now index))
    (stripMarkers 0 (Chunker.text chunk))
    (nth index embeddings [])
    (Some (VectorDb.mkMetadata (Chunker.index chunk) (Chunker.startChar chunk)
             (Chunker.endChar chunk) sourceUrl urls)).

Fixpoint mapIndexed {A B : Type} (f : nat -> A -> B) (i : nat) (l : list A)
  : list B :=
  match l with
  | [] => []
  | a :: r => f i a :: mapIndexed f (S i) r
  end.

(** The body of the [try] block of [initializeRag]. *)
Definition initializeBody (websiteUrls : UrlArg) : M unit :=
  let urls :=
    match websiteUrls with
    | OneUrl url => [url]
    | ManyUrls urls => urls
    end in
  setWebsiteUrl (hd_error urls) ;;;
  allContent <- scrapeAll urls [] ;;
  if (length allContent =? 0)%nat then
    throw (HttpException (lit "No content scraped from any website")
             BAD_REQUEST)
  else
    let combinedContent := join LF2 allContent in
    let chunks := Chunker.chunkText combinedContent in
    if (length chunks =? 0)%nat then
      throw (HttpException (lit "No content chunks created from websites")
               BAD_REQUEST)
    else
      embeddings <- generateEmbeddings (map Chunker.text chunks) ;;
      let documents := mapIndexed (buildDocument urls embeddings) 0 chunks in
      clearCollection ;;;
      addDocuments documents ;;;
      setInitialized true.

(** [initializeRag(websiteUrls)] *)
Definition initializeRag (websiteUrls : UrlArg) : M unit :=
  tryCatch (initializeBody websiteUrls)
    (fun error =>
       throw (HttpException
                (lit "Failed to initialize RAG: " ++ message error)
                INTERNAL_SERVER_ERROR)).

(** *** RagService.query *)

Definition notInitializedMessage : str :=
  lit "RAG system not initialized. Please initialize with a website URL first via /rag/initialize endpoint or set RAG_WEBSITE_URL environment variable.".

(** A string is falsy when it is empty; a field holding [null] is falsy. *)
Definition falsy (s : option str) : bool :=
  match s with
  | None => true
  | Some u => len u =? 0
  end.

(** [vectorDbService.searchSimilar(queryEmbedding, topK)] on the
    collection of the session. *)
Definition searchSimilar (queryEmbedding : list float) (topK : Z)
  : M (list VectorDb.Document) :=
  fun st =>
    (VectorDb.searchSimilar (documents st) queryEmbedding topK,
     logCall (CallSearch queryEmbedding topK) st).

Definition createCompletion (prompt : str) : M (option str) :=
  fun st =>
    (chatCompletion (length (calls st)) prompt,
     logCall (CallComplete prompt) st).

Definition promptFor (context query : str) : str :=
  lit "You are a helpful AI assistant. Answer the user's question based on the following context from a website. Only provide answer if you find something don't give any generic answer If the answer cannot be found in the context, say so."
  ++ LF2 ++ lit "Context:" ++ [10%N] ++ context ++ LF2
  ++ lit "Question: " ++ query ++ LF2 ++ lit "Answer:".

(** [query(query)]; the result is the field [answer] of the returned
    object. *)
Definition query (query : str) : M str :=
  if (len query =? 0) || (len (trim query) =? 0) then
    throw (HttpException (lit "Query is required") BAD_REQUEST)
  else
    fun st =>
      if negb (isInitialized st) || falsy (websiteUrl st) then
        throw (HttpException notInitializedMessage BAD_REQUEST) st
      else
        tryCatch
          (queryEmbedding <- generateEmbedding query ;;
           similarDocs <- searchSimilar queryEmbedding 5 ;;
           if (length similarDocs =? 0)%nat then
             throw (HttpException
                      (lit "No relevant content found for your query")
                      NOT_FOUND)
           else
             let context :=
               join (LF2 ++ lit "---" ++ LF2)
                 (map VectorDb.text similarDocs) in
             content <- createCompletion (promptFor context query) ;;
             ret (if falsy content then lit "No answer generated"
                  else match content with
                       | Some answer => answer
                       | None => []
                       end))
          (fun error =>
             if isHttpException error then throw error
             else
               throw (HttpException
                        (lit "An error occurred while processing your query: "
                         ++ message error)
                        INTERNAL_SERVER_ERROR))
          st.

End Orchestrator.

(** [Array.isArray(websiteUrls) ? websiteUrls : [websiteUrls]] *)
Definition urlsOf (websiteUrls : UrlArg) : list str :=
  match websiteUrls with
  | OneUrl url => [url]
  | ManyUrls urls => urls
  end.

(** The states of a session whose calls run one after the other: the state
    at start-up, and the state after any call of [initializeRag] or
    [query], whatever the collaborators answer. *)
Inductive reachable : RagState -> Prop :=
| reach_start : reachable initialState
| reach_initialize
    (scrapeWebsite : nat -> str -> result str)
    (embedContent : nat -> str -> result (option (list float)))
    (now : nat -> Z) (websiteUrls : UrlArg) (st : RagState) :
    reachable st ->
    reachable (snd (initializeRag scrapeWebsite embedContent now websiteUrls st))
| reach_query
    (embedContent : nat -> str -> result (option (list float)))
    (chatCompletion : nat -> str -> result (option str))
    (q : str) (st : RagState) :
    reachable st ->
    reachable (snd (query embedContent chatCompletion q st)).

(** The [catch] block of [query] applied to [error]. *)
Definition queryError (error : exn) : exn :=
  if isHttpException error then error
  else HttpException
         (lit "An error occurred while processing your query: " ++
          message error)
         INTERNAL_SERVER_ERROR.

(** *** RagService.onModuleInit *)

(** The list of URLs that [onModuleInit] reads from [RAG_WEBSITE_URL]:
    [websiteUrl.split(',').map((url) => url.trim()).filter((url) =>
    url.length > 0)] *)
Definition parseUrls (websiteUrl : str) : list str :=
  filter (fun url => 0 <? len url) (map trim (split 44 websiteUrl)).

Section Startup.
Variable scrapeWebsite : nat -> str -> result str.
Variable embedContent : nat -> str -> result (option (list float)).
Variable now : nat -> Z.

(** [onModuleInit()], for the value of [RAG_WEBSITE_URL] in the
    configuration ([None] when it is not set). *)
Definition onModuleInit (env : option str) : M unit :=
  match env with
  | None => ret tt
  | Some websiteUrl =>
      if len websiteUrl =? 0 then ret tt
      else
        tryCatch
          (initializeRag scrapeWebsite embedContent now
             (ManyUrls (parseUrls websiteUrl)))
          (fun error => ret tt)
  end.

End Startup.

(** Two states with the same index: the same collection and the same
    readiness flag. *)
Definition sameIndex (st st' : RagState) : Prop :=
  documents st' = documents st /\ isInitialized st' = isInitialized st.

(** A session that holds one document, and a scraper that always fails. *)
Definition readyState : RagState :=
  mkRag (Some (lit "https://a.com/")) true
    [VectorDb.mkDocument (lit "chunk_0_0") (lit "a") [1; 0]%float None] [].

Definition scraperDown (n : nat) (url : str) : result str :=
  Throw (HttpException (lit "No content found on any pages") BAD_REQUEST).

Definition embedderUp (n : nat) (text : str) : result (option (list float)) :=
  Ok (Some [1; 0]%float).

Definition embedderDown (n : nat) (text : str)
  : result (option (list float)) :=
  Throw (Error (lit "429 Too Many Requests")).

Definition scraperUp (n : nat) (url : str) : result str :=
  Ok (lit "Some text").

End Rag.

(* ================================================================== *)
(** ** RagController *)

Module Controller.
Import JS Exn Rag.

(** The body of a request to [POST /rag/initialize]: both fields are
    optional. *)
Record InitializeRagDto := mkInitializeRagDto {
  url : option str;
  urls : option (list str)
}.

(** [RagQueryDtoSchema], the body of a request to [POST /rag/query]:
    [query: z.string().min(1, 'Query is required')] accepts a string of at
    least one code unit, white space included. *)
Definition RagQueryDtoSchema (query : str) : bool := 1 <=? len query.

(** The refinement of the schema:
    [(data) => data.url || (data.urls && data.urls.length > 0)] *)
Definition refine (data : InitializeRagDto) : bool :=
  negb (falsy (url data))
  || match urls data with
     | Some l => 0 <? len l
     | None => false
     end.

(** [initializeDto.urls || (initializeDto.url ? [initializeDto.url] : [])]:
    an array is truthy, also when it is empty. *)
Definition requestedUrls (initializeDto : InitializeRagDto) : list str :=
  match urls initializeDto with
  | Some l => l
  | None =>
      match url initializeDto with
      | Some u => if falsy (Some u) then [] else [u]
      | None => []
      end
  end.

Section Endpoints.
Variable scrapeWebsite : nat -> str -> result str.
Variable embedContent : nat -> str -> result (option (list float)).
Variable now : nat -> Z.

(** [initialize(initializeDto)]; the result is the field [message] of the
    returned object. *)
Definition initialize (initializeDto : InitializeRagDto) : M str :=
  initializeRag scrapeWebsite embedContent now
    (ManyUrls (requestedUrls initializeDto)) ;;;
  ret (lit "RAG system initialized successfully").

End Endpoints.

End Controller.

(* ================================================================== *)
(** ** The Express server (server.js)

    The stand-alone server holds the state of a session in module-level
    variables and answers with JSON bodies.  Its helper functions
    ([chunkText], [cosineSimilarity], [searchSimilar], the loop over the
    URLs and the callback that builds a document) are those of the
    services, statement for statement; [generateEmbedding] differs in the
    exception that it throws. *)

Module Server.
Import JS Exn Rag.

(** The JSON bodies of the responses. *)
Inductive Json :=
| JsonError (error : str)
| JsonAnswer (answer : str)
| JsonInitialized (message : str) (chunksCount websitesCount : Z).

(** A response: the status ([res.status(..)]; 200 when the handler does not
    set it) and the body passed to [res.json]. *)
Record Response := mkResponse {
  status : Z;
  json : Json
}.

(** The module-level state ([websiteUrl], [isInitialized], [documents]) is
    the state of a session; a handler maps it to a response and a state. *)
Definition Handler : Type := RagState -> Response * RagState.

Section Handlers.
Variable scrapeWebsite : nat -> str -> result str.
Variable embedContent : nat -> str -> result (option (list float)).
Variable chatCompletion : nat -> str -> result (option str).
Variable now : nat -> Z.

(** [generateEmbedding(text)]: every failure becomes a plain [Error]. *)
Definition generateEmbedding (text : str) : M (list float) :=
  fun st =>
    let st' := logCall (CallEmbed text) st in
    match embedContent (length (calls st)) text with
    | Ok (Some embedding) => (Ok embedding, st')
    | Ok None =>
        (Throw (Error (lit "Failed to generate embedding: " ++
                       lit "Invalid embedding response from Gemini")), st')
    | Throw e =>
        (Throw (Error (lit "Failed to generate embedding: " ++ message e)), st')
    end.

Fixpoint startBatch (batch : list str) (st : RagState)
  : list (result (list float)) * RagState :=
  match batch with
  | [] => ([], st)
  | text :: rest =>
      let '(r, st') := generateEmbedding text st in
      let '(rs, st'') := startBatch rest st' in
      (r :: rs, st'')
  end.

(** The [for] loop of [generateEmbeddings]. *)
Fixpoint embedLoop (fuel : nat) (texts : list str)
  (embeddings : list (list float)) : M (list (list float)) :=
  match texts, fuel with
  | [], _ => ret embeddings
  | _, O => ret embeddings
  | _, S fuel' =>
      fun st =>
        let '(rs, st') := startBatch (firstn batchSize texts) st in
        match promiseAll rs with
        | Throw e => (Throw e, st')
        | Ok batchEmbeddings =>
            embedLoop fuel' (skipn batchSize texts)
              (embeddings ++ batchEmbeddings) st'
        end
  end.

Definition generateEmbeddings (texts : list str) : M (list (list float)) :=
  embedLoop (length texts) texts [].

Definition notInitializedError : str :=
  lit "RAG system not initialized. Please set RAG_WEBSITE_URL in your .env file and restart the server.".

(** [app.post('/rag/query', ..)], for a request body whose field [query] is
    a string, or is missing ([None]). *)
Definition queryHandler (query : option str) : Handler :=
  fun st =>
    match query with
    | None => (mkResponse 400 (JsonError (lit "Query is required")), st)
    | Some q =>
        if (len q =? 0) || (len (trim q) =? 0) then
          (mkResponse 400 (JsonError (lit "Query is required")), st)
        else if negb (isInitialized st) || falsy (websiteUrl st) then
          (mkResponse 400 (JsonError notInitializedError), st)
        else
          match
            (queryEmbedding <- generateEmbedding q ;;
             similarDocs <- searchSimilar queryEmbedding 5 ;;
             if (length similarDocs =? 0)%nat then
               ret (mkResponse 404
                      (JsonError
                         (lit "No relevant content found for your query")))
             else
               let context :=
                 join (LF2 ++ lit "---" ++ LF2)
                   (map VectorDb.text similarDocs) in
               content <- createCompletion chatCompletion
                            (promptFor context q) ;;
               ret (mkResponse 200
                      (JsonAnswer
                         (if falsy content then lit "No answer generated"
                          else match content with
                               | Some answer => answer
                               | None => []
                               end)))) st
          with
          | (Ok response, st') => (response, st')
          | (Throw error, st') =>
              (mkResponse 500
                 (JsonError
                    (lit "An error occurred while processing your query: "
                     ++ message error)), st')
          end
    end.

(** [app.post('/rag/initialize', ..)], for the value of [RAG_WEBSITE_URL]
    in the environment. *)
Definition initializeHandler (env : str) : Handler :=
  fun st =>
    if len env =? 0 then
      (mkResponse 400
         (JsonError (lit "RAG_WEBSITE_URL is not set in environment variables. Please set it in your .env file.")),
       st)
    else
      let urls := parseUrls env in
      match
        (setWebsiteUrl (hd_error urls) ;;;
         allContent <- scrapeAll scrapeWebsite urls [] ;;
         if (length allContent =? 0)%nat then
           ret (mkResponse 400
                  (JsonError (lit "No content scraped from any website")))
         else
           let combinedContent := join LF2 allContent in
           let chunks := Chunker.chunkText combinedContent in
           if (length chunks =? 0)%nat then
             ret (mkResponse 400
                    (JsonError
                       (lit "No content chunks created from websites")))
           else
             embeddings <- generateEmbeddings (map Chunker.text chunks) ;;
             let newDocuments :=
               mapIndexed (buildDocument now urls embeddings) 0 chunks in
             clearCollection ;;;
             addDocuments newDocuments ;;;
             setInitialized true ;;;
             ret (mkResponse 200
                    (JsonInitialized
                       (lit "RAG system initialized successfully")
                       (len newDocuments) (len urls)))) st
      with
      | (Ok response, st') => (response, st')
      | (Throw error, st') =>
          (mkResponse 500
             (JsonError (lit "Failed to initialize RAG: " ++ message error)),
           st')
      end.

End Handlers.

(** An exception of the service, as the plain error that the server throws
    in its place: the message is the same. *)
Definition plain {A : Type} (r : result A) : result A :=
  match r with
  | Ok a => Ok a
  | Throw e => Throw (Error (message e))
  end.

End Server.

(* ================================================================== *)
(** ** Binary64 numbers

    JavaScript numbers are IEEE 754 binary64 values: Rocq's primitive floats,
    specified by [SpecFloat] through [Prim2SF].  These are the readings of a
    specified float that the proofs use. *)

Module Binary64.

(** The zeros of the format. *)
Definition isZero (x : spec_float) : bool :=
  match x with
  | S754_zero _ => true
  | _ => false
  end.

(** A number as an integer: its value scaled by 2^1074; the infinities lie
    beyond every number. *)
Definition scaled (x : spec_float) : Z :=
  match x with
  | S754_zero _ => 0
  | S754_infinity s => cond_Zopp s (2 ^ 2100)
  | S754_nan => 0
  | S754_finite s m e => cond_Zopp s (Z.pos m * 2 ^ (e + 1074))
  end.

Definition isNan (x : spec_float) : bool :=
  match x with
  | S754_nan => true
  | _ => false
  end.

Definition isPositive (x : spec_float) : bool :=
  match x with
  | S754_finite false _ _ | S754_infinity false => true
  | _ => false
  end.

End Binary64.

(* ################################################################## *)
(** * Part II: the proofs *)

(* ================================================================== *)
(** ** Strings and arrays *)

Module JSFacts.
Import JS.

(** *** Facts about [slice] *)

Lemma len_nonneg {A : Type} (s : list A) : 0 <= len s.
Proof. unfold len. lia. Qed.

Lemma len_slice {A : Type} (s : list A) (a b : Z) :
  0 <= a -> a <= b -> b <= len s -> len (slice s a b) = b - a.
Proof.
  intros Ha Hab Hb. unfold slice, clampIndex.
  assert (Ea : (a <? 0) = false) by (apply Z.ltb_ge; lia).
  assert (Eb : (b <? 0) = false) by (apply Z.ltb_ge; lia).
  rewrite Ea, Eb. unfold len in *.
  rewrite length_firstn, length_skipn. lia.
Qed.

Lemma slice_all {A : Type} (s : list A) : slice s 0 (len s) = s.
Proof.
  unfold slice, clampIndex.
  assert (E : (len s <? 0) = false) by (apply Z.ltb_ge; apply len_nonneg).
  rewrite E. cbn [Z.ltb Z.compare]. unfold len.
  replace (Z.to_nat (Z.min 0 (Z.of_nat (length s)))) with 0%nat by lia.
  cbn [skipn]. apply firstn_all2. lia.
Qed.

(** [l.slice(0, k)] for a non-negative [k] keeps the first [k] elements. *)
Lemma slice_firstn {A : Type} (l : list A) (k : Z) :
  0 <= k -> slice l 0 k = firstn (Z.to_nat k) l.
Proof.
  intros Hk. unfold slice, clampIndex.
  assert (E : (k <? 0) = false) by (apply Z.ltb_ge; lia). rewrite E.
  cbn [Z.ltb Z.compare]. pose proof (len_nonneg l).
  replace (Z.to_nat (Z.min 0 (len l))) with 0%nat by lia. cbn [skipn].
  unfold len in *. destruct (Z.le_gt_cases k (Z.of_nat (length l))).
  - f_equal. lia.
  - rewrite !firstn_all2 by lia. reflexivity.
Qed.

(** *** Equality of strings *)

Lemma startsWith_refl (s : str) : startsWith s s = true.
Proof.
  induction s as [|c s IH]; [reflexivity|].
  cbn [startsWith]. now rewrite N.eqb_refl.
Qed.

Lemma startsWith_same_length (s p : str) :
  length s = length p -> startsWith s p = true -> s = p.
Proof.
  revert p. induction s as [|c s IH]; intros [|d p] Hl H; try discriminate.
  - reflexivity.
  - cbn [startsWith] in H. apply andb_prop in H. destruct H as [Hc Hs].
    apply N.eqb_eq in Hc. subst d. f_equal. apply IH; [|exact Hs].
    now injection Hl.
Qed.

Lemma str_eqb_eq (a b : str) : str_eqb a b = true <-> a = b.
Proof.
  unfold str_eqb. split.
  - intros H. apply andb_prop in H. destruct H as [Hl Hs].
    apply Nat.eqb_eq in Hl. now apply startsWith_same_length.
  - intros <-. now rewrite Nat.eqb_refl, startsWith_refl.
Qed.

(** *** [trim] *)

Lemma trimStart_suffix (s : str) :
  exists pre, s = pre ++ trimStart s /\
              Forall (fun c => isWhiteSpace c = true) pre.
Proof.
  induction s as [|c r IH]; [exists []; split; [reflexivity|constructor]|].
  cbn [trimStart]. destruct (isWhiteSpace c) eqn:E.
  - destruct IH as (pre & Hp & Hw). exists (c :: pre). cbn [app].
    split; [congruence|]. now constructor.
  - exists []. split; [reflexivity|constructor].
Qed.

Lemma trimStart_head (s : str) :
  match trimStart s with
  | c :: _ => isWhiteSpace c = false
  | [] => True
  end.
Proof.
  induction s as [|c r IH]; [exact I|]. cbn [trimStart].
  destruct (isWhiteSpace c) eqn:E; [exact IH|exact E].
Qed.

Lemma trimStart_id (s : str) :
  match s with
  | c :: _ => isWhiteSpace c = false
  | [] => True
  end -> trimStart s = s.
Proof. destruct s as [|c r]; [reflexivity|]. cbn. now intros ->. Qed.

(** [trim] keeps a middle part of the string and drops white space only. *)
Lemma trim_infix (s : str) :
  exists pre post,
    s = pre ++ trim s ++ post /\
    Forall (fun c => isWhiteSpace c = true) pre /\
    Forall (fun c => isWhiteSpace c = true) post.
Proof.
  destruct (trimStart_suffix s) as (pre & Hp & Hw).
  destruct (trimStart_suffix (rev (trimStart s))) as (pre2 & Hp2 & Hw2).
  exists pre, (rev pre2). unfold trim. split; [|split].
  - rewrite <- rev_app_distr, <- Hp2, rev_involutive. exact Hp.
  - exact Hw.
  - apply Forall_rev. exact Hw2.
Qed.

(** The result of [trim] neither starts nor ends with white space. *)
Lemma trim_ends (s : str) :
  match trim s with
  | c :: _ => isWhiteSpace c = false
  | [] => True
  end /\
  match rev (trim s) with
  | c :: _ => isWhiteSpace c = false
  | [] => True
  end.
Proof.
  split.
  - pose proof (trimStart_head s) as Hh.
    destruct (trimStart_suffix (rev (trimStart s))) as (pre2 & Hp2 & _).
    assert (E : trimStart s = trim s ++ rev pre2).
    { unfold trim. rewrite <- rev_app_distr, <- Hp2. now rewrite rev_involutive. }
    destruct (trim s) as [|c r]; [exact I|]. rewrite E in Hh. exact Hh.
  - unfold trim. rewrite rev_involutive. apply trimStart_head.
Qed.

Lemma trim_id (s : str) :
  match s with
  | c :: _ => isWhiteSpace c = false
  | [] => True
  end ->
  match rev s with
  | c :: _ => isWhiteSpace c = false
  | [] => True
  end -> trim s = s.
Proof.
  intros Hh Hl. unfold trim. rewrite (trimStart_id s Hh).
  rewrite (trimStart_id (rev s) Hl). apply rev_involutive.
Qed.

Lemma trim_idempotent (s : str) : trim (trim s) = trim s.
Proof. destruct (trim_ends s). now apply trim_id. Qed.

End JSFacts.

(* ================================================================== *)
(** ** The chunker *)

Module ChunkerFacts.
Import JS JSFacts Chunker.

(** *** Facts about the two regular expressions *)

Lemma execSentenceFrom_cons (c : N) (r : str) (i : Z) :
  execSentenceFrom (c :: r) i =
  if isSentenceEnd c && (0 <? Z.of_nat (spanWhiteSpace r))
  then Some (i, 1 + Z.of_nat (spanWhiteSpace r))
  else execSentenceFrom r (i + 1).
Proof. reflexivity. Qed.

Lemma execParagraphFrom_cons (c d : N) (r : str) (i : Z) :
  execParagraphFrom (c :: d :: r) i =
  if ((c =? 10) && (d =? 10))%N then Some (i, 2)
  else execParagraphFrom (d :: r) (i + 1).
Proof. reflexivity. Qed.

Lemma execSentenceFrom_bounds (s : str) (i idx l : Z) :
  execSentenceFrom s i = Some (idx, l) ->
  i <= idx /\ 2 <= l /\ idx + l <= i + len s.
Proof.
  revert i. induction s as [|c r IH]; intros i H.
  - discriminate.
  - rewrite execSentenceFrom_cons in H.
    destruct (isSentenceEnd c && (0 <? Z.of_nat (spanWhiteSpace r))) eqn:E.
    + assert (idx = i /\ l = 1 + Z.of_nat (spanWhiteSpace r)) as [-> ->]
        by (split; congruence).
      apply andb_prop in E. destruct E as [_ E]. apply Z.ltb_lt in E.
      assert (Hs : (spanWhiteSpace r <= length r)%nat).
      { clear. induction r as [|d r IHr]; cbn; [lia|].
        destruct (isWhiteSpace d); lia. }
      unfold len. cbn [length]. lia.
    + apply IH in H. unfold len in *. cbn [length]. lia.
Qed.

Lemma execParagraphFrom_bounds (s : str) (i idx l : Z) :
  execParagraphFrom s i = Some (idx, l) ->
  i <= idx /\ 2 <= l /\ idx + l <= i + len s.
Proof.
  revert i. induction s as [|c r IH]; intros i H.
  - discriminate.
  - destruct r as [|d r']; [discriminate|].
    rewrite execParagraphFrom_cons in H.
    destruct ((c =? 10) && (d =? 10))%N.
    + assert (idx = i /\ l = 2) as [-> ->] by (split; congruence).
      unfold len. cbn [length]. lia.
    + apply IH in H. unfold len in *. cbn [length] in *. lia.
Qed.

(** The snapped end lies in the window: strictly after [start], never after
    the tentative end. *)
Lemma findSentenceBoundary_bounds (txt : str) (start e : Z) :
  0 <= start -> start < e -> e <= len txt ->
  start < findSentenceBoundary txt start e <= e.
Proof.
  intros H0 Hlt Hle. unfold findSentenceBoundary.
  set (ss := Z.max start (e - 200)).
  assert (Hss : start <= ss < e) by (unfold ss; lia).
  assert (Hl : len (slice txt ss e) = e - ss) by (apply len_slice; lia).
  destruct (execSentence (slice txt ss e)) as [[idx l]|] eqn:Es.
  - apply execSentenceFrom_bounds in Es. lia.
  - destruct (execParagraph (slice txt ss e)) as [[idx l]|] eqn:Ep.
    + apply execParagraphFrom_bounds in Ep. lia.
    + lia.
Qed.

(** *** The loop *)

(** The loop only appends to the array it is given. *)
Lemma chunkLoop_acc (size overlap : Z) (fuel : nat) (txt : str) :
  forall s i acc,
    chunkLoop size overlap fuel txt s i acc =
    option_map (app acc) (chunkLoop size overlap fuel txt s i []).
Proof.
  induction fuel as [|f IH]; intros s i acc; cbn [chunkLoop].
  - destruct (s <? len txt); cbn; [reflexivity|]. now rewrite app_nil_r.
  - destruct (s <? len txt); cbn; [|now rewrite app_nil_r].
    rewrite IH. rewrite (IH _ _ [_]).
    destruct (chunkLoop size overlap f txt _ _ []); cbn; [|reflexivity].
    now rewrite <- app_assoc.
Qed.

(** One unfolding of the loop, in terms of the chunk of the iteration. *)
Lemma chunkLoop_step (size overlap : Z) (fuel : nat) (txt : str) (s i : Z) :
  s < len txt ->
  chunkLoop size overlap (S fuel) txt s i [] =
  let e := findSentenceBoundary txt s (Z.min (s + size) (len txt)) in
  option_map (cons (mkChunk (slice txt s e) i s e))
    (chunkLoop size overlap fuel txt (nextStart size overlap e s) (i + 1) []).
Proof.
  intros H. cbn [chunkLoop]. apply Z.ltb_lt in H. rewrite H. cbn zeta.
  rewrite chunkLoop_acc. reflexivity.
Qed.

Lemma chunkLoop_done (size overlap : Z) (fuel : nat) (txt : str) (s i : Z)
  (acc : list TextChunk) :
  len txt <= s -> chunkLoop size overlap fuel txt s i acc = Some acc.
Proof.
  intros H. apply Z.ltb_ge in H. destruct fuel; cbn [chunkLoop]; now rewrite H.
Qed.

(** Since the snapped end never exceeds [startChar + size], the advance is
    always [startChar + size]. *)
Lemma nextStart_floor (size overlap : Z) (txt : str) (s : Z) :
  0 < size -> 0 <= overlap -> 0 <= s -> s < len txt ->
  nextStart size overlap
    (findSentenceBoundary txt s (Z.min (s + size) (len txt))) s = s + size.
Proof.
  intros Hsz Hov H0 Hlt. unfold nextStart.
  pose proof (findSentenceBoundary_bounds txt s (Z.min (s + size) (len txt))).
  lia.
Qed.

(** Enough fuel: the loop needs at most one iteration per [size] characters
    left. *)
Lemma chunkLoop_enough_fuel (size overlap : Z) (txt : str) :
  0 < size -> 0 <= overlap ->
  forall fuel s i,
    0 <= s -> len txt - s <= size * Z.of_nat fuel ->
    exists chunks, chunkLoop size overlap fuel txt s i [] = Some chunks.
Proof.
  intros Hsz Hov. induction fuel as [|f IH]; intros s i H0 Hf.
  - exists []. apply chunkLoop_done. lia.
  - destruct (Z.lt_ge_cases s (len txt)) as [Hlt|Hge].
    + rewrite chunkLoop_step by assumption. cbn zeta.
      rewrite nextStart_floor by assumption.
      destruct (IH (s + size) (i + 1)) as [cs Hcs]; [lia|lia|].
      rewrite Hcs. cbn. eauto.
    + eexists. apply chunkLoop_done. lia.
Qed.

(** More fuel does not change a result. *)
Lemma chunkLoop_more_fuel (size overlap : Z) (txt : str) (extra : nat) :
  forall fuel s i acc chunks,
    chunkLoop size overlap fuel txt s i acc = Some chunks ->
    chunkLoop size overlap (fuel + extra) txt s i acc = Some chunks.
Proof.
  induction fuel as [|f IH]; intros s i acc chunks H.
  - cbn [chunkLoop] in H. destruct (s <? len txt) eqn:E; [discriminate|].
    injection H as <-. apply chunkLoop_done. now apply Z.ltb_ge.
  - cbn [chunkLoop Nat.add] in *. destruct (s <? len txt); [|assumption].
    now apply IH.
Qed.

(** What the loop produces, chunk by chunk. *)
Lemma chunkLoop_nth (size overlap : Z) (txt : str) :
  0 < size -> 0 <= overlap ->
  forall fuel s i chunks,
    0 <= s ->
    chunkLoop size overlap fuel txt s i [] = Some chunks ->
    forall j c, nth_error chunks j = Some c ->
      startChar c = s + size * Z.of_nat j /\
      index c = i + Z.of_nat j /\
      startChar c < len txt /\
      endChar c =
        findSentenceBoundary txt (startChar c)
          (Z.min (startChar c + size) (len txt)) /\
      text c = slice txt (startChar c) (endChar c).
Proof.
  intros Hsz Hov. induction fuel as [|f IH]; intros s i chunks H0 H j c Hj.
  - cbn [chunkLoop] in H. destruct (s <? len txt); [discriminate|].
    injection H as <-. now destruct j.
  - destruct (Z.lt_ge_cases s (len txt)) as [Hlt|Hge].
    + rewrite chunkLoop_step in H by assumption. cbn zeta in H.
      rewrite nextStart_floor in H by assumption.
      destruct (chunkLoop size overlap f txt (s + size) (i + 1) [])
        as [cs|] eqn:E; [|discriminate].
      injection H as <-. destruct j as [|j].
      * injection Hj as <-. cbn. repeat split; try lia.
      * cbn [nth_error] in Hj.
        destruct (IH (s + size) (i + 1) cs ltac:(lia) E j c Hj)
          as (A & B & C & D & D').
        repeat split; try assumption; lia.
    + rewrite chunkLoop_done in H by lia. injection H as <-. now destruct j.
Qed.

(** The number of chunks: one per started block of [size] characters. *)
Lemma chunkLoop_length (size overlap : Z) (txt : str) :
  0 < size -> 0 <= overlap ->
  forall fuel s i chunks,
    0 <= s -> s <= len txt ->
    chunkLoop size overlap fuel txt s i [] = Some chunks ->
    len chunks = (len txt - s + size - 1) / size.
Proof.
  intros Hsz Hov. induction fuel as [|f IH]; intros s i chunks H0 Hs H.
  - cbn [chunkLoop] in H. destruct (s <? len txt) eqn:E; [discriminate|].
    injection H as <-. apply Z.ltb_ge in E.
    replace (len txt - s + size - 1) with (size - 1) by lia.
    rewrite Z.div_small by lia. reflexivity.
  - destruct (Z.lt_ge_cases s (len txt)) as [Hlt|Hge].
    + rewrite chunkLoop_step in H by assumption. cbn zeta in H.
      rewrite nextStart_floor in H by assumption.
      destruct (chunkLoop size overlap f txt (s + size) (i + 1) [])
        as [cs|] eqn:E; [|discriminate].
      injection H as <-.
      destruct (Z.le_gt_cases (s + size) (len txt)) as [Hin|Hout].
      * apply IH in E; [|lia|lia]. unfold len in *. cbn [length].
        replace (Z.of_nat (length txt) - s + size - 1)
          with (Z.of_nat (length txt) - (s + size) + size - 1 + 1 * size)
          by lia.
        rewrite Z.div_add by lia. lia.
      * destruct f as [|f'].
        -- cbn [chunkLoop] in E.
           destruct (s + size <? len txt) eqn:E'; [apply Z.ltb_lt in E'; lia|].
           injection E as <-. cbn.
           replace (len txt - s + size - 1)
             with (len txt - s - 1 + 1 * size) by lia.
           rewrite Z.div_add by lia. rewrite Z.div_small by lia. reflexivity.
        -- rewrite chunkLoop_done in E by lia. injection E as <-. cbn.
           replace (len txt - s + size - 1)
             with (len txt - s - 1 + 1 * size) by lia.
           rewrite Z.div_add by lia. rewrite Z.div_small by lia. reflexivity.
    + rewrite chunkLoop_done in H by lia. injection H as <-.
      replace (len txt - s + size - 1) with (size - 1) by lia.
      rewrite Z.div_small by lia. reflexivity.
Qed.

(** [chunkTextWith] is the result of the loop: the fuel it passes is enough. *)
Lemma chunkTextWith_runs (size overlap : Z) (txt : str) :
  0 < size -> 0 <= overlap ->
  chunkLoop size overlap (length txt) txt 0 0 [] =
  Some (chunkTextWith size overlap txt).
Proof.
  intros Hsz Hov. unfold chunkTextWith.
  destruct (chunkLoop_enough_fuel size overlap txt Hsz Hov (length txt) 0 0)
    as [cs Hcs]; [lia|unfold len; nia|].
  now rewrite Hcs.
Qed.

(** The overlap field never reaches the output. *)
Lemma chunkLoop_overlap_irrelevant (size ov ov' : Z) (txt : str) :
  0 < size -> 0 <= ov -> 0 <= ov' ->
  forall fuel s i acc,
    0 <= s ->
    chunkLoop size ov fuel txt s i acc = chunkLoop size ov' fuel txt s i acc.
Proof.
  intros Hsz Hov Hov'. induction fuel as [|f IH]; intros s i acc H0.
  - reflexivity.
  - cbn [chunkLoop]. destruct (s <? len txt) eqn:E; [|reflexivity].
    apply Z.ltb_lt in E. cbn zeta.
    rewrite !nextStart_floor by assumption. apply IH. lia.
Qed.

Lemma chunkLoop_deterministic (size overlap : Z) (txt : str)
  (f1 f2 : nat) (s i : Z) (acc a b : list TextChunk) :
  chunkLoop size overlap f1 txt s i acc = Some a ->
  chunkLoop size overlap f2 txt s i acc = Some b -> a = b.
Proof.
  intros Ha Hb.
  apply (chunkLoop_more_fuel _ _ _ f2) in Ha.
  apply (chunkLoop_more_fuel _ _ _ f1) in Hb.
  rewrite Nat.add_comm in Hb. congruence.
Qed.

Lemma ceil_div_bound (n : Z) : 0 <= n -> n <= 1000 * ((n + 999) / 1000).
Proof.
  intros H. pose proof (Z.div_mod (n + 999) 1000 ltac:(lia)).
  pose proof (Z.mod_pos_bound (n + 999) 1000 ltac:(lia)). lia.
Qed.

(** *** The claims about the chunker *)

(** C6 (chunker termination).  Every iteration moves [startChar] forward by
    at least [chunkSize], whatever [findSentenceBoundary] answered; the loop
    therefore leaves after exactly ceil(len / 1000) iterations: with that
    much fuel (or more) it returns the chunks of [chunkText]. *)
Theorem chunkText_terminates (txt : str) (extra : nat) :
  (forall adjustedEnd startChar : Z,
      startChar + chunkSize <=
      nextStart chunkSize chunkOverlap adjustedEnd startChar) /\
  chunkLoop chunkSize chunkOverlap
    (Z.to_nat ((len txt + 999) / 1000) + extra) txt 0 0 [] =
    Some (chunkText txt) /\
  len (chunkText txt) = (len txt + 999) / 1000.
Proof.
  assert (Hsz : 0 < chunkSize) by reflexivity.
  assert (Hov : 0 <= chunkOverlap) by (unfold chunkOverlap; lia).
  pose proof (len_nonneg txt) as Hl.
  pose proof (chunkTextWith_runs chunkSize chunkOverlap txt Hsz Hov) as Hrun.
  fold (chunkText txt) in Hrun.
  split; [intros; unfold nextStart; lia|]. split.
  - apply chunkLoop_more_fuel.
    destruct (chunkLoop_enough_fuel chunkSize chunkOverlap txt Hsz Hov
                (Z.to_nat ((len txt + 999) / 1000)) 0 0) as [cs Hcs].
    + lia.
    + pose proof (ceil_div_bound (len txt) Hl).
      assert (0 <= (len txt + 999) / 1000) by (apply Z.div_pos; lia).
      unfold chunkSize. lia.
    + rewrite Hcs. f_equal. eapply chunkLoop_deterministic; eassumption.
  - rewrite (chunkLoop_length chunkSize chunkOverlap txt Hsz Hov _ _ _ _
               (Z.le_refl 0) Hl Hrun).
    unfold chunkSize. f_equal. lia.
Qed.

(** C10 (chunks never overlap).  The i-th chunk starts at [i * 1000]; its end
    is at most [startChar + chunkSize], so the advance is always
    [startChar + 1000], the next chunk starts where this one ends or later,
    and any non-negative overlap gives the same chunks. *)
Theorem chunks_never_overlap (txt : str) (i : nat) (c : TextChunk) :
  nth_error (chunkText txt) i = Some c ->
  startChar c = Z.of_nat i * 1000 /\
  endChar c <= startChar c + chunkSize /\
  nextStart chunkSize chunkOverlap (endChar c) (startChar c) =
    startChar c + 1000 /\
  (forall c', nth_error (chunkText txt) (S i) = Some c' ->
              endChar c <= startChar c') /\
  (forall overlap, 0 <= overlap ->
                   chunkTextWith chunkSize overlap txt = chunkText txt).
Proof.
  intros Hc.
  assert (Hsz : 0 < chunkSize) by reflexivity.
  assert (Hov : 0 <= chunkOverlap) by (unfold chunkOverlap; lia).
  pose proof (chunkTextWith_runs chunkSize chunkOverlap txt Hsz Hov) as Hrun.
  fold (chunkText txt) in Hrun.
  pose proof (chunkLoop_nth chunkSize chunkOverlap txt Hsz Hov _ _ _ _
                (Z.le_refl 0) Hrun) as Hnth.
  destruct (Hnth i c Hc) as (Hs & _ & Hlt & He & _).
  assert (H0 : 0 <= startChar c) by (unfold chunkSize in Hs; lia).
  pose proof (findSentenceBoundary_bounds txt (startChar c)
                (Z.min (startChar c + chunkSize) (len txt))
                H0 ltac:(lia) ltac:(lia)) as Hb.
  rewrite <- He in Hb.
  assert (Hend : endChar c <= startChar c + chunkSize) by lia.
  split; [unfold chunkSize in Hs; lia|]. split; [exact Hend|].
  split; [unfold nextStart, chunkSize, chunkOverlap in *; lia|]. split.
  - intros c' Hc'. destruct (Hnth (S i) c' Hc') as (Hs' & _).
    unfold chunkSize in *. lia.
  - intros overlap Hov'. unfold chunkText, chunkTextWith.
    now rewrite (chunkLoop_overlap_irrelevant chunkSize overlap chunkOverlap
                   txt Hsz Hov' Hov).
Qed.

(** C10, at a text of 1001 characters: its second chunk is the single last
    character. *)
Lemma chunks_never_overlap_witness :
  nth_error (chunkText (repeat 97%N 1001)) 1 = Some (mkChunk [97%N] 1 1000 1001)
  /\ startChar (mkChunk [97%N] 1 1000 1001) = Z.of_nat 1 * 1000.
Proof.
  split; [vm_compute; reflexivity|].
  apply (chunks_never_overlap (repeat 97%N 1001) 1 (mkChunk [97%N] 1 1000 1001)).
  vm_compute; reflexivity.
Defined.

(** The part of the coverage property that the loop does establish: chunk
    [i] carries index [i], is a non-empty span inside the text, and holds
    exactly the characters of its span. *)
Lemma chunkText_spans (txt : str) (i : nat) (c : TextChunk) :
  nth_error (chunkText txt) i = Some c ->
  index c = Z.of_nat i /\
  0 <= startChar c /\ startChar c < endChar c /\ endChar c <= len txt /\
  text c = slice txt (startChar c) (endChar c).
Proof.
  intros Hc.
  assert (Hsz : 0 < chunkSize) by reflexivity.
  assert (Hov : 0 <= chunkOverlap) by (unfold chunkOverlap; lia).
  pose proof (chunkTextWith_runs chunkSize chunkOverlap txt Hsz Hov) as Hrun.
  fold (chunkText txt) in Hrun.
  destruct (chunkLoop_nth chunkSize chunkOverlap txt Hsz Hov _ _ _ _
              (Z.le_refl 0) Hrun i c Hc) as (Hs & Hi & Hlt & He & Ht).
  assert (H0 : 0 <= startChar c) by (unfold chunkSize in Hs; lia).
  pose proof (findSentenceBoundary_bounds txt (startChar c)
                (Z.min (startChar c + chunkSize) (len txt))
                H0 ltac:(lia) ltac:(lia)) as Hb.
  rewrite <- He in Hb. repeat split; try assumption; lia.
Qed.

(** [exec] returns the leftmost match: no match starts before it. *)
Lemma execSentenceFrom_leftmost (s : str) :
  forall i idx l,
    execSentenceFrom s i = Some (idx, l) ->
    exists j : nat,
      idx = i + Z.of_nat j /\ sentenceMatchAt s j = Some l /\
      forall k, (k < j)%nat -> sentenceMatchAt s k = None.
Proof.
  induction s as [|c r IH]; intros i idx l H; [discriminate|].
  rewrite execSentenceFrom_cons in H.
  destruct (isSentenceEnd c && (0 <? Z.of_nat (spanWhiteSpace r))) eqn:E.
  - assert (idx = i /\ l = 1 + Z.of_nat (spanWhiteSpace r)) as [-> ->]
      by (split; congruence).
    exists 0%nat. repeat split; [lia| |lia].
    unfold sentenceMatchAt. cbn [skipn]. now rewrite E.
  - destruct (IH _ _ _ H) as (j & Hj & Hm & Hk).
    exists (S j). repeat split; [lia|exact Hm|].
    intros [|k] Hlt.
    + unfold sentenceMatchAt. cbn [skipn]. now rewrite E.
    + apply (Hk k). lia.
Qed.

(** What [findSentenceBoundary] does when the window holds a sentence
    boundary: it returns the end of the first one. *)
Lemma findSentenceBoundary_first (txt : str) (start e idx l : Z) :
  execSentence (slice txt (Z.max start (e - 200)) e) = Some (idx, l) ->
  findSentenceBoundary txt start e = Z.max start (e - 200) + idx + l /\
  exists j : nat,
    idx = Z.of_nat j /\
    sentenceMatchAt (slice txt (Z.max start (e - 200)) e) j = Some l /\
    forall k, (k < j)%nat ->
              sentenceMatchAt (slice txt (Z.max start (e - 200)) e) k = None.
Proof.
  intros H. split.
  - unfold findSentenceBoundary. now rewrite H.
  - destruct (execSentenceFrom_leftmost _ _ _ _ H) as (j & Hj & Hm & Hk).
    exists j. repeat split; [lia|exact Hm|exact Hk].
Qed.

(** Without a sentence boundary in the window, the end of its first
    paragraph break is returned, and the tentative end when it has none. *)
Lemma findSentenceBoundary_fallback (txt : str) (start e : Z) :
  execSentence (slice txt (Z.max start (e - 200)) e) = None ->
  findSentenceBoundary txt start e =
  match execParagraph (slice txt (Z.max start (e - 200)) e) with
  | Some (idx, l) => Z.max start (e - 200) + idx + l
  | None => e
  end.
Proof. intros H. unfold findSentenceBoundary. now rewrite H. Qed.

(** C5 (boundary snapping), at the window ["A. B. C"].  Two sentence
    boundaries lie in the window, ending at offsets 3 and 6; the tentative end
    is 7, so the nearest one ends at 6, and [findSentenceBoundary] answers 3:
    [exec] returns the first match, not the last. *)
Theorem findSentenceBoundary_takes_first_match :
  findSentenceBoundary (lit "A. B. C") 0 7 = 3 /\
  sentenceMatchAt (slice (lit "A. B. C") 0 7) 1 = Some 2 /\
  sentenceMatchAt (slice (lit "A. B. C") 0 7) 4 = Some 2.
Proof. vm_compute. repeat split; reflexivity. Qed.

(** C1 (chunker coverage), at the text ["A. B"] and at a text of 1200
    characters with one sentence boundary at offset 900.  The only chunk of
    ["A. B"] is [0, 3): the last chunk does not end at [len text = 4] and
    offset 3 lies in no chunk.  In the long text the chunks are [0, 902) and
    [1000, 1200): offsets 902..999 lie in no chunk. *)
Theorem chunkText_leaves_gaps :
  chunkText (lit "A. B") = [mkChunk (lit "A. ") 0 0 3] /\
  len (lit "A. B") = 4 /\
  (forall c, In c (chunkText (lit "A. B")) ->
             ~ (startChar c <= 3 < endChar c)) /\
  map (fun c => (startChar c, endChar c))
    (chunkText (repeat 97%N 900 ++ lit ". " ++ repeat 98%N 298)) =
    [(0, 902); (1000, 1200)].
Proof.
  split; [vm_compute; reflexivity|]. split; [reflexivity|]. split.
  - intros c Hc.
    replace (chunkText (lit "A. B")) with [mkChunk (lit "A. ") 0 0 3] in Hc
      by (vm_compute; reflexivity).
    destruct Hc as [<-|[]]. cbn. lia.
  - vm_compute. reflexivity.
Qed.

(** C4 (short text).  A non-empty text shorter than [chunkSize] gives exactly
    one chunk, which starts at 0 and ends at the snapped end of the window
    [0, len text); the empty text gives no chunk.  The snapped end need not be
    [len text]: for ["A. B"] it is 3. *)
Theorem chunkText_short_text :
  (forall txt : str,
      0 < len txt -> len txt < chunkSize ->
      chunkText txt =
      [mkChunk (slice txt 0 (findSentenceBoundary txt 0 (len txt))) 0 0
               (findSentenceBoundary txt 0 (len txt))]) /\
  chunkText [] = [] /\
  map endChar (chunkText (lit "A. B")) = [3] /\ len (lit "A. B") = 4.
Proof.
  split; [|repeat split; vm_compute; reflexivity].
  intros txt Hpos Hlt. unfold chunkText, chunkTextWith.
  destruct (length txt) as [|f] eqn:El; [unfold len in Hpos; lia|].
  rewrite chunkLoop_step by assumption. cbn zeta.
  replace (Z.min (0 + chunkSize) (len txt)) with (len txt) by lia.
  rewrite chunkLoop_done; [reflexivity|].
  unfold nextStart. lia.
Qed.

(** *** More about the chunks *)

(** The snapped end lies in the search window: after its start, which is at
    most 200 characters before the tentative end. *)
Lemma findSentenceBoundary_window (txt : str) (start e : Z) :
  0 <= start -> start < e -> e <= len txt ->
  Z.max start (e - 200) < findSentenceBoundary txt start e <= e.
Proof.
  intros H0 Hlt Hle. unfold findSentenceBoundary.
  set (ss := Z.max start (e - 200)).
  assert (Hss : start <= ss < e) by (unfold ss; lia).
  assert (Hl : len (slice txt ss e) = e - ss) by (apply len_slice; lia).
  destruct (execSentence (slice txt ss e)) as [[idx l]|] eqn:Es.
  - apply execSentenceFrom_bounds in Es. lia.
  - destruct (execParagraph (slice txt ss e)) as [[idx l]|] eqn:Ep.
    + apply execParagraphFrom_bounds in Ep. lia.
    + lia.
Qed.

Lemma spanWhiteSpace_firstn (k : nat) (s : str) :
  (spanWhiteSpace (firstn k s) <= spanWhiteSpace s)%nat.
Proof.
  revert k. induction s as [|c r IH]; intros [|k]; cbn; try lia.
  destruct (isWhiteSpace c); [specialize (IH k)|]; lia.
Qed.

Lemma execSentenceFrom_skipn (k : nat) :
  forall s i i', execSentenceFrom s i = None ->
                 execSentenceFrom (skipn k s) i' = None.
Proof.
  induction k as [|k IH]; intros s i i' H.
  - cbn [skipn]. revert i i' H.
    induction s as [|c r IHs]; intros i i' H; [reflexivity|].
    rewrite execSentenceFrom_cons in *.
    destruct (isSentenceEnd c && (0 <? Z.of_nat (spanWhiteSpace r)));
      [discriminate|]. eapply IHs; eassumption.
  - destruct s as [|c r]; [reflexivity|]. cbn [skipn].
    rewrite execSentenceFrom_cons in H.
    destruct (isSentenceEnd c && (0 <? Z.of_nat (spanWhiteSpace r)));
      [discriminate|]. eapply IH; eassumption.
Qed.

Lemma execSentenceFrom_firstn (s : str) :
  forall k i i', execSentenceFrom s i = None ->
                 execSentenceFrom (firstn k s) i' = None.
Proof.
  induction s as [|c r IH]; intros [|k] i i' H; try reflexivity.
  cbn [firstn]. rewrite execSentenceFrom_cons in *.
  destruct (isSentenceEnd c) eqn:Ec; cbn [andb] in *.
  - destruct (0 <? Z.of_nat (spanWhiteSpace r)) eqn:E; [discriminate|].
    apply Z.ltb_ge in E. pose proof (spanWhiteSpace_firstn k r).
    replace (0 <? Z.of_nat (spanWhiteSpace (firstn k r))) with false
      by (symmetry; apply Z.ltb_ge; lia).
    eapply IH; eassumption.
  - eapply IH; eassumption.
Qed.

Lemma execParagraphFrom_skipn (k : nat) :
  forall s i i', execParagraphFrom s i = None ->
                 execParagraphFrom (skipn k s) i' = None.
Proof.
  induction k as [|k IH]; intros s i i' H.
  - cbn [skipn]. revert i i' H.
    induction s as [|c r IHs]; intros i i' H; [reflexivity|].
    destruct r as [|d r']; [reflexivity|].
    rewrite execParagraphFrom_cons in *.
    destruct ((c =? 10) && (d =? 10))%N; [discriminate|].
    eapply IHs; eassumption.
  - destruct s as [|c r]; [reflexivity|]. cbn [skipn].
    destruct r as [|d r']; [now destruct k|].
    rewrite execParagraphFrom_cons in H.
    destruct ((c =? 10) && (d =? 10))%N; [discriminate|].
    eapply IH; eassumption.
Qed.

Lemma execParagraphFrom_firstn (s : str) :
  forall k i i', execParagraphFrom s i = None ->
                 execParagraphFrom (firstn k s) i' = None.
Proof.
  induction s as [|c r IH]; intros [|k] i i' H; try reflexivity.
  cbn [firstn]. destruct r as [|d r']; [now destruct k|].
  destruct k as [|k]; [reflexivity|]. cbn [firstn].
  rewrite execParagraphFrom_cons in *.
  destruct ((c =? 10) && (d =? 10))%N; [discriminate|].
  apply (IH (S k) _ _ H).
Qed.

(** A text without a boundary has none in any of its windows. *)
Lemma findSentenceBoundary_none (txt : str) (start e : Z) :
  execSentence txt = None -> execParagraph txt = None ->
  findSentenceBoundary txt start e = e.
Proof.
  intros Hs Hp. unfold findSentenceBoundary, slice, execSentence, execParagraph.
  rewrite (execSentenceFrom_firstn _ _ 0 0
             (execSentenceFrom_skipn _ _ 0 0 Hs)).
  now rewrite (execParagraphFrom_firstn _ _ 0 0
                 (execParagraphFrom_skipn _ _ 0 0 Hp)).
Qed.

Lemma slice_from (txt : str) (s e : Z) :
  0 <= s -> s <= e -> e <= len txt ->
  slice txt s e ++ skipn (Z.to_nat e) txt = skipn (Z.to_nat s) txt.
Proof.
  intros H0 Hse He. unfold slice, clampIndex.
  assert (Ea : (s <? 0) = false) by (apply Z.ltb_ge; lia).
  assert (Eb : (e <? 0) = false) by (apply Z.ltb_ge; lia).
  rewrite Ea, Eb.
  replace (Z.min s (len txt)) with s by lia.
  replace (Z.min e (len txt)) with e by lia.
  replace (Z.to_nat e) with (Z.to_nat (e - s) + Z.to_nat s)%nat by lia.
  rewrite <- skipn_skipn. apply firstn_skipn.
Qed.

(** The texts of the chunks of a loop without boundaries, put end to end,
    are the text from the start offset on. *)
Lemma chunkLoop_concat (txt : str) :
  execSentence txt = None -> execParagraph txt = None ->
  forall fuel s i chunks,
    0 <= s ->
    chunkLoop chunkSize chunkOverlap fuel txt s i [] = Some chunks ->
    concat (map text chunks) = skipn (Z.to_nat s) txt.
Proof.
  intros Hs Hp. induction fuel as [|f IH]; intros s i chunks H0 H.
  - cbn [chunkLoop] in H. destruct (s <? len txt) eqn:E; [discriminate|].
    injection H as <-. apply Z.ltb_ge in E. cbn.
    symmetry. apply skipn_all2. unfold len in E. lia.
  - destruct (Z.lt_ge_cases s (len txt)) as [Hlt|Hge].
    + rewrite chunkLoop_step in H by assumption. cbn zeta in H.
      rewrite nextStart_floor in H
        by (try assumption; unfold chunkSize, chunkOverlap; lia).
      rewrite findSentenceBoundary_none in H by assumption.
      destruct (chunkLoop chunkSize chunkOverlap f txt (s + chunkSize) (i + 1) [])
        as [cs|] eqn:E; [|discriminate].
      injection H as <-. cbn [map concat text].
      apply IH in E; [|unfold chunkSize; lia]. rewrite E.
      destruct (Z.le_gt_cases (s + chunkSize) (len txt)) as [Hin|Hout].
      * replace (Z.min (s + chunkSize) (len txt)) with (s + chunkSize) by lia.
        apply slice_from; unfold chunkSize in *; lia.
      * replace (Z.min (s + chunkSize) (len txt)) with (len txt) by lia.
        pose proof (slice_from txt s (len txt) H0 ltac:(lia) ltac:(lia)) as Hsl.
        rewrite <- Hsl. f_equal.
        rewrite !skipn_all2; [reflexivity|unfold len; lia|unfold len in Hout; lia].
    + rewrite chunkLoop_done in H by lia. injection H as <-. cbn.
      symmetry. apply skipn_all2. unfold len in Hge. lia.
Qed.

Lemma chunkText_runs (txt : str) :
  chunkLoop chunkSize chunkOverlap (length txt) txt 0 0 [] =
  Some (chunkText txt).
Proof.
  apply chunkTextWith_runs; [reflexivity|unfold chunkOverlap; lia].
Qed.

Lemma chunkText_nth (txt : str) (i : nat) (c : TextChunk) :
  nth_error (chunkText txt) i = Some c ->
  startChar c = 1000 * Z.of_nat i /\
  index c = Z.of_nat i /\
  startChar c < len txt /\
  endChar c =
    findSentenceBoundary txt (startChar c)
      (Z.min (startChar c + 1000) (len txt)) /\
  text c = slice txt (startChar c) (endChar c).
Proof.
  intros Hc.
  destruct (chunkLoop_nth chunkSize chunkOverlap txt ltac:(reflexivity)
              ltac:(unfold chunkOverlap; lia) _ _ _ _
              (Z.le_refl 0) (chunkText_runs txt) i c Hc) as (A & B & C & D & E).
  unfold chunkSize in *. repeat split; try assumption; lia.
Qed.

Lemma chunkText_count (txt : str) :
  len (chunkText txt) = (len txt + 999) / 1000.
Proof.
  rewrite (chunkLoop_length chunkSize chunkOverlap txt ltac:(reflexivity)
             ltac:(unfold chunkOverlap; lia) _ _ _ _
             (Z.le_refl 0) (len_nonneg txt) (chunkText_runs txt)).
  unfold chunkSize. f_equal. lia.
Qed.

(** X1: every chunk is a non-empty span of at most 1000 characters inside the
    text and carries exactly the characters of its span. *)
Theorem chunk_is_span_of_text (txt : str) (i : nat) (c : TextChunk) :
  nth_error (chunkText txt) i = Some c ->
  index c = Z.of_nat i /\
  0 <= startChar c < endChar c /\
  endChar c <= len txt /\
  text c = slice txt (startChar c) (endChar c) /\
  len (text c) = endChar c - startChar c /\
  1 <= len (text c) <= chunkSize.
Proof.
  intros Hc. destruct (chunkText_nth txt i c Hc) as (Hs & Hi & Hlt & He & Ht).
  assert (H0 : 0 <= startChar c) by lia.
  pose proof (findSentenceBoundary_bounds txt (startChar c)
                (Z.min (startChar c + 1000) (len txt))
                H0 ltac:(lia) ltac:(lia)) as Hb.
  rewrite <- He in Hb.
  assert (Hl : len (text c) = endChar c - startChar c)
    by (rewrite Ht; apply len_slice; lia).
  unfold chunkSize. repeat split; try assumption; lia.
Qed.

Lemma chunk_is_span_of_text_witness :
  nth_error (chunkText (lit "One. Two")) 0 = Some (mkChunk (lit "One. ") 0 0 5)
  /\ len (text (mkChunk (lit "One. ") 0 0 5)) = 5 - 0.
Proof.
  split; [vm_compute; reflexivity|].
  apply (chunk_is_span_of_text (lit "One. Two") 0 (mkChunk (lit "One. ") 0 0 5)).
  vm_compute; reflexivity.
Defined.

(** X2: what a chunk leaves out is short.  The snapped end is less than 200
    characters before the end of the 1000-character window, so fewer than
    200 characters lie between a chunk and the next one, or between the last
    chunk and the end of the text. *)
Theorem chunk_gap_below_200 (txt : str) (i : nat) (c : TextChunk) :
  nth_error (chunkText txt) i = Some c ->
  Z.min (startChar c + chunkSize) (len txt) - endChar c < 200 /\
  (forall c', nth_error (chunkText txt) (S i) = Some c' ->
              0 <= startChar c' - endChar c < 200) /\
  (nth_error (chunkText txt) (S i) = None ->
   0 <= len txt - endChar c < 200).
Proof.
  intros Hc. destruct (chunkText_nth txt i c Hc) as (Hs & Hi & Hlt & He & Ht).
  assert (H0 : 0 <= startChar c) by lia.
  pose proof (findSentenceBoundary_window txt (startChar c)
                (Z.min (startChar c + 1000) (len txt))
                H0 ltac:(lia) ltac:(lia)) as Hb.
  rewrite <- He in Hb. unfold chunkSize.
  split; [lia|]. split.
  - intros c' Hc'. destruct (chunkText_nth txt (S i) c' Hc') as (Hs' & _ & Hlt' & _).
    lia.
  - intros Hn. apply nth_error_None in Hn.
    pose proof (chunkText_count txt) as Hcount. unfold len in Hcount at 1.
    assert (Hi' : (i < length (chunkText txt))%nat)
      by (apply nth_error_Some; congruence).
    assert (Hlen : (len txt + 999) / 1000 = Z.of_nat (S i)) by lia.
    pose proof (ceil_div_bound (len txt) (len_nonneg txt)). lia.
Qed.

Lemma chunk_gap_below_200_witness :
  nth_error (chunkText (lit "One. Two")) 0 = Some (mkChunk (lit "One. ") 0 0 5)
  /\ 0 <= len (lit "One. Two") - 5 < 200.
Proof.
  split; [vm_compute; reflexivity|].
  apply (chunk_gap_below_200 (lit "One. Two") 0 (mkChunk (lit "One. ") 0 0 5));
    vm_compute; reflexivity.
Defined.

(** X3: a text without sentence boundary and without blank line is cut into
    consecutive blocks of 1000 characters: every chunk ends where its window
    ends, and the chunk texts put end to end give the text back. *)
Theorem chunkText_tiles_plain_text (txt : str) :
  execSentence txt = None -> execParagraph txt = None ->
  concat (map text (chunkText txt)) = txt /\
  forall i c, nth_error (chunkText txt) i = Some c ->
    startChar c = 1000 * Z.of_nat i /\
    endChar c = Z.min (startChar c + chunkSize) (len txt).
Proof.
  intros Hs Hp. split.
  - now rewrite (chunkLoop_concat txt Hs Hp _ _ _ _ (Z.le_refl 0)
                   (chunkText_runs txt)).
  - intros i c Hc. destruct (chunkText_nth txt i c Hc) as (A & _ & _ & D & _).
    split; [exact A|]. rewrite D at 1.
    now apply findSentenceBoundary_none.
Qed.

Lemma chunkText_tiles_plain_text_witness :
  concat (map text (chunkText (repeat 97%N 1500))) = repeat 97%N 1500 /\
  map (fun c => (startChar c, endChar c)) (chunkText (repeat 97%N 1500)) =
  [(0, 1000); (1000, 1500)].
Proof.
  split; [|vm_compute; reflexivity].
  apply (chunkText_tiles_plain_text (repeat 97%N 1500)); vm_compute; reflexivity.
Defined.

Lemma execParagraphFrom_leftmost (s : str) :
  forall i idx l,
    execParagraphFrom s i = Some (idx, l) ->
    exists j : nat,
      idx = i + Z.of_nat j /\ l = 2 /\ paragraphMatchAt s j = true /\
      forall k, (k < j)%nat -> paragraphMatchAt s k = false.
Proof.
  induction s as [|c r IH]; intros i idx l H; [discriminate|].
  destruct r as [|d r']; [discriminate|].
  rewrite execParagraphFrom_cons in H.
  destruct ((c =? 10) && (d =? 10))%N eqn:E.
  - assert (idx = i /\ l = 2) as [-> ->] by (split; congruence).
    exists 0%nat. repeat split; [lia| |lia].
    unfold paragraphMatchAt. cbn [skipn]. exact E.
  - destruct (IH _ _ _ H) as (j & Hj & Hl & Hm & Hk).
    exists (S j). repeat split; [lia|exact Hl|exact Hm|].
    intros [|k] Hlt.
    + unfold paragraphMatchAt. cbn [skipn]. exact E.
    + apply (Hk k). lia.
Qed.

Lemma execSentenceFrom_None (s : str) :
  forall i, execSentenceFrom s i = None ->
            forall j, sentenceMatchAt s j = None.
Proof.
  induction s as [|c r IH]; intros i H j.
  - unfold sentenceMatchAt. now destruct j.
  - rewrite execSentenceFrom_cons in H.
    destruct (isSentenceEnd c && (0 <? Z.of_nat (spanWhiteSpace r))) eqn:E;
      [discriminate|].
    destruct j as [|j].
    + unfold sentenceMatchAt. cbn [skipn]. now rewrite E.
    + apply (IH _ H j).
Qed.

Lemma execParagraphFrom_None (s : str) :
  forall i, execParagraphFrom s i = None ->
            forall j, paragraphMatchAt s j = false.
Proof.
  induction s as [|c r IH]; intros i H j.
  - unfold paragraphMatchAt. now destruct j.
  - destruct r as [|d r'].
    + unfold paragraphMatchAt. destruct j as [|[|j]]; reflexivity.
    + rewrite execParagraphFrom_cons in H.
      destruct ((c =? 10) && (d =? 10))%N eqn:E; [discriminate|].
      destruct j as [|j].
      * unfold paragraphMatchAt. cbn [skipn]. exact E.
      * apply (IH _ H j).
Qed.

(** X4: which boundary [findSentenceBoundary] picks.  In the window (the last
    200 characters before the tentative end, or fewer) it takes the first
    sentence boundary; when the window has none, the first blank line; when
    it has neither, the tentative end. *)
Theorem findSentenceBoundary_choice (txt : str) (start e : Z) :
  let searchStart := Z.max start (e - 200) in
  let window := slice txt searchStart e in
  (exists (j : nat) (l : Z),
      sentenceMatchAt window j = Some l /\
      (forall k, (k < j)%nat -> sentenceMatchAt window k = None) /\
      findSentenceBoundary txt start e = searchStart + Z.of_nat j + l) \/
  ((forall k, sentenceMatchAt window k = None) /\
   exists j : nat,
      paragraphMatchAt window j = true /\
      (forall k, (k < j)%nat -> paragraphMatchAt window k = false) /\
      findSentenceBoundary txt start e = searchStart + Z.of_nat j + 2) \/
  ((forall k, sentenceMatchAt window k = None) /\
   (forall k, paragraphMatchAt window k = false) /\
   findSentenceBoundary txt start e = e).
Proof.
  cbn zeta. unfold findSentenceBoundary.
  destruct (execSentence (slice txt (Z.max start (e - 200)) e))
    as [[idx l]|] eqn:Es.
  - left. destruct (execSentenceFrom_leftmost _ _ _ _ Es) as (j & Hj & Hm & Hk).
    exists j, l. repeat split; [exact Hm|exact Hk|lia].
  - right. pose proof (execSentenceFrom_None _ _ Es) as Hnone.
    destruct (execParagraph (slice txt (Z.max start (e - 200)) e))
      as [[idx l]|] eqn:Ep.
    + left. split; [exact Hnone|].
      destruct (execParagraphFrom_leftmost _ _ _ _ Ep) as (j & Hj & Hl & Hm & Hk).
      exists j. repeat split; [exact Hm|exact Hk|lia].
    + right. split; [exact Hnone|]. split; [|reflexivity].
      exact (execParagraphFrom_None _ _ Ep).
Qed.

End ChunkerFacts.

(* ================================================================== *)
(** ** Binary64 arithmetic

    Three facts are needed: the product of two non-zero square roots is not
    zero, the sign of a difference reflects the order, and the order is
    total and transitive away from NaN. *)

Module Binary64Facts.
Import Binary64.

Lemma eqb_zero (x : float) : (x =? 0)%float = isZero (Prim2SF x).
Proof.
  rewrite FloatAxioms.eqb_spec. change (Prim2SF 0%float) with (S754_zero false).
  destruct (Prim2SF x) as [[|]|[|]| |[|] m e]; reflexivity.
Qed.

Lemma shr_1_m (r : shr_record) :
  0 <= shr_m r -> shr_m (shr_1 r) = shr_m r / 2.
Proof.
  destruct r as [m rb sb]. cbn [shr_m shr_1]. intros Hm.
  destruct m as [|[p|p|]|p]; cbn [shr_m]; [reflexivity| | |reflexivity|lia].
  - apply Z.div_unique with (r := 1); lia.
  - apply Z.div_unique with (r := 0); lia.
Qed.

Lemma iter_shr_1_m (p : positive) :
  forall r, 0 <= shr_m r ->
    shr_m (iter_pos shr_1 p r) = shr_m r / 2 ^ Z.pos p.
Proof.
  induction p as [p IH|p IH|]; intros r Hr; cbn [iter_pos].
  - assert (H1 : 0 <= shr_m (shr_1 r))
      by (rewrite shr_1_m by assumption; apply Z.div_pos; lia).
    assert (H2 : 0 <= shr_m (iter_pos shr_1 p (shr_1 r)))
      by (rewrite IH by assumption; apply Z.div_pos; lia).
    rewrite IH, IH, shr_1_m by assumption.
    rewrite !Z.div_div by lia.
    replace (Z.pos p~1) with (1 + Z.pos p + Z.pos p) by lia.
    rewrite !Z.pow_add_r by lia. rewrite Z.pow_1_r.
    f_equal. ring.
  - assert (H2 : 0 <= shr_m (iter_pos shr_1 p r))
      by (rewrite IH by assumption; apply Z.div_pos; lia).
    rewrite IH, IH by assumption.
    rewrite !Z.div_div by lia.
    replace (Z.pos p~0) with (Z.pos p + Z.pos p) by lia.
    rewrite !Z.pow_add_r by lia. reflexivity.
  - rewrite shr_1_m by assumption. reflexivity.
Qed.

Lemma pow2_succ (k : Z) : 0 <= k -> 2 ^ (k + 1) = 2 * 2 ^ k.
Proof. intros H. rewrite Z.pow_add_r by lia. lia. Qed.

Lemma digits2_pos_bounds (m : positive) :
  2 ^ (Z.pos (digits2_pos m) - 1) <= Z.pos m < 2 ^ Z.pos (digits2_pos m).
Proof.
  induction m as [m IH|m IH|]; cbn [digits2_pos].
  - rewrite Pos2Z.inj_succ, Pos2Z.inj_xI.
    assert (Hd : 0 <= Z.pos (digits2_pos m) - 1) by lia.
    replace (Z.pos (digits2_pos m)) with (Z.pos (digits2_pos m) - 1 + 1) in IH at 2 by lia.
    replace (Z.succ (Z.pos (digits2_pos m)))
      with (Z.pos (digits2_pos m) - 1 + 1 + 1) by lia.
    replace (Z.pos (digits2_pos m) - 1 + 1 + 1 - 1)
      with (Z.pos (digits2_pos m) - 1 + 1) by lia.
    rewrite !pow2_succ in * by lia. lia.
  - rewrite Pos2Z.inj_succ, Pos2Z.inj_xO.
    assert (Hd : 0 <= Z.pos (digits2_pos m) - 1) by lia.
    replace (Z.pos (digits2_pos m)) with (Z.pos (digits2_pos m) - 1 + 1) in IH at 2 by lia.
    replace (Z.succ (Z.pos (digits2_pos m)))
      with (Z.pos (digits2_pos m) - 1 + 1 + 1) by lia.
    replace (Z.pos (digits2_pos m) - 1 + 1 + 1 - 1)
      with (Z.pos (digits2_pos m) - 1 + 1) by lia.
    rewrite !pow2_succ in * by lia. lia.
  - cbn. lia.
Qed.

Lemma fexp_eq (k : Z) : fexp prec emax k = Z.max (k - 53) (-1074).
Proof. reflexivity. Qed.

Lemma shr_record_of_loc_m (m : Z) (l : location) :
  shr_m (shr_record_of_loc m l) = m.
Proof. destruct l as [|[| |]]; reflexivity. Qed.

(** The mantissa and the exponent after [shr_fexp]. *)
Lemma shr_fexp_spec (m e : Z) (l : location) :
  0 <= m ->
  let n := fexp prec emax (Zdigits2 m + e) - e in
  shr_m (fst (shr_fexp prec emax m e l)) = (if 0 <? n then m / 2 ^ n else m) /\
  snd (shr_fexp prec emax m e l) = Z.max e (fexp prec emax (Zdigits2 m + e)).
Proof.
  intros Hm n. unfold shr_fexp, shr. fold n.
  destruct n as [|p|p] eqn:En; cbn [fst snd Z.ltb Z.compare].
  - rewrite shr_record_of_loc_m. split; [reflexivity|lia].
  - rewrite iter_shr_1_m by (rewrite shr_record_of_loc_m; exact Hm).
    rewrite shr_record_of_loc_m. split; [reflexivity|lia].
  - rewrite shr_record_of_loc_m. split; [reflexivity|lia].
Qed.

Lemma round_nearest_even_ge (m : Z) (l : location) :
  m <= round_nearest_even m l.
Proof.
  destruct l as [|[| |]]; cbn [round_nearest_even]; try lia.
  destruct (Z.even m); lia.
Qed.

(** Rounding never lowers the exponent. *)
Lemma binary_round_aux_exponent (s : bool) (m e : Z) (l : location)
  (s' : bool) (m' : positive) (e' : Z) :
  0 <= m ->
  binary_round_aux prec emax s m e l = S754_finite s' m' e' -> e <= e'.
Proof.
  intros Hm. unfold binary_round_aux.
  pose proof (shr_fexp_spec m e l Hm) as [H1m H1e].
  destruct (shr_fexp prec emax m e l) as [mrs1 e1]. cbn [fst snd] in *.
  set (m2 := round_nearest_even (shr_m mrs1) (loc_of_shr_record mrs1)).
  assert (Hm1 : 0 <= shr_m mrs1).
  { rewrite H1m.
    destruct (0 <? fexp prec emax (Zdigits2 m + e) - e) eqn:E; [|exact Hm].
    apply Z.ltb_lt in E.
    apply Z.div_pos; [lia|apply Z.pow_pos_nonneg; lia]. }
  assert (Hm2 : 0 <= m2)
    by (pose proof (round_nearest_even_ge (shr_m mrs1) (loc_of_shr_record mrs1));
        unfold m2; lia).
  clearbody m2.
  pose proof (shr_fexp_spec m2 e1 loc_Exact Hm2) as [_ H2e].
  destruct (shr_fexp prec emax m2 e1 loc_Exact) as [mrs2 e2].
  cbn [fst snd] in *.
  destruct (shr_m mrs2); try discriminate.
  destruct (e2 <=? emax - prec); [|discriminate].
  intros [= _ _ <-]. lia.
Qed.

(** Rounding a positive mantissa gives a number of the given sign, or the
    infinity of that sign, unless the first shift drops all of its bits. *)
Lemma binary_round_aux_shape (s : bool) (m e : Z) (l : location) :
  0 < m ->
  (fexp prec emax (Zdigits2 m + e) - e <= 0 \/
   2 ^ (fexp prec emax (Zdigits2 m + e) - e) <= m) ->
  (exists m' e', binary_round_aux prec emax s m e l = S754_finite s m' e') \/
  binary_round_aux prec emax s m e l = S754_infinity s.
Proof.
  intros Hm Hn. unfold binary_round_aux.
  pose proof (shr_fexp_spec m e l ltac:(lia)) as [H1m H1e].
  destruct (shr_fexp prec emax m e l) as [mrs1 e1]. cbn [fst snd] in *.
  set (m2 := round_nearest_even (shr_m mrs1) (loc_of_shr_record mrs1)).
  assert (Hm1 : 1 <= shr_m mrs1).
  { rewrite H1m.
    destruct (0 <? fexp prec emax (Zdigits2 m + e) - e) eqn:E; [|lia].
    apply Z.ltb_lt in E. destruct Hn as [Hn|Hn]; [lia|].
    apply Z.div_le_lower_bound; [apply Z.pow_pos_nonneg; lia|lia]. }
  assert (Hm2 : 1 <= m2)
    by (pose proof (round_nearest_even_ge (shr_m mrs1) (loc_of_shr_record mrs1));
        unfold m2; lia).
  clearbody m2.
  pose proof (shr_fexp_spec m2 e1 loc_Exact ltac:(lia)) as [H2m _].
  destruct (shr_fexp prec emax m2 e1 loc_Exact) as [mrs2 e2].
  cbn [fst snd] in *.
  assert (Hm3 : 1 <= shr_m mrs2).
  { rewrite H2m.
    destruct (0 <? fexp prec emax (Zdigits2 m2 + e1) - e1) eqn:E; [|lia].
    apply Z.ltb_lt in E. rewrite fexp_eq in *.
    destruct m2 as [|q|q]; try lia. cbn [Zdigits2] in *.
    pose proof (digits2_pos_bounds q) as [Hq _].
    assert (He1 : -1074 <= e1) by lia.
    assert (Hn2 : Z.max (Z.pos (digits2_pos q) + e1 - 53) (-1074) - e1 =
                  Z.pos (digits2_pos q) - 53) by lia.
    rewrite Hn2 in *.
    apply Z.div_le_lower_bound; [apply Z.pow_pos_nonneg; lia|].
    rewrite Z.mul_1_r. etransitivity; [|exact Hq].
    apply Z.pow_le_mono_r; lia. }
  destruct (shr_m mrs2) as [|q|q]; try lia.
  destruct (e2 <=? emax - prec); [left; eauto|now right].
Qed.

Lemma binary_round_aux_nonzero (s : bool) (m e : Z) (l : location) :
  0 < m ->
  (fexp prec emax (Zdigits2 m + e) - e <= 0 \/
   2 ^ (fexp prec emax (Zdigits2 m + e) - e) <= m) ->
  isZero (binary_round_aux prec emax s m e l) = false.
Proof.
  intros Hm Hn.
  destruct (binary_round_aux_shape s m e l Hm Hn) as [(m' & e' & ->)| ->];
    reflexivity.
Qed.

(** A finite square root is a normal number of exponent at least -589. *)
Lemma sqrt_finite_shape (x : float) (s : bool) (m : positive) (e : Z) :
  Prim2SF (sqrt x) = S754_finite s m e ->
  -589 <= e /\ Z.pos (digits2_pos m) = 53.
Proof.
  intros H. pose proof (Prim2SF_valid (sqrt x)) as Hv. rewrite H in Hv.
  assert (He : -589 <= e).
  { rewrite sqrt_spec in H. pose proof (Prim2SF_valid x) as Hx.
    unfold SF64sqrt, SFsqrt in H.
    destruct (Prim2SF x) as [sx|[|]| |[|] mx ex]; try discriminate.
    cbn [valid_binary] in Hx. unfold bounded, canonical_mantissa in Hx.
    apply andb_prop in Hx. destruct Hx as [Hx _]. apply Z.eqb_eq in Hx.
    rewrite fexp_eq in Hx.
    unfold SFsqrt_core_binary in H. cbn [Zdigits2] in H.
    set (e' := Z.min (fexp prec emax (Z.div2 (Z.pos (digits2_pos mx) + ex + 1)))
                 (Z.div2 ex)) in H.
    assert (He' : -589 <= e').
    { unfold e'. rewrite fexp_eq, !Z.div2_div.
      assert (-537 <= ex / 2) by (apply Z.div_le_lower_bound; lia).
      assert (-536 <= (Z.pos (digits2_pos mx) + ex + 1) / 2)
        by (apply Z.div_le_lower_bound; lia).
      lia. }
    destruct (Z.sqrtrem _) as [q r] eqn:Eq.
    assert (Hq : 0 <= q).
    { pose proof (Z.sqrtrem_spec
                    match ex - 2 * e' with
                    | 0 => Z.pos mx
                    | Z.pos _ => Z.shiftl (Z.pos mx) (ex - 2 * e')
                    | Z.neg _ => 0
                    end) as Hs.
      rewrite Eq in Hs.
      assert (0 <= match ex - 2 * e' with
                   | 0 => Z.pos mx
                   | Z.pos _ => Z.shiftl (Z.pos mx) (ex - 2 * e')
                   | Z.neg _ => 0
                   end).
      { destruct (ex - 2 * e'); try lia. apply Z.shiftl_nonneg. lia. }
      specialize (Hs H0). lia. }
    apply binary_round_aux_exponent in H; [lia|exact Hq]. }
  split; [exact He|].
  cbn [valid_binary] in Hv. unfold bounded, canonical_mantissa in Hv.
  apply andb_prop in Hv. destruct Hv as [Hv _]. apply Z.eqb_eq in Hv.
  rewrite fexp_eq in Hv. lia.
Qed.

(** The product of two non-zero square roots is not zero: in binary64 the
    smallest non-zero square root is 2^-537, and 2^-1074 is a number. *)
Theorem sqrt_mul_nonzero (a b : float) :
  (sqrt a =? 0)%float = false -> (sqrt b =? 0)%float = false ->
  (sqrt a * sqrt b =? 0)%float = false.
Proof.
  rewrite !eqb_zero, mul_spec. intros Ha Hb.
  pose proof (sqrt_finite_shape a) as Sa.
  pose proof (sqrt_finite_shape b) as Sb.
  destruct (Prim2SF (sqrt a)) as [sa|sa| |sa ma ea]; try discriminate;
    destruct (Prim2SF (sqrt b)) as [sb|sb| |sb mb eb]; try discriminate;
    try reflexivity.
  destruct (Sa _ _ _ eq_refl) as [Hea Hda].
  destruct (Sb _ _ _ eq_refl) as [Heb Hdb].
  unfold SF64mul, SFmul. apply binary_round_aux_nonzero; [lia|].
  right. rewrite fexp_eq. cbn [Zdigits2].
  pose proof (digits2_pos_bounds ma) as [Hma _].
  pose proof (digits2_pos_bounds mb) as [Hmb _].
  pose proof (digits2_pos_bounds (ma * mb)) as [Hl Hu].
  rewrite Hda in Hma. rewrite Hdb in Hmb.
  pose proof (digits2_pos_bounds ma) as [_ Hma'].
  pose proof (digits2_pos_bounds mb) as [_ Hmb'].
  rewrite Hda in Hma'. rewrite Hdb in Hmb'.
  change (2 ^ (53 - 1)) with 4503599627370496 in *.
  change (2 ^ 53) with 9007199254740992 in *.
  assert (HM : 2 ^ 104 <= Z.pos (ma * mb)).
  { rewrite Pos2Z.inj_mul. change (2 ^ 104) with (4503599627370496 * 4503599627370496).
    apply Z.mul_le_mono_nonneg; lia. }
  assert (HM' : Z.pos (ma * mb) < 2 ^ 106).
  { rewrite Pos2Z.inj_mul. change (2 ^ 106) with (9007199254740992 * 9007199254740992).
    apply Z.mul_lt_mono_nonneg; lia. }
  assert (Hd : Z.pos (digits2_pos (ma * mb)) <= 106).
  { destruct (Z.le_gt_cases (Z.pos (digits2_pos (ma * mb))) 106) as [|Hgt];
      [assumption|].
    assert (2 ^ 106 <= 2 ^ (Z.pos (digits2_pos (ma * mb)) - 1))
      by (apply Z.pow_le_mono_r; lia).
    lia. }
  etransitivity; [|exact HM].
  apply Z.pow_le_mono_r; lia.
Qed.

(** *** Order and subtraction *)

Lemma valid_finite (s : bool) (m : positive) (e : Z) :
  valid_binary (S754_finite s m e) = true ->
  -1074 <= e <= 971 /\
  Z.pos (digits2_pos m) <= 53 /\
  (-1074 < e -> Z.pos (digits2_pos m) = 53).
Proof.
  cbn [valid_binary]. unfold bounded, canonical_mantissa. intros H.
  apply andb_prop in H. destruct H as [Hc Hb].
  apply Z.eqb_eq in Hc. apply Z.leb_le in Hb. rewrite fexp_eq in Hc.
  change (emax - prec) with 971 in Hb. lia.
Qed.

Lemma pow2_pos (k : Z) : 0 <= k -> 0 < 2 ^ k.
Proof. intros H. apply Z.pow_pos_nonneg; lia. Qed.

Lemma pow2_split (a b : Z) : 0 <= a -> a <= b -> 2 ^ b = 2 ^ a * 2 ^ (b - a).
Proof.
  intros Ha Hab. rewrite <- Z.pow_add_r by lia. f_equal. lia.
Qed.

(** The magnitude of a valid finite number. *)
Lemma scaled_magnitude (s : bool) (m : positive) (e : Z) :
  valid_binary (S754_finite s m e) = true ->
  0 < Z.pos m * 2 ^ (e + 1074) < 2 ^ 2100.
Proof.
  intros H. destruct (valid_finite _ _ _ H) as (He & Hd & _).
  pose proof (digits2_pos_bounds m) as [_ Hm].
  pose proof (pow2_pos (e + 1074) ltac:(lia)) as Hp.
  split; [lia|].
  assert (Hm' : Z.pos m < 2 ^ 53).
  { eapply Z.lt_le_trans; [exact Hm|]. apply Z.pow_le_mono_r; lia. }
  assert (Hp' : 2 ^ (e + 1074) <= 2 ^ 2045) by (apply Z.pow_le_mono_r; lia).
  replace (2 ^ 2100) with (2 ^ 53 * 2 ^ 2047)
    by (rewrite <- Z.pow_add_r by lia; reflexivity).
  assert (2 ^ 2045 < 2 ^ 2047) by (apply Z.pow_lt_mono_r; lia).
  apply Z.mul_lt_mono_nonneg; lia.
Qed.

(** Two valid positive numbers compare as their exponents, then as their
    mantissas. *)
Lemma magnitude_compare (s1 s2 : bool) (m1 m2 : positive) (e1 e2 : Z) :
  valid_binary (S754_finite s1 m1 e1) = true ->
  valid_binary (S754_finite s2 m2 e2) = true ->
  (Z.pos m1 * 2 ^ (e1 + 1074) ?= Z.pos m2 * 2 ^ (e2 + 1074)) =
  match e1 ?= e2 with
  | Lt => Lt
  | Gt => Gt
  | Eq => Pos.compare_cont Eq m1 m2
  end.
Proof.
  intros H1 H2.
  destruct (valid_finite _ _ _ H1) as (He1 & Hd1 & Hn1).
  destruct (valid_finite _ _ _ H2) as (He2 & Hd2 & Hn2).
  pose proof (digits2_pos_bounds m1) as [Hl1 Hu1].
  pose proof (digits2_pos_bounds m2) as [Hl2 Hu2].
  assert (Hm1 : Z.pos m1 < 2 ^ 53)
    by (eapply Z.lt_le_trans; [exact Hu1|apply Z.pow_le_mono_r; lia]).
  assert (Hm2 : Z.pos m2 < 2 ^ 53)
    by (eapply Z.lt_le_trans; [exact Hu2|apply Z.pow_le_mono_r; lia]).
  change (2 ^ 53) with 9007199254740992 in *.
  destruct (Z.compare_spec e1 e2) as [Heq|Hlt|Hgt].
  - subst e2. pose proof (pow2_pos (e1 + 1074) ltac:(lia)).
    rewrite <- Zmult_compare_compat_r by lia. reflexivity.
  - apply Z.compare_lt_iff.
    rewrite (Hn2 ltac:(lia)) in Hl2.
    change (2 ^ (53 - 1)) with 4503599627370496 in Hl2.
    rewrite (pow2_split (e1 + 1074) (e2 + 1074)) by lia.
    pose proof (pow2_pos (e1 + 1074) ltac:(lia)).
    assert (Hq : 2 ^ 1 <= 2 ^ (e2 + 1074 - (e1 + 1074)))
      by (apply Z.pow_le_mono_r; lia).
    rewrite Z.pow_1_r in Hq.
    generalize dependent (2 ^ (e2 + 1074 - (e1 + 1074))).
    generalize dependent (2 ^ (e1 + 1074)).
    clear - Hm1 Hl2. intros P HP Q HQ.
    assert (Z.pos m1 * P < 9007199254740992 * P) by nia.
    assert (4503599627370496 * (P * Q) <= Z.pos m2 * (P * Q)) by nia.
    nia.
  - apply Z.compare_gt_iff.
    rewrite (Hn1 ltac:(lia)) in Hl1.
    change (2 ^ (53 - 1)) with 4503599627370496 in Hl1.
    rewrite (pow2_split (e2 + 1074) (e1 + 1074)) by lia.
    pose proof (pow2_pos (e2 + 1074) ltac:(lia)).
    assert (Hq : 2 ^ 1 <= 2 ^ (e1 + 1074 - (e2 + 1074)))
      by (apply Z.pow_le_mono_r; lia).
    rewrite Z.pow_1_r in Hq.
    generalize dependent (2 ^ (e1 + 1074 - (e2 + 1074))).
    generalize dependent (2 ^ (e2 + 1074)).
    clear - Hm2 Hl1. intros P HP Q HQ.
    assert (Z.pos m2 * P < 9007199254740992 * P) by nia.
    assert (4503599627370496 * (P * Q) <= Z.pos m1 * (P * Q)) by nia.
    nia.
Qed.

(** On valid numbers other than NaN, the comparison of the format is the
    comparison of the scaled values. *)
Lemma SFcompare_scaled (x y : spec_float) :
  valid_binary x = true -> valid_binary y = true ->
  isNan x = false -> isNan y = false ->
  SFcompare x y = Some (scaled x ?= scaled y).
Proof.
  intros Hx Hy Nx Ny.
  destruct x as [sx|sx| |sx mx ex]; try discriminate;
    destruct y as [sy|sy| |sy my ey]; try discriminate;
    cbn [SFcompare scaled].
  - reflexivity.
  - destruct sy; reflexivity.
  - pose proof (scaled_magnitude _ _ _ Hy).
    destruct sy; cbn [cond_Zopp]; f_equal; symmetry;
      [apply Z.compare_gt_iff|apply Z.compare_lt_iff]; lia.
  - destruct sx; reflexivity.
  - destruct sx, sy; reflexivity.
  - pose proof (scaled_magnitude _ _ _ Hy).
    destruct sx, sy; cbn [cond_Zopp]; f_equal; symmetry;
      first [apply Z.compare_gt_iff; lia|apply Z.compare_lt_iff; lia].
  - pose proof (scaled_magnitude _ _ _ Hx).
    destruct sx; cbn [cond_Zopp]; f_equal; symmetry;
      [apply Z.compare_lt_iff|apply Z.compare_gt_iff]; lia.
  - pose proof (scaled_magnitude _ _ _ Hx).
    destruct sx, sy; cbn [cond_Zopp]; f_equal; symmetry;
      first [apply Z.compare_gt_iff; lia|apply Z.compare_lt_iff; lia].
  - pose proof (scaled_magnitude _ _ _ Hx).
    pose proof (scaled_magnitude _ _ _ Hy).
    pose proof (magnitude_compare _ _ _ _ _ _ Hx Hy) as Hc.
    pose proof (magnitude_compare _ _ _ _ _ _ Hy Hx) as Hc'.
    destruct sx, sy; cbn [cond_Zopp]; f_equal.
    + rewrite Z.compare_opp, Hc'. rewrite (Z.compare_antisym ex ey).
      destruct (ex ?= ey); cbn [CompOpp]; try reflexivity.
      exact (Pos.compare_cont_antisym mx my Eq).
    + symmetry. apply Z.compare_lt_iff. lia.
    + symmetry. apply Z.compare_gt_iff. lia.
    + rewrite Hc. reflexivity.
Qed.

Lemma iter_xO_value (m d : positive) :
  Z.pos (Pos.iter xO m d) = Z.pos m * 2 ^ Z.pos d.
Proof.
  induction d as [|d IH] using Pos.peano_ind.
  - cbn [Pos.iter]. rewrite Pos2Z.inj_xO, Z.pow_1_r. lia.
  - rewrite Pos.iter_succ, Pos2Z.inj_xO, IH, Pos2Z.inj_succ.
    rewrite Z.pow_succ_r by lia. ring.
Qed.

Lemma iter_xO_digits (m d : positive) :
  Z.pos (digits2_pos (Pos.iter xO m d)) = Z.pos (digits2_pos m) + Z.pos d.
Proof.
  induction d as [|d IH] using Pos.peano_ind.
  - cbn [Pos.iter digits2_pos]. lia.
  - rewrite Pos.iter_succ. cbn [digits2_pos]. lia.
Qed.

(** Alignment to a lower exponent keeps the value. *)
Lemma shl_align_value (m : positive) (e e' : Z) :
  e' <= e ->
  Z.pos (fst (shl_align m e e')) = Z.pos m * 2 ^ (e - e').
Proof.
  intros H. unfold shl_align.
  destruct (e' - e) as [|d|d] eqn:E; cbn [fst]; try lia.
  - replace (e - e') with 0 by lia. rewrite Z.pow_0_r. lia.
  - rewrite iter_xO_value. f_equal. f_equal. lia.
Qed.

(** Rounding a non-zero integer multiple of a power of two that is at least
    2^-1074 keeps its sign and never gives zero. *)
Lemma binary_round_positive (s : bool) (m : positive) (e : Z) :
  -1074 <= e ->
  isPositive (binary_round prec emax s m e) = negb s.
Proof.
  intros He. unfold binary_round.
  set (f := fexp prec emax (Z.pos (digits2_pos m) + e)).
  assert (Hf : f = Z.max (Z.pos (digits2_pos m) + e - 53) (-1074))
    by reflexivity.
  assert (Hshape :
    forall mz ez, shl_align m e f = (mz, ez) ->
      fexp prec emax (Zdigits2 (Z.pos mz) + ez) - ez <= 0 \/
      2 ^ (fexp prec emax (Zdigits2 (Z.pos mz) + ez) - ez) <= Z.pos mz).
  { intros mz ez. unfold shl_align.
    destruct (f - e) as [|d|d] eqn:E; intros [= <- <-];
      cbn [Zdigits2]; rewrite fexp_eq.
    - left. lia.
    - pose proof (digits2_pos_bounds m) as [Hm _].
      destruct (Z.le_gt_cases (Z.pos (digits2_pos m)) 53) as [Hd|Hd];
        [left; lia|right].
      replace (Z.max (Z.pos (digits2_pos m) + e - 53) (-1074) - e)
        with (Z.pos (digits2_pos m) - 53) by lia.
      etransitivity; [|exact Hm]. apply Z.pow_le_mono_r; lia.
    - left. rewrite iter_xO_digits. lia. }
  destruct (shl_align m e f) as [mz ez].
  destruct (binary_round_aux_shape s (Z.pos mz) ez loc_Exact ltac:(lia)
              (Hshape mz ez eq_refl)) as [(m' & e' & ->)| ->];
    destruct s; reflexivity.
Qed.

(** The sign of a difference: [x - y] is positive exactly when [y] is below
    [x]. *)
Lemma SFsub_positive (x y : spec_float) :
  valid_binary x = true -> valid_binary y = true ->
  isNan x = false -> isNan y = false ->
  isPositive (SFsub prec emax x y) = (scaled y <? scaled x).
Proof.
  intros Hx Hy Nx Ny.
  destruct x as [sx|sx| |sx mx ex]; try discriminate;
    destruct y as [sy|sy| |sy my ey]; try discriminate;
    cbn [SFsub scaled].
  - destruct sx, sy; reflexivity.
  - destruct sy; reflexivity.
  - pose proof (scaled_magnitude _ _ _ Hy).
    destruct sy; cbn [negb isPositive cond_Zopp]; symmetry;
      [apply Z.ltb_lt|apply Z.ltb_ge]; lia.
  - destruct sx; reflexivity.
  - destruct sx, sy; reflexivity.
  - pose proof (scaled_magnitude _ _ _ Hy).
    destruct sx, sy; cbn [negb isPositive cond_Zopp]; symmetry;
      first [apply Z.ltb_lt; lia|apply Z.ltb_ge; lia].
  - pose proof (scaled_magnitude _ _ _ Hx).
    destruct sx; cbn [negb isPositive cond_Zopp]; symmetry;
      [apply Z.ltb_ge|apply Z.ltb_lt]; lia.
  - pose proof (scaled_magnitude _ _ _ Hx).
    destruct sx, sy; cbn [negb isPositive cond_Zopp]; symmetry;
      first [apply Z.ltb_lt; lia|apply Z.ltb_ge; lia].
  - destruct (valid_finite _ _ _ Hx) as (Hex & _).
    destruct (valid_finite _ _ _ Hy) as (Hey & _).
    set (ez := Z.min ex ey).
    pose proof (shl_align_value mx ex ez ltac:(unfold ez; lia)) as Vx.
    pose proof (shl_align_value my ey ez ltac:(unfold ez; lia)) as Vy.
    set (X := Z.pos (fst (shl_align mx ex ez))) in *.
    set (Y := Z.pos (fst (shl_align my ey ez))) in *.
    assert (Hez : -1074 <= ez) by (unfold ez; lia).
    pose proof (pow2_pos (ez + 1074) ltac:(lia)) as Hp.
    assert (Ex : Z.pos mx * 2 ^ (ex + 1074) = X * 2 ^ (ez + 1074)).
    { rewrite Vx, <- Z.mul_assoc, <- Z.pow_add_r by (unfold ez; lia).
      f_equal. f_equal. lia. }
    assert (Ey : Z.pos my * 2 ^ (ey + 1074) = Y * 2 ^ (ez + 1074)).
    { rewrite Vy, <- Z.mul_assoc, <- Z.pow_add_r by (unfold ez; lia).
      f_equal. f_equal. lia. }
    rewrite Ex, Ey.
    assert (HX : 0 < X) by (unfold X; lia).
    assert (HY : 0 < Y) by (unfold Y; lia).
    clearbody X Y. generalize dependent (2 ^ (ez + 1074)). intros P HP _ _.
    assert (Hsign : (cond_Zopp sy (Y * P) <? cond_Zopp sx (X * P)) =
                    (0 <? cond_Zopp sx X - cond_Zopp sy Y)).
    { destruct sx, sy; cbn [cond_Zopp];
        match goal with
        | |- (_ <? _) = (0 <? ?c) =>
            destruct (Z.ltb_spec 0 c); [apply Z.ltb_lt|apply Z.ltb_ge]; nia
        end. }
    rewrite Hsign.
    destruct (cond_Zopp sx X - cond_Zopp sy Y) as [|d|d]; cbn [binary_normalize].
    + reflexivity.
    + now rewrite binary_round_positive.
    + now rewrite binary_round_positive.
Qed.

(** *** The facts on primitive floats *)

Lemma is_nan_spec (x : float) : is_nan x = isNan (Prim2SF x).
Proof.
  unfold is_nan. rewrite FloatAxioms.eqb_spec.
  pose proof (Prim2SF_valid x) as Hv.
  destruct (Prim2SF x) as [[|]|[|]| |[|] m e]; try reflexivity;
    unfold SFeqb, SFcompare; rewrite Z.compare_refl, Pos.compare_cont_refl;
    reflexivity.
Qed.

Lemma leb_scaled (x y : float) :
  is_nan x = false -> is_nan y = false ->
  (x <=? y)%float = (scaled (Prim2SF x) <=? scaled (Prim2SF y)).
Proof.
  rewrite !is_nan_spec, leb_spec. intros Nx Ny. unfold SFleb.
  rewrite (SFcompare_scaled _ _ (Prim2SF_valid x) (Prim2SF_valid y) Nx Ny).
  unfold Z.leb. destruct (_ ?= _); reflexivity.
Qed.

Lemma ltb_zero (d : float) : (0 <? d)%float = isPositive (Prim2SF d).
Proof.
  rewrite ltb_spec. change (Prim2SF 0%float) with (S754_zero false).
  destruct (Prim2SF d) as [[|]|[|]| |[|] m e]; reflexivity.
Qed.

(** The sign of a difference of two floats that are not NaN. *)
Theorem sub_positive (x y : float) :
  is_nan x = false -> is_nan y = false ->
  (0 <? x - y)%float = negb (x <=? y)%float.
Proof.
  intros Nx Ny. rewrite ltb_zero, sub_spec, leb_scaled by assumption.
  rewrite is_nan_spec in Nx, Ny.
  unfold SF64sub.
  rewrite (SFsub_positive _ _ (Prim2SF_valid x) (Prim2SF_valid y) Nx Ny).
  apply Z.ltb_antisym.
Qed.

Theorem leb_total (x y : float) :
  is_nan x = false -> is_nan y = false ->
  (x <=? y)%float = true \/ (y <=? x)%float = true.
Proof.
  intros Nx Ny. rewrite !leb_scaled by assumption.
  rewrite !Z.leb_le. lia.
Qed.

Theorem leb_trans (x y z : float) :
  is_nan x = false -> is_nan y = false -> is_nan z = false ->
  (x <=? y)%float = true -> (y <=? z)%float = true -> (x <=? z)%float = true.
Proof.
  intros Nx Ny Nz. rewrite !leb_scaled by assumption.
  rewrite !Z.leb_le. lia.
Qed.

(** *** Products *)

Lemma SFmul_comm (x y : spec_float) : SFmul prec emax x y = SFmul prec emax y x.
Proof.
  destruct x as [sx|sx| |sx mx ex], y as [sy|sy| |sy my ey]; cbn [SFmul];
    try reflexivity; try (now rewrite (xorb_comm sx sy)).
  now rewrite (xorb_comm sx sy), (Pos.mul_comm mx my), (Z.add_comm ex ey).
Qed.

(** Multiplication of binary64 numbers is commutative. *)
Lemma mul_comm (x y : float) : (x * y = y * x)%float.
Proof.
  apply Prim2SF_inj. rewrite !mul_spec. apply SFmul_comm.
Qed.

(** The square of a zero is the positive zero. *)
Lemma square_zero (x : float) : (x =? 0)%float = true -> (x * x = 0)%float.
Proof.
  intros H. rewrite eqb_zero in H. apply Prim2SF_inj. rewrite mul_spec.
  destruct (Prim2SF x) as [s| | |]; try discriminate.
  cbn [SFmul]. now destruct s.
Qed.

End Binary64Facts.

(* ================================================================== *)
(** ** The vector index *)

Module VectorDbFacts.
Import JS JSFacts Exn VectorDb.

(** *** The stable sort *)

Section SortFacts.
Context {A : Type}.
Variable after : A -> A -> bool.

(** The elements at hand, on which the comparator is consistent: [after] is
    asymmetric and its negation is transitive. *)
Variable P : A -> Prop.
Hypothesis after_asym :
  forall x y, P x -> P y -> after x y = true -> after y x = false.
Hypothesis after_trans :
  forall x y z, P x -> P y -> P z ->
    after x y = false -> after y z = false -> after x z = false.

Let notAfter (x y : A) : Prop := after x y = false.

Lemma insert_perm (x : A) (l : list A) : Permutation (insert after x l) (x :: l).
Proof.
  induction l as [|y r IH]; cbn [insert]; [reflexivity|].
  destruct (after x y); [|reflexivity].
  rewrite IH. apply perm_swap.
Qed.

Lemma sort_perm (l : list A) : Permutation (sort after l) l.
Proof.
  induction l as [|x l IH]; cbn [sort fold_right]; [reflexivity|].
  fold (sort after l). rewrite insert_perm. now apply perm_skip.
Qed.

Lemma sort_Forall (l : list A) : Forall P l -> Forall P (sort after l).
Proof.
  intros H. eapply Permutation_Forall; [|exact H].
  symmetry. apply sort_perm.
Qed.

Lemma insert_sorted (x : A) (l : list A) :
  P x -> Forall P l ->
  StronglySorted notAfter l -> StronglySorted notAfter (insert after x l).
Proof.
  intros Px Pl Hs. induction Hs as [|y r Hr IH Hy]; cbn [insert].
  - constructor; constructor.
  - inversion Pl as [|? ? Py Pr]; subst.
    destruct (after x y) eqn:E.
    + constructor; [now apply IH|].
      eapply Permutation_Forall; [symmetry; apply insert_perm|].
      constructor; [now apply after_asym|assumption].
    + constructor; [now constructor|].
      constructor; [exact E|].
      rewrite Forall_forall in *. intros z Hz.
      apply (after_trans x y z); auto. now apply Hy.
Qed.

Lemma sort_sorted (l : list A) :
  Forall P l -> StronglySorted notAfter (sort after l).
Proof.
  induction 1 as [|x l Px Pl IH]; cbn [sort fold_right]; [constructor|].
  apply insert_sorted; [assumption|now apply sort_Forall|exact IH].
Qed.

(** Insertion puts [x] in front of the elements it ties with. *)
Lemma insert_filter_tie (z x : A) (l : list A) :
  P z -> P x -> Forall P l ->
  filter (tie after z) (insert after x l) = filter (tie after z) (x :: l).
Proof.
  intros Pz Px Pl. induction Pl as [|y r Py Pr IH]; cbn [insert]; [reflexivity|].
  destruct (after x y) eqn:E; [|reflexivity].
  cbn [filter] in *. rewrite IH.
  destruct (tie after z x) eqn:Tx; [|reflexivity].
  destruct (tie after z y) eqn:Ty; [|reflexivity].
  exfalso. unfold tie in Tx, Ty.
  apply andb_prop in Tx, Ty. destruct Tx as [_ Tx], Ty as [Ty _].
  apply negb_true_iff in Tx, Ty.
  rewrite (after_trans x z y Px Pz Py Tx Ty) in E. discriminate.
Qed.

(** Stability: the elements that tie with [z] keep their order. *)
Lemma sort_stable (z : A) (l : list A) :
  P z -> Forall P l ->
  filter (tie after z) (sort after l) = filter (tie after z) l.
Proof.
  intros Pz Pl. induction Pl as [|x l Px Pl IH]; [reflexivity|].
  cbn [sort fold_right]. fold (sort after l).
  rewrite insert_filter_tie by auto using sort_Forall.
  cbn [filter]. now rewrite IH.
Qed.

Lemma after_irrefl (x : A) : P x -> after x x = false.
Proof.
  intros Px. destruct (after x x) eqn:E; [|reflexivity].
  now rewrite (after_asym x x Px Px E) in E.
Qed.

(** Two sorted arrangements of the same elements that keep the ties in the
    same order are equal. *)
Lemma sorted_stable_unique (r1 : list A) :
  forall r2,
    Forall P r1 -> Permutation r1 r2 ->
    StronglySorted notAfter r1 -> StronglySorted notAfter r2 ->
    (forall z, P z -> filter (tie after z) r1 = filter (tie after z) r2) ->
    r1 = r2.
Proof.
  induction r1 as [|x t1 IH]; intros r2 HP Hperm Hs1 Hs2 Hst.
  - now apply Permutation_nil in Hperm.
  - destruct r2 as [|y t2];
      [symmetry in Hperm; now apply Permutation_nil in Hperm|].
    inversion HP as [|? ? Px Pt1]; subst.
    inversion Hs1 as [|? ? Hs1' Hx]; subst.
    inversion Hs2 as [|? ? Hs2' Hy]; subst.
    assert (Py : P y).
    { rewrite Forall_forall in HP. apply HP.
      eapply Permutation_in; [symmetry; exact Hperm|now left]. }
    assert (Hxy : after x y = false).
    { assert (Hin : In y (x :: t1))
        by (eapply Permutation_in; [symmetry; exact Hperm|now left]).
      destruct Hin as [<-|Hin]; [now apply after_irrefl|].
      rewrite Forall_forall in Hx. now apply Hx. }
    assert (Hyx : after y x = false).
    { assert (Hin : In x (y :: t2))
        by (eapply Permutation_in; [exact Hperm|now left]).
      destruct Hin as [<-|Hin]; [now apply after_irrefl|].
      rewrite Forall_forall in Hy. now apply Hy. }
    pose proof (Hst x Px) as Hfx. cbn [filter] in Hfx.
    assert (Txx : tie after x x = true)
      by (unfold tie; now rewrite (after_irrefl x Px)).
    assert (Txy : tie after x y = true) by (unfold tie; now rewrite Hxy, Hyx).
    rewrite Txx, Txy in Hfx. injection Hfx as <- _. f_equal.
    apply IH; try assumption.
    + eapply Permutation_cons_inv; exact Hperm.
    + intros z Pz. specialize (Hst z Pz). cbn [filter] in Hst.
      destruct (tie after z x); [now injection Hst|exact Hst].
Qed.

(** Hence the model does not depend on the sorting algorithm: every stable
    sorted arrangement of [l] is [sort after l]. *)
Lemma stable_sort_unique (l r : list A) :
  Forall P l -> Permutation r l ->
  StronglySorted notAfter r ->
  (forall z, P z -> filter (tie after z) r = filter (tie after z) l) ->
  r = sort after l.
Proof.
  intros HP Hperm Hs Hst. apply sorted_stable_unique.
  - eapply Permutation_Forall; [symmetry; exact Hperm|exact HP].
  - etransitivity; [exact Hperm|symmetry; apply sort_perm].
  - exact Hs.
  - now apply sort_sorted.
  - intros z Pz. rewrite Hst by assumption. symmetry. now apply sort_stable.
Qed.

End SortFacts.

Lemma sort_map {A B : Type} (f : A -> B) (after : B -> B -> bool) (l : list A) :
  sort after (map f l) = map f (sort (fun x y => after (f x) (f y)) l).
Proof.
  induction l as [|x l IH]; [reflexivity|].
  cbn [map sort fold_right]. fold (sort after (map f l)).
  fold (sort (fun x y => after (f x) (f y)) l). rewrite IH.
  generalize (sort (fun x y => after (f x) (f y)) l). intros s.
  induction s as [|y s IHs]; [reflexivity|].
  cbn [map insert]. destruct (after (f x) (f y)); [|reflexivity].
  cbn [map]. now rewrite IHs.
Qed.

Lemma StronglySorted_app_inv {A : Type} (R : A -> A -> Prop) (l1 l2 : list A) :
  StronglySorted R (l1 ++ l2) ->
  StronglySorted R l1 /\ StronglySorted R l2 /\
  forall x y, In x l1 -> In y l2 -> R x y.
Proof.
  induction l1 as [|a l1 IH]; cbn [app]; intros H.
  - repeat split; [constructor|exact H|intros ? ? []].
  - inversion H as [|? ? Hs Ha]; subst.
    destruct (IH Hs) as (H1 & H2 & H12).
    rewrite Forall_app in Ha. destruct Ha as [Ha1 Ha2].
    repeat split; [now constructor|exact H2|].
    intros x y [<-|Hx] Hy; [|now apply H12].
    rewrite Forall_forall in Ha2. now apply Ha2.
Qed.

Lemma StronglySorted_nth {A : Type} (R : A -> A -> Prop) (l : list A) :
  StronglySorted R l ->
  forall i j x y, (i < j)%nat ->
    nth_error l i = Some x -> nth_error l j = Some y -> R x y.
Proof.
  induction 1 as [|a l Hs IH Ha]; intros i j x y Hij Hi Hj.
  - now destruct i.
  - destruct j as [|j]; [lia|]. cbn [nth_error] in Hj.
    destruct i as [|i].
    + injection Hi as <-. rewrite Forall_forall in Ha.
      apply Ha. eapply nth_error_In; eassumption.
    + cbn [nth_error] in Hi. apply (IH i j); [lia|assumption..].
Qed.

(** *** Cosine similarity *)

(** The loop computes the three sums. *)
Lemma cosineLoop_sums (a b : list float) :
  forall pa pb dotProduct normA normB,
    length pa = length pb -> length a = length b ->
    cosineLoop (length a) (length pa) (pa ++ a) (pb ++ b)
      (dotProduct, normA, normB) =
    (fold_left (fun acc p => (acc + fst p * snd p)%float) (combine a b)
       dotProduct,
     fold_left (fun acc x => (acc + x * x)%float) a normA,
     fold_left (fun acc x => (acc + x * x)%float) b normB).
Proof.
  revert b. induction a as [|x a IH]; intros [|y b] pa pb d na nb Hp Hl;
    try discriminate; [reflexivity|].
  cbn [cosineLoop length combine fold_left fst snd].
  assert (Ea : at_ (pa ++ x :: a) (length pa) = x) by apply nth_middle.
  assert (Eb : at_ (pb ++ y :: b) (length pa) = y)
    by (rewrite Hp; apply nth_middle).
  rewrite Ea, Eb.
  specialize (IH b (pa ++ [x]) (pb ++ [y])).
  rewrite <- !app_assoc, !length_app in IH. cbn [app length] in IH.
  rewrite !Nat.add_1_r in IH. apply IH; [lia|].
  now injection Hl.
Qed.

Lemma cosineSimilarity_same_length (vecA vecB : list float) :
  length vecA = length vecB ->
  cosineSimilarity vecA vecB = Ok (cosine vecA vecB).
Proof.
  intros H. unfold cosineSimilarity.
  assert (E : (length vecA =? length vecB)%nat = true) by now apply Nat.eqb_eq.
  rewrite E. cbn [negb].
  rewrite (cosineLoop_sums vecA vecB [] [] _ _ _ eq_refl H).
  unfold cosine, norm, dot.
  destruct ((_ =? 0)%float || (_ =? 0)%float); reflexivity.
Qed.

Lemma cosineSimilarity_mismatch (vecA vecB : list float) :
  length vecA <> length vecB ->
  cosineSimilarity vecA vecB =
  Throw (Error (lit "Vectors must have the same length")).
Proof.
  intros H. unfold cosineSimilarity.
  assert (E : (length vecA =? length vecB)%nat = false) by now apply Nat.eqb_neq.
  now rewrite E.
Qed.

(** C3 (cosine similarity guard).  Vectors of different lengths raise the
    error; vectors of the same length give [cosine]: exactly 0 as soon as one
    of the two norms is zero, and otherwise the dot product divided by the
    product of the norms, a divisor that is then not zero.  Dot product and
    norms are the binary64 values that the loop accumulates. *)
Theorem cosineSimilarity_guard :
  (forall vecA vecB,
      length vecA <> length vecB ->
      cosineSimilarity vecA vecB =
      Throw (Error (lit "Vectors must have the same length"))) /\
  (forall vecA vecB,
      length vecA = length vecB ->
      cosineSimilarity vecA vecB = Ok (cosine vecA vecB)) /\
  (forall vecA vecB,
      (norm vecA =? 0)%float = true \/ (norm vecB =? 0)%float = true ->
      cosine vecA vecB = 0%float) /\
  (forall vecA vecB,
      (norm vecA =? 0)%float = false -> (norm vecB =? 0)%float = false ->
      cosine vecA vecB = (dot vecA vecB / (norm vecA * norm vecB))%float /\
      (norm vecA * norm vecB =? 0)%float = false).
Proof.
  split; [exact cosineSimilarity_mismatch|].
  split; [exact cosineSimilarity_same_length|]. split.
  - intros a b [H|H]; unfold cosine; rewrite H; [reflexivity|].
    now rewrite orb_true_r.
  - intros a b Ha Hb. split.
    + unfold cosine. now rewrite Ha, Hb.
    + now apply Binary64Facts.sqrt_mul_nonzero.
Qed.

(** *** Search *)

Lemma scoreAll_ok (q : list float) (docs : list Document) :
  Forall (fun d => length (embedding d) = length q) docs ->
  scoreAll q docs = Ok (map (fun d => mkScored d (simOf q d)) docs).
Proof.
  induction 1 as [|d docs Hd _ IH]; [reflexivity|].
  cbn [scoreAll map].
  rewrite cosineSimilarity_same_length by now symmetry.
  now rewrite IH.
Qed.

(** A stored vector of another length makes the whole search throw. *)
Lemma scoreAll_mismatch (q : list float) (docs : list Document) :
  Exists (fun d => length (embedding d) <> length q) docs ->
  scoreAll q docs = Throw (Error (lit "Vectors must have the same length")).
Proof.
  induction docs as [|d docs IH]; intros H; [inversion H|].
  cbn [scoreAll].
  destruct (Nat.eq_dec (length q) (length (embedding d))) as [E|E].
  - rewrite (cosineSimilarity_same_length _ _ E).
    inversion H as [? ? Hd|? ? Hr]; subst; [congruence|].
    now rewrite (IH Hr).
  - now rewrite (cosineSimilarity_mismatch _ _ E).
Qed.

(** With every stored vector of the length of the query, the search returns
    the first [topK] documents of the sorted collection. *)
Lemma searchSimilar_sorted_prefix (documents : list Document)
  (q : list float) (topK : Z) :
  0 <= topK ->
  Forall (fun d => length (embedding d) = length q) documents ->
  searchSimilar documents q topK =
  Ok (firstn (Z.to_nat topK) (sort (docAfter q) documents)).
Proof.
  intros Hk Hdim. destruct documents as [|d docs].
  - cbn. now rewrite firstn_nil.
  - unfold searchSimilar. cbn [length Nat.eqb].
    rewrite (scoreAll_ok q _ Hdim).
    rewrite sort_map, slice_firstn, firstn_map, map_map by assumption.
    cbn [document]. now rewrite map_id.
Qed.

Lemma searchSimilar_empty (q : list float) (topK : Z) :
  searchSimilar [] q topK = Ok [].
Proof. reflexivity. Qed.

(** C2 (search ranking), amended.  When every stored vector has the length
    of the query vector and no similarity is NaN, the similarities are the
    values of [cosine] and a search with [topK >= 0] returns
    [min topK count] documents, in non-increasing similarity;
    documents of equal similarity appear in insertion order (the returned
    ones are the first of their class); the documents left out have no
    higher similarity than the returned ones; the empty collection gives the
    empty sequence. *)
Theorem searchSimilar_ranking (documents : list Document) (q : list float)
  (topK : Z) :
  0 <= topK ->
  Forall (fun d => length (embedding d) = length q) documents ->
  Forall (fun d => is_nan (simOf q d) = false) documents ->
  (forall d, In d documents ->
             cosineSimilarity q (embedding d) = Ok (simOf q d)) /\
  exists res,
    searchSimilar documents q topK = Ok res /\
    len res = Z.min topK (len documents) /\
    (forall i j di dj,
        (i < j)%nat -> nth_error res i = Some di -> nth_error res j = Some dj ->
        (simOf q dj <=? simOf q di)%float = true) /\
    (forall d, In d documents ->
        exists rest,
          filter (sameSim q d) documents = filter (sameSim q d) res ++ rest) /\
    (exists others,
        Permutation documents (res ++ others) /\
        forall r o, In r res -> In o others ->
                    (simOf q o <=? simOf q r)%float = true) /\
    searchSimilar [] q topK = Ok [].
Proof.
  intros Hk Hdim Hnan. split.
  { intros d Hd. rewrite Forall_forall in Hdim.
    apply cosineSimilarity_same_length. symmetry. now apply Hdim. }
  rewrite Forall_forall in Hnan.
  set (P := fun d : Document => In d documents).
  assert (Hafter : forall x y, P x -> P y ->
            docAfter q x y = negb (simOf q y <=? simOf q x)%float).
  { intros x y Hx Hy. unfold docAfter, sortsAfter, comparator. cbn [similarity].
    apply Binary64Facts.sub_positive; now apply Hnan. }
  assert (Hasym : forall x y, P x -> P y ->
            docAfter q x y = true -> docAfter q y x = false).
  { intros x y Hx Hy. rewrite !Hafter by assumption.
    destruct (Binary64Facts.leb_total (simOf q x) (simOf q y)) as [H|H];
      try (now apply Hnan); rewrite H; [reflexivity|discriminate]. }
  assert (Htrans : forall x y z, P x -> P y -> P z ->
            docAfter q x y = false -> docAfter q y z = false ->
            docAfter q x z = false).
  { intros x y z Hx Hy Hz. rewrite !Hafter by assumption.
    rewrite !negb_false_iff. intros Hyx Hzy.
    apply (Binary64Facts.leb_trans _ (simOf q y)); auto. }
  assert (HP : Forall P documents) by (apply Forall_forall; auto).
  pose proof (sort_sorted (docAfter q) P Hasym Htrans documents HP) as Hsorted.
  pose proof (sort_perm (docAfter q) documents) as Hperm.
  pose proof (sort_Forall (docAfter q) P documents HP) as HPs.
  set (sorted := sort (docAfter q) documents) in *.
  rewrite <- (firstn_skipn (Z.to_nat topK) sorted) in Hsorted, Hperm, HPs.
  apply StronglySorted_app_inv in Hsorted. destruct Hsorted as (Hs1 & _ & Hs12).
  apply Forall_app in HPs. destruct HPs as [HP1 HP2].
  rewrite Forall_forall in HP1, HP2.
  exists (firstn (Z.to_nat topK) sorted).
  split; [now apply searchSimilar_sorted_prefix|]. split.
  { unfold len. rewrite length_firstn. unfold sorted.
    rewrite (Permutation_length (sort_perm (docAfter q) documents)). lia. }
  split.
  { intros i j di dj Hij Hi Hj.
    pose proof (StronglySorted_nth _ _ Hs1 i j di dj Hij Hi Hj) as H.
    cbv beta in H. rewrite Hafter in H.
    - now apply negb_false_iff in H.
    - apply HP1. eapply nth_error_In; eassumption.
    - apply HP1. eapply nth_error_In; eassumption. }
  split.
  { intros d Hd. exists (filter (sameSim q d) (skipn (Z.to_nat topK) sorted)).
    rewrite <- filter_app, firstn_skipn.
    assert (Hext : forall l, Forall P l ->
              filter (sameSim q d) l = filter (tie (docAfter q) d) l).
    { intros l Hl. apply filter_ext_in. intros e He.
      rewrite Forall_forall in Hl. unfold tie, sameSim.
      rewrite !Hafter, !negb_involutive by auto. apply andb_comm. }
    rewrite !Hext
      by (first [assumption | apply (sort_Forall (docAfter q) P); assumption]).
    symmetry. now apply (sort_stable (docAfter q) P Htrans). }
  split; [|reflexivity].
  exists (skipn (Z.to_nat topK) sorted). split; [now symmetry|].
  intros r o Hr Ho. specialize (Hs12 r o Hr Ho). cbv beta in Hs12.
  rewrite Hafter in Hs12 by auto. now apply negb_false_iff in Hs12.
Qed.

Lemma searchSimilar_ranking_witness :
  (0 <= 2 /\
   Forall (fun d => length (embedding d) = length [1; 0]%float)
     sampleDocuments /\
   Forall (fun d => is_nan (simOf [1; 0]%float d) = false) sampleDocuments) /\
  exists res,
    searchSimilar sampleDocuments [1; 0]%float 2 = Ok res /\
    len res = Z.min 2 (len sampleDocuments).
Proof.
  assert (H1 : 0 <= 2) by lia.
  assert (H2 : Forall (fun d => length (embedding d) = length [1; 0]%float)
                 sampleDocuments) by (repeat constructor).
  assert (H3 : Forall (fun d => is_nan (simOf [1; 0]%float d) = false)
                 sampleDocuments)
    by (repeat constructor).
  split; [auto|].
  destruct (searchSimilar_ranking sampleDocuments [1; 0]%float 2 H1 H2 H3)
    as (_ & res & Hres & Hlen & _).
  exists res. split; assumption.
Defined.

(** C2 as stated fails on a stored vector whose length differs from the
    query's: the search throws instead of returning documents. *)
Lemma searchSimilar_mismatch_throws :
  searchSimilar [mkDocument (lit "chunk_0_0") (lit "a") [1; 2]%float None]
    [1]%float 5 =
  Throw (Error (lit "Vectors must have the same length")) /\
  ~ exists res,
      searchSimilar [mkDocument (lit "chunk_0_0") (lit "a") [1; 2]%float None]
        [1]%float 5 = Ok res.
Proof.
  split; [vm_compute; reflexivity|].
  intros [res H]. vm_compute in H. discriminate.
Qed.

(** A NaN similarity leaves the comparator inconsistent: the second vector
    overflows against the query, its similarity is NaN, and in the returned
    order similarity 1 stands behind a smaller one. *)
Lemma searchSimilar_nan_order :
  let q := [0x1p511; 0]%float in
  let docs :=
    [mkDocument (lit "chunk_0_0") (lit "a") [1; 1]%float None;
     mkDocument (lit "chunk_1_0") (lit "b") [0x1p600; 0]%float None;
     mkDocument (lit "chunk_2_0") (lit "c") [1; 0]%float None] in
  map (fun d => is_nan (simOf q d)) docs = [false; true; false] /\
  match searchSimilar docs q 3 with
  | Ok res => map text res = [lit "a"; lit "b"; lit "c"] /\
              map (fun d => (simOf q d <? 1)%float) res = [true; false; false] /\
              map (fun d => (simOf q d =? 1)%float) res = [false; false; true]
  | Throw _ => False
  end.
Proof. vm_compute. repeat split; reflexivity. Qed.

(** *** More about similarity and search *)

Lemma dot_comm_from (a : list float) :
  forall b acc,
    fold_left (fun acc p => (acc + fst p * snd p)%float) (combine a b) acc =
    fold_left (fun acc p => (acc + fst p * snd p)%float) (combine b a) acc.
Proof.
  induction a as [|x a IH]; intros [|y b] acc; try reflexivity.
  cbn [combine fold_left fst snd]. rewrite (Binary64Facts.mul_comm x y). apply IH.
Qed.

Lemma dot_comm (a b : list float) : dot a b = dot b a.
Proof. apply dot_comm_from. Qed.

Lemma cosine_comm (a b : list float) : cosine a b = cosine b a.
Proof.
  unfold cosine. rewrite (orb_comm (norm a =? 0)%float).
  now rewrite (dot_comm a b), (Binary64Facts.mul_comm (norm a) (norm b)).
Qed.

(** X5: cosine similarity is symmetric, exactly: the two orders of the
    arguments give the same binary64 number, or the same error. *)
Theorem cosineSimilarity_symmetric (vecA vecB : list float) :
  cosineSimilarity vecA vecB = cosineSimilarity vecB vecA.
Proof.
  destruct (Nat.eq_dec (length vecA) (length vecB)) as [E|N].
  - rewrite (cosineSimilarity_same_length vecA vecB E).
    rewrite (cosineSimilarity_same_length vecB vecA (eq_sym E)).
    f_equal. apply cosine_comm.
  - rewrite (cosineSimilarity_mismatch vecA vecB N).
    now rewrite (cosineSimilarity_mismatch vecB vecA (not_eq_sym N)).
Qed.

Lemma norm_zero_from (a : list float) :
  Forall (fun x => (x =? 0)%float = true) a ->
  fold_left (fun acc x => (acc + x * x)%float) a 0%float = 0%float.
Proof.
  induction 1 as [|x a Hx _ IH]; [reflexivity|].
  cbn [fold_left]. rewrite (Binary64Facts.square_zero x Hx).
  replace (0 + 0)%float with 0%float by reflexivity. exact IH.
Qed.

Lemma norm_zero (a : list float) :
  Forall (fun x => (x =? 0)%float = true) a -> norm a = 0%float.
Proof. intros H. unfold norm. now rewrite (norm_zero_from a H). Qed.

(** X6: a vector whose components are all zero has similarity 0 with every
    vector of its length, whatever that vector holds (NaN and infinities
    included); in particular two empty vectors have similarity 0. *)
Theorem cosineSimilarity_zero_vector (vecA vecB : list float) :
  length vecA = length vecB ->
  Forall (fun x => (x =? 0)%float = true) vecA \/
  Forall (fun x => (x =? 0)%float = true) vecB ->
  cosineSimilarity vecA vecB = Ok 0%float.
Proof.
  intros Hl Hz. rewrite (cosineSimilarity_same_length vecA vecB Hl).
  f_equal. unfold cosine. destruct Hz as [Hz|Hz]; rewrite (norm_zero _ Hz).
  - reflexivity.
  - now rewrite orb_true_r.
Qed.

Lemma cosineSimilarity_zero_vector_witness :
  cosineSimilarity [0; -0]%float [nan; infinity] = Ok 0%float.
Proof.
  apply (cosineSimilarity_zero_vector [0; -0]%float [nan; infinity]).
  - reflexivity.
  - left. repeat constructor.
Defined.

(** X7: the search fails exactly when the collection holds a vector whose
    length differs from the query's, and then with the error of
    [cosineSimilarity]; the value of [topK] plays no part. *)
Theorem searchSimilar_fails_on_mismatch (documents : list Document)
  (q : list float) (topK : Z) :
  (Exists (fun d => length (embedding d) <> length q) documents ->
   searchSimilar documents q topK =
   Throw (Error (lit "Vectors must have the same length"))) /\
  (Forall (fun d => length (embedding d) = length q) documents ->
   exists res, searchSimilar documents q topK = Ok res) /\
  (forall e, searchSimilar documents q topK = Throw e ->
             e = Error (lit "Vectors must have the same length") /\
             Exists (fun d => length (embedding d) <> length q) documents).
Proof.
  assert (Hex : Exists (fun d => length (embedding d) <> length q) documents ->
                searchSimilar documents q topK =
                Throw (Error (lit "Vectors must have the same length"))).
  { intros H. unfold searchSimilar.
    destruct documents as [|d ds]; [inversion H|].
    cbn [length Nat.eqb]. now rewrite (scoreAll_mismatch q (d :: ds) H). }
  assert (Hall : Forall (fun d => length (embedding d) = length q) documents ->
                 exists res, searchSimilar documents q topK = Ok res).
  { intros H. unfold searchSimilar.
    destruct (length documents =? 0)%nat; [eauto|].
    rewrite (scoreAll_ok q documents H). eauto. }
  split; [exact Hex|]. split; [exact Hall|].
  intros e He.
  destruct (Forall_Exists_dec (fun d => length (embedding d) = length q)
              (fun d => Nat.eq_dec (length (embedding d)) (length q)) documents)
    as [Hf|Hx].
  - destruct (Hall Hf) as [res Hres]. congruence.
  - split; [|exact Hx]. rewrite (Hex Hx) in He. congruence.
Qed.

Lemma slice_0 {A : Type} (l : list A) (k : Z) :
  slice l 0 k = firstn (Z.to_nat (clampIndex (len l) k)) l.
Proof.
  unfold slice. pose proof (len_nonneg l).
  replace (clampIndex (len l) 0) with 0
    by (unfold clampIndex; cbn [Z.ltb Z.compare]; lia).
  cbn [Z.to_nat skipn]. now rewrite Z.sub_0_r.
Qed.

Lemma clampIndex_range (n k : Z) : 0 <= n -> 0 <= clampIndex n k <= n.
Proof.
  intros H. unfold clampIndex.
  destruct (k <? 0) eqn:E; [apply Z.ltb_lt in E|]; lia.
Qed.

(** X8: how many documents a search returns, for every integer [topK].  With
    all vectors of the query's length the search returns documents of the
    collection, none twice: [min topK count] of them for [topK >= 0], and
    for a negative [topK] all but the last [-topK] of the ranking
    ([slice(0, topK)] counts a negative end from the end). *)
Theorem searchSimilar_count (documents : list Document) (q : list float)
  (topK : Z) :
  Forall (fun d => length (embedding d) = length q) documents ->
  exists res others,
    searchSimilar documents q topK = Ok res /\
    Permutation documents (res ++ others) /\
    len res = (if topK <? 0 then Z.max (len documents + topK) 0
               else Z.min topK (len documents)).
Proof.
  intros Hdim. unfold searchSimilar.
  destruct documents as [|d ds].
  - exists [], []. split; [reflexivity|]. split; [constructor|].
    change (len (@nil Document)) with 0.
    destruct (topK <? 0) eqn:E;
      [apply Z.ltb_lt in E|apply Z.ltb_ge in E]; lia.
  - cbn [length Nat.eqb]. rewrite (scoreAll_ok q (d :: ds) Hdim).
    set (sims := map (fun d => mkScored d (simOf q d)) (d :: ds)).
    set (L := sort sortsAfter sims).
    assert (HL : Permutation L sims) by apply sort_perm.
    assert (Hlen : length L = length (d :: ds)).
    { rewrite (Permutation_length HL). unfold sims. apply length_map. }
    rewrite slice_0.
    set (n := Z.to_nat (clampIndex (len L) topK)).
    exists (map document (firstn n L)), (map document (skipn n L)).
    split; [reflexivity|]. split.
    + rewrite <- map_app, firstn_skipn.
      apply Permutation_sym.
      eapply Permutation_trans; [apply (Permutation_map document HL)|].
      unfold sims. rewrite map_map. cbn [document]. rewrite map_id.
      apply Permutation_refl.
    + pose proof (clampIndex_range (len L) topK (len_nonneg L)) as Hr.
      unfold len at 1. rewrite length_map, length_firstn.
      assert (E : len L = len (d :: ds)) by (unfold len; now rewrite Hlen).
      fold n. unfold n. rewrite E in *. unfold clampIndex in *.
      unfold len in *. rewrite Hlen.
      destruct (topK <? 0); lia.
Qed.

Lemma searchSimilar_count_witness :
  exists res others,
    searchSimilar sampleDocuments [1; 0]%float (-1) = Ok res /\
    Permutation sampleDocuments (res ++ others) /\
    len res = 2.
Proof.
  apply (searchSimilar_count sampleDocuments [1; 0]%float (-1)).
  repeat constructor.
Defined.

End VectorDbFacts.

(* ================================================================== *)
(** ** The crawler *)

Module CrawlerFacts.
Import JS JSFacts Exn Crawler.

(** *** Facts about sets, queues and request logs *)

Lemma has_In (l : list str) (u : str) : has l u = true <-> In u l.
Proof.
  induction l as [|v l IH]; cbn [has In]; [easy|].
  rewrite orb_true_iff, str_eqb_eq, IH. reflexivity.
Qed.

Lemma has_false (l : list str) (u : str) : has l u = false <-> ~ In u l.
Proof.
  rewrite <- has_In. destruct (has l u); split; congruence.
Qed.

Lemma scraped_app (l1 l2 : list Request) :
  scraped (l1 ++ l2) = scraped l1 ++ scraped l2.
Proof.
  induction l1 as [|[u [|]|u] l1 IH]; cbn [app scraped]; congruence.
Qed.

Lemma linkRequests_app (l1 l2 : list Request) :
  linkRequests (l1 ++ l2) = linkRequests l1 ++ linkRequests l2.
Proof.
  induction l1 as [|[u ok|u] l1 IH]; cbn [app linkRequests]; congruence.
Qed.

(** The enqueue loop appends to the queue links that are new to both the
    visited set and the queue, each once. *)
Lemma enqueue_spec (visited links : list str) :
  forall queue,
  exists added,
    enqueue visited queue links = queue ++ added /\
    NoDup added /\
    forall u, In u added ->
              In u links /\ ~ In u visited /\ ~ In u queue.
Proof.
  induction links as [|link rest IH]; intros queue; cbn [enqueue].
  - exists []. rewrite app_nil_r.
    split; [reflexivity|]. split; [constructor|]. intros ? [].
  - destruct (negb (has visited link) && negb (has queue link)) eqn:E.
    + apply andb_prop in E. destruct E as [Ev Eq].
      apply negb_true_iff in Ev, Eq. apply has_false in Ev, Eq.
      destruct (IH (queue ++ [link])) as (added & Heq & Hnd & Hin).
      exists (link :: added). rewrite Heq, <- app_assoc. split; [reflexivity|].
      split.
      * constructor; [|exact Hnd]. intros Hl.
        destruct (Hin _ Hl) as (_ & _ & Hq). apply Hq, in_or_app.
        right. now left.
      * intros u [<-|Hu]; [repeat split; [now left|assumption..]|].
        destruct (Hin _ Hu) as (H1 & H2 & H3).
        repeat split; [now right|assumption|].
        intros Hq. apply H3, in_or_app. now left.
    + destruct (IH queue) as (added & Heq & Hnd & Hin).
      exists added. repeat split; try assumption; try (now apply Hin).
      right. now apply Hin.
Qed.

Lemma enqueue_NoDup (visited queue links : list str) :
  NoDup queue -> NoDup (enqueue visited queue links).
Proof.
  intros Hq. destruct (enqueue_spec visited links queue)
    as (added & -> & Hnd & Hin).
  apply NoDup_app; [assumption..|].
  intros u Hu Ha. now apply (Hin u Ha).
Qed.

Lemma neverAgain_snoc (log : list Request) (r : Request) :
  neverAgain log ->
  (forall u ok, r = ReqPage u ok -> ~ In u (scraped log)) ->
  neverAgain (log ++ [r]).
Proof.
  intros Hlog Hr l1 u ok l2 Heq.
  destruct (exists_last (l := ReqPage u ok :: l2) ltac:(discriminate))
    as (l2' & y & Hl2).
  destruct l2' as [|x l2'].
  - cbn [app] in Hl2. rewrite Hl2 in Heq.
    apply app_inj_tail in Heq. destruct Heq as [<- <-].
    injection Hl2 as <- _. now apply (Hr u ok).
  - rewrite Hl2, app_assoc in Heq.
    apply app_inj_tail in Heq. destruct Heq as [Heq _].
    cbn [app] in Hl2. injection Hl2 as <- Hl2.
    apply (Hlog l1 u ok l2'). exact Heq.
Qed.

Section CrawlFacts.
Variable parseURL : str -> result URL.
Variable resolveURL : str -> str -> result URL.
Variable httpPage : nat -> str -> result (option str).
Variable httpAnchors : nat -> str -> result (list str).

Let step := crawlStep parseURL resolveURL httpPage httpAnchors.
Let iter := crawlIter parseURL resolveURL httpPage httpAnchors.

Lemma crawlStart_inv (baseUrl : str) : crawlInv (crawlStart baseUrl).
Proof.
  unfold crawlInv, crawlStart. cbn. repeat split; try constructor.
  - intros [].
  - constructor.
  - intros [|? ?] ? ? ? H; discriminate.
Qed.

Lemma crawlStep_inv (st st' : CrawlState) :
  crawlInv st -> step st = Some st' -> crawlInv st'.
Proof.
  intros (Hv & Hq & Hs & Hl & Hn) H. unfold step, crawlStep in H.
  destruct (urlsToVisit st) as [|cur queue] eqn:Eq; [discriminate|].
  destruct (len (visitedUrls st) <? maxPages); [|discriminate].
  inversion Hq as [|? ? Hcur Hq']; subst.
  destruct (has (visitedUrls st) cur) eqn:Eh.
  - injection H as <-. unfold crawlInv. cbn. auto.
  - apply has_false in Eh.
    destruct (scrapeSinglePage httpPage (length (requests st)) cur)
      as [pageContent|e].
    + injection H as <-. unfold crawlInv. cbn.
      rewrite scraped_app, linkRequests_app, Hs, Hl. cbn.
      repeat split; try reflexivity.
      * apply NoDup_app; [assumption|repeat constructor; intros []|].
        intros u Hu [<-|[]]. contradiction.
      * now apply enqueue_NoDup.
      * change (requests st ++ [ReqPage cur true; ReqLinks cur])
          with (requests st ++ [ReqPage cur true] ++ [ReqLinks cur]).
        rewrite app_assoc. apply neverAgain_snoc; [|discriminate].
        apply neverAgain_snoc; [assumption|].
        intros u ok [= <- _]. now rewrite Hs.
    + injection H as <-. unfold crawlInv. cbn.
      rewrite scraped_app, linkRequests_app, Hs, Hl. cbn.
      rewrite !app_nil_r. repeat split; try assumption.
      apply neverAgain_snoc; [assumption|].
      intros u ok [= <- _]. now rewrite Hs.
Qed.

Lemma crawlIter_inv (n : nat) :
  forall st, crawlInv st -> crawlInv (iter n st).
Proof.
  induction n as [|n IH]; intros st Hst; cbn; [assumption|].
  destruct (crawlStep parseURL resolveURL httpPage httpAnchors st)
    as [st'|] eqn:E; [|assumption].
  apply IH. eapply crawlStep_inv; eassumption.
Qed.

(** A state that the loop returns is the state after that many iterations. *)
Lemma crawlLoop_iter (fuel : nat) :
  forall st st',
    crawlLoop parseURL resolveURL httpPage httpAnchors fuel st = Some st' ->
    iter fuel st = st'.
Proof.
  unfold iter. induction fuel as [|f IH]; intros st st' H; cbn in *.
  - destruct (crawlStep _ _ _ _ st); [discriminate|congruence].
  - destruct (crawlStep _ _ _ _ st) as [st1|]; [now apply IH|congruence].
Qed.

(** An iteration either shortens the queue or visits one more page. *)
Lemma crawlStep_progress (st st' : CrawlState) :
  step st = Some st' ->
  len (visitedUrls st) < maxPages /\
  ((visitedUrls st' = visitedUrls st /\
    length (urlsToVisit st) = S (length (urlsToVisit st'))) \/
   length (visitedUrls st') = S (length (visitedUrls st))).
Proof.
  unfold step, crawlStep. intros H.
  destruct (urlsToVisit st) as [|cur queue]; [discriminate|].
  destruct (len (visitedUrls st) <? maxPages) eqn:E; [|discriminate].
  apply Z.ltb_lt in E. split; [exact E|].
  destruct (has (visitedUrls st) cur).
  - injection H as <-. cbn. now left.
  - destruct (scrapeSinglePage httpPage (length (requests st)) cur).
    + injection H as <-. cbn. right. rewrite length_app. cbn. lia.
    + injection H as <-. cbn. now left.
Qed.

(** The loop is left after finitely many iterations: at most [maxPages]
    of them visit a page, and the others shorten the queue. *)
Lemma crawlLoop_terminates :
  forall st, exists fuel st',
    crawlLoop parseURL resolveURL httpPage httpAnchors fuel st = Some st'.
Proof.
  assert (H : forall budget qlen st,
             (Z.to_nat (maxPages - len (visitedUrls st)) <= budget)%nat ->
             (length (urlsToVisit st) <= qlen)%nat ->
             exists fuel st',
               crawlLoop parseURL resolveURL httpPage httpAnchors fuel st =
               Some st').
  { induction budget as [|b IHb].
    - intros qlen st Hb _. exists 0%nat, st. cbn.
      destruct (crawlStep _ _ _ _ st) as [st1|] eqn:E; [|reflexivity].
      apply crawlStep_progress in E. unfold len in *. lia.
    - induction qlen as [|q IHq]; intros st Hb Hq.
      + exists 0%nat, st. cbn. unfold crawlStep.
        destruct (urlsToVisit st); [reflexivity|cbn in Hq; lia].
      + destruct (crawlStep parseURL resolveURL httpPage httpAnchors st)
          as [st1|] eqn:E.
        * destruct (crawlStep_progress _ _ E) as (Hlt & [[Hv Hl]|Hv]).
          -- destruct (IHq st1) as (fuel & st' & Hf);
               [rewrite Hv; exact Hb|lia|].
             exists (S fuel), st'. cbn. now rewrite E.
          -- destruct (IHb (length (urlsToVisit st1)) st1) as (fuel & st' & Hf);
               [unfold len in *; lia|lia|].
             exists (S fuel), st'. cbn. now rewrite E.
        * exists 0%nat, st. cbn. now rewrite E. }
  intros st. eapply H; reflexivity.
Qed.

End CrawlFacts.

(** C9 (crawl visit uniqueness), amended.  Whatever the web answers, after any
    number of iterations of one crawl session: the visited set holds each URL
    once and is exactly the sequence of successfully scraped pages, so no URL
    is scraped with success twice; [extractLinks] is called once per visited
    URL; a page is never requested again once it has been scraped; the
    frontier holds no URL twice; and the enqueue loop only adds links that
    are neither visited nor already in the frontier.  The same holds for the
    requests that [scrapeWebsite] reports. *)
Theorem crawl_visits_once
  (parseURL : str -> result URL) (resolveURL : str -> str -> result URL)
  (httpPage : nat -> str -> result (option str))
  (httpAnchors : nat -> str -> result (list str))
  (baseUrl : str) (n : nat) :
  let st :=
    crawlIter parseURL resolveURL httpPage httpAnchors n (crawlStart baseUrl) in
  NoDup (visitedUrls st) /\
  NoDup (urlsToVisit st) /\
  scraped (requests st) = visitedUrls st /\
  linkRequests (requests st) = visitedUrls st /\
  neverAgain (requests st) /\
  (forall visited queue links,
      exists added,
        enqueue visited queue links = queue ++ added /\
        NoDup added /\
        forall u, In u added ->
                  In u links /\ ~ In u visited /\ ~ In u queue) /\
  (forall r log,
      scrapeWebsite parseURL resolveURL httpPage httpAnchors n baseUrl =
        Some (r, log) ->
      NoDup (scraped log) /\ neverAgain log).
Proof.
  cbv zeta.
  pose proof (crawlIter_inv parseURL resolveURL httpPage httpAnchors n _
                (crawlStart_inv baseUrl)) as (Hv & Hq & Hs & Hl & Hn).
  repeat split; try assumption.
  - intros visited queue links. apply enqueue_spec.
  - unfold scrapeWebsite in H.
    destruct (parseURL baseUrl) as [u|e].
    + destruct (crawlLoop _ _ _ _ n (crawlStart baseUrl)) as [st|] eqn:E;
        [|discriminate].
      apply crawlLoop_iter in E. rewrite E in Hs, Hv.
      destruct (len (trim (join LF2 (allContent st))) =? 0);
        injection H as _ <-; now rewrite Hs.
    + injection H as _ <-. constructor.
  - unfold scrapeWebsite in H.
    destruct (parseURL baseUrl) as [u|e].
    + destruct (crawlLoop _ _ _ _ n (crawlStart baseUrl)) as [st|] eqn:E;
        [|discriminate].
      apply crawlLoop_iter in E. rewrite E in Hn.
      destruct (len (trim (join LF2 (allContent st))) =? 0);
        injection H as _ <-; exact Hn.
    + injection H as _ <-. intros [|? ?] ? ? ? ?; discriminate.
Qed.

(** C9 as stated fails: on the small site, with the first request for
    [/docs/x] failing, the crawl requests that page again when [/docs] links
    to it; and every visited page is requested twice, by [scrapeSinglePage]
    and by [extractLinks]. *)
Lemma crawl_requests_page_again :
  option_map snd
    (scrapeWebsite siteParse siteResolve (sitePage 2) siteAnchors 10 seedUrl) =
  Some [ReqPage seedUrl true; ReqLinks seedUrl;
        ReqPage pageA false;
        ReqPage pageB true; ReqLinks pageB;
        ReqPage pageA true; ReqLinks pageA] /\
  count_occ (list_eq_dec N.eq_dec)
    (pageRequests
       (requests (crawlIter siteParse siteResolve (sitePage 2) siteAnchors 10
                    (crawlStart seedUrl)))) pageA = 2%nat.
Proof. split; vm_compute; reflexivity. Qed.

(** *** [cleanText] *)

Lemma singleSpaced_app (l1 l2 : str) :
  singleSpaced (l1 ++ l2) = true ->
  singleSpaced l1 = true /\ singleSpaced l2 = true.
Proof.
  induction l1 as [|a r IH]; intros H; [split; [reflexivity|exact H]|].
  cbn [app singleSpaced] in *. apply andb_prop in H. destruct H as [Ha Hr].
  destruct (IH Hr) as [H1 H2]. split; [|exact H2].
  rewrite H1, andb_true_r. destruct r as [|b r']; cbn [app] in Ha.
  - now rewrite andb_false_r.
  - exact Ha.
Qed.

(** After the first replacement, white space occurs as single spaces
    only. *)
Lemma collapseWhiteSpace_spaces (s : str) :
  forall inRun,
    Forall (fun c => isWhiteSpace c = true -> c = 32%N)
      (collapseWhiteSpace inRun s).
Proof.
  induction s as [|c r IH]; intros inRun; cbn [collapseWhiteSpace];
    [constructor|].
  destruct (isWhiteSpace c) eqn:E.
  - destruct inRun; [apply IH|]. constructor; [reflexivity|apply IH].
  - constructor; [congruence|apply IH].
Qed.

Lemma collapseWhiteSpace_head (s : str) :
  match collapseWhiteSpace true s with
  | c :: _ => isWhiteSpace c = false
  | [] => True
  end.
Proof.
  induction s as [|c r IH]; [exact I|]. cbn [collapseWhiteSpace].
  destruct (isWhiteSpace c) eqn:E; [exact IH|exact E].
Qed.

Lemma collapseWhiteSpace_singleSpaced (s : str) :
  forall inRun, singleSpaced (collapseWhiteSpace inRun s) = true.
Proof.
  induction s as [|c r IH]; intros inRun; cbn [collapseWhiteSpace];
    [reflexivity|].
  destruct (isWhiteSpace c) eqn:E.
  - destruct inRun; [apply IH|]. cbn [singleSpaced]. rewrite IH, andb_true_r.
    pose proof (collapseWhiteSpace_head r) as Hh.
    destruct (collapseWhiteSpace true r) as [|b r']; [reflexivity|].
    now rewrite Hh.
  - cbn [singleSpaced]. now rewrite E, IH.
Qed.

Lemma collapseWhiteSpace_visible (s : str) :
  forall inRun, visible (collapseWhiteSpace inRun s) = visible s.
Proof.
  unfold visible. induction s as [|c r IH]; intros inRun;
    cbn [collapseWhiteSpace filter]; [reflexivity|].
  destruct (isWhiteSpace c) eqn:E; cbn [negb].
  - destruct inRun; [apply IH|]. cbn [filter]. 
    replace (isWhiteSpace 32) with true by reflexivity. apply IH.
  - cbn [filter]. rewrite E. cbn [negb]. f_equal. apply IH.
Qed.

(** The second replacement finds nothing to replace in a string without
    line feeds. *)
Lemma collapseNewlines_id (s : str) :
  Forall (fun c => c <> 10%N) s -> collapseNewlines 0 s = s.
Proof.
  induction 1 as [|c r Hc _ IH]; [reflexivity|].
  cbn [collapseNewlines]. apply N.eqb_neq in Hc. rewrite Hc.
  cbn [flushNewlines Nat.leb repeat app]. now rewrite IH.
Qed.

Lemma spaces_no_newline (s : str) :
  Forall (fun c => isWhiteSpace c = true -> c = 32%N) s ->
  Forall (fun c => c <> 10%N) s.
Proof.
  intros H. eapply Forall_impl; [|exact H]. cbn beta.
  intros c Hc ->. specialize (Hc eq_refl). discriminate.
Qed.

Lemma cleanText_eq (s : str) :
  cleanText s = trim (collapseWhiteSpace false s).
Proof.
  unfold cleanText. rewrite collapseNewlines_id; [reflexivity|].
  apply spaces_no_newline, collapseWhiteSpace_spaces.
Qed.

Lemma visible_all_space (l : str) :
  Forall (fun c => isWhiteSpace c = true) l -> visible l = [].
Proof.
  unfold visible. induction 1 as [|c r Hc _ IH]; [reflexivity|].
  cbn [filter]. now rewrite Hc.
Qed.

Lemma visible_trim (s : str) : visible (trim s) = visible s.
Proof.
  destruct (trim_infix s) as (pre & post & E & Hpre & Hpost).
  rewrite E at 2. unfold visible. rewrite !filter_app.
  fold (visible pre) (visible post) (visible (trim s)).
  rewrite (visible_all_space pre Hpre), (visible_all_space post Hpost).
  now rewrite app_nil_r.
Qed.

(** The shape of a cleaned text. *)
Lemma cleanText_shape (s : str) :
  Forall (fun c => isWhiteSpace c = true -> c = 32%N) (cleanText s) /\
  singleSpaced (cleanText s) = true /\
  trim (cleanText s) = cleanText s.
Proof.
  pose proof (collapseWhiteSpace_spaces s false) as Hsp.
  rewrite cleanText_eq.
  destruct (trim_infix (collapseWhiteSpace false s))
    as (pre & post & E & Hpre & Hpost).
  split; [|split].
  - rewrite E in Hsp. apply Forall_app in Hsp. destruct Hsp as [_ Hsp].
    apply Forall_app in Hsp. now destruct Hsp.
  - pose proof (collapseWhiteSpace_singleSpaced s false) as Hss.
    rewrite E in Hss. apply singleSpaced_app in Hss. destruct Hss as [_ Hss].
    apply singleSpaced_app in Hss. now destruct Hss.
  - apply trim_idempotent.
Qed.

(** X9: what [cleanText] returns.  All white space of the result is the
    single space character (no line feed survives, so the replacement of
    three or more line feeds never changes anything), no two spaces are
    adjacent, the result neither starts nor ends with white space, and the
    visible characters are those of the input, in order. *)
Theorem cleanText_normal_form (s : str) :
  collapseNewlines 0 (collapseWhiteSpace false s) = collapseWhiteSpace false s /\
  Forall (fun c => isWhiteSpace c = true -> c = 32%N) (cleanText s) /\
  singleSpaced (cleanText s) = true /\
  trim (cleanText s) = cleanText s /\
  visible (cleanText s) = visible s.
Proof.
  destruct (cleanText_shape s) as (Hsp & Hss & Htrim).
  split.
  - apply collapseNewlines_id, spaces_no_newline, collapseWhiteSpace_spaces.
  - repeat split; try assumption.
    now rewrite cleanText_eq, visible_trim, collapseWhiteSpace_visible.
Qed.

(** A string in which white space occurs as single spaces only is left
    alone by the first replacement. *)
Lemma collapseWhiteSpace_id (s : str) :
  Forall (fun c => isWhiteSpace c = true -> c = 32%N) s ->
  singleSpaced s = true ->
  forall inRun,
    (inRun = true -> match s with
                     | c :: _ => isWhiteSpace c = false
                     | [] => True
                     end) ->
    collapseWhiteSpace inRun s = s.
Proof.
  induction 1 as [|c r Hc _ IH]; intros Hss inRun Hh; [reflexivity|].
  cbn [singleSpaced] in Hss. apply andb_prop in Hss. destruct Hss as [Ha Hr].
  cbn [collapseWhiteSpace]. destruct (isWhiteSpace c) eqn:E.
  - destruct inRun; [specialize (Hh eq_refl); congruence|].
    rewrite (Hc eq_refl). f_equal. apply IH; [exact Hr|]. intros _.
    destruct r as [|b r']; [exact I|].
    cbn [andb negb] in Ha. now apply negb_true_iff in Ha.
  - f_equal. apply IH; [exact Hr|discriminate].
Qed.

(** X10: cleaning is idempotent: a cleaned text is left as it is. *)
Theorem cleanText_idempotent (s : str) :
  cleanText (cleanText s) = cleanText s.
Proof.
  destruct (cleanText_shape s) as (Hsp & Hss & Htrim).
  rewrite (cleanText_eq (cleanText s)).
  rewrite (collapseWhiteSpace_id _ Hsp Hss false); [exact Htrim|discriminate].
Qed.

(** *** The link filter *)

Lemma depth_nonneg (path : str) : forall inSegment, 0 <= depth inSegment path.
Proof.
  induction path as [|c r IH]; intros b; cbn [depth]; [lia|].
  destruct (c =? 47)%N; [apply IH|]. specialize (IH true). destruct b; lia.
Qed.

(** Extending a path never lowers its number of segments. *)
Lemma depth_prefix (p : str) :
  forall s inSegment,
    startsWith s p = true -> depth inSegment p <= depth inSegment s.
Proof.
  induction p as [|x p IH]; intros s b H.
  - cbn [depth]. apply depth_nonneg.
  - destruct s as [|y s]; [discriminate|]. cbn [startsWith] in H.
    apply andb_prop in H. destruct H as [Hx Hs]. apply N.eqb_eq in Hx. subst y.
    cbn [depth]. destruct (x =? 47)%N.
    + now apply IH.
    + specialize (IH s true Hs). lia.
Qed.

(** X11: the depth comparison of [extractLinks] never rejects a link.  A link
    that is accepted from the root page, or whose path properly extends the
    path of the current page, has at least as many path segments as the
    current page: whether a link is followed is decided by the test
    [isFromRoot || isChildPath] alone. *)
Theorem depth_check_never_rejects (currentPath linkPath : str) :
  goesDeeper currentPath linkPath =
  (str_eqb currentPath (lit "/") || str_eqb currentPath [])
  || (startsWith linkPath currentPath && negb (str_eqb linkPath currentPath)).
Proof.
  unfold goesDeeper.
  destruct (str_eqb currentPath (lit "/")) eqn:E1.
  - apply str_eqb_eq in E1. subst currentPath. cbn [orb andb].
    change (depth false (lit "/")) with 0.
    apply Z.leb_le, depth_nonneg.
  - destruct (str_eqb currentPath []) eqn:E2.
    + apply str_eqb_eq in E2. subst currentPath. cbn [orb andb depth].
      apply Z.leb_le, depth_nonneg.
    + cbn [orb]. destruct (startsWith linkPath currentPath) eqn:E3;
        [|reflexivity].
      cbn [andb]. destruct (negb (str_eqb linkPath currentPath));
        [|reflexivity].
      cbn [andb]. apply Z.leb_le. now apply depth_prefix.
Qed.

Lemma unique_from (links : list str) :
  forall acc,
    NoDup acc ->
    NoDup (fold_left (fun acc u => if has acc u then acc else acc ++ [u])
             links acc) /\
    forall u,
      In u (fold_left (fun acc u => if has acc u then acc else acc ++ [u])
              links acc) <-> In u acc \/ In u links.
Proof.
  induction links as [|l rest IH]; intros acc Hacc; cbn [fold_left].
  - split; [exact Hacc|]. intros u. cbn [In]. tauto.
  - destruct (has acc l) eqn:E.
    + destruct (IH acc Hacc) as [Hn Hi]. split; [exact Hn|].
      intros u. rewrite Hi. cbn [In]. apply has_In in E.
      split; [tauto|]. intros [H|[<-|H]]; tauto.
    + apply has_false in E.
      assert (Hacc' : NoDup (acc ++ [l])).
      { apply NoDup_app; [exact Hacc|repeat constructor; intros []|].
        intros u Hu [<-|[]]. contradiction. }
      destruct (IH (acc ++ [l]) Hacc') as [Hn Hi]. split; [exact Hn|].
      intros u. rewrite Hi, in_app_iff. cbn [In]. tauto.
Qed.

Lemma unique_NoDup (links : list str) : NoDup (unique links).
Proof. apply (unique_from links []). constructor. Qed.

Lemma unique_In (links : list str) (u : str) :
  In u (unique links) <-> In u links.
Proof.
  unfold unique. destruct (unique_from links [] (NoDup_nil _)) as [_ H].
  rewrite H. cbn [In]. tauto.
Qed.

Section LinkFacts.
Variable parseURL : str -> result URL.
Variable resolveURL : str -> str -> result URL.
Variable httpPage : nat -> str -> result (option str).
Variable httpAnchors : nat -> str -> result (list str).

Lemma linkOfAnchor_sound (url : str) (baseUrlObj : URL) (anchor link : str) :
  linkOfAnchor parseURL resolveURL url baseUrlObj anchor = Some link ->
  anchor <> [] /\
  exists resolved urlObj,
    resolveURL anchor url = Ok resolved /\
    link = href resolved /\
    parseURL link = Ok urlObj /\
    origin urlObj = origin baseUrlObj /\
    isExcluded urlObj = false /\
    goesDeeper (pathname baseUrlObj) (pathname urlObj) = true.
Proof.
  unfold linkOfAnchor. intros H.
  destruct (len anchor =? 0) eqn:El; [discriminate|].
  split; [intros ->; discriminate|].
  destruct (resolveURL anchor url) as [resolved|]; [|discriminate].
  destruct (parseURL (href resolved)) as [urlObj|] eqn:Ep; [|discriminate].
  destruct (str_eqb (origin urlObj) (origin baseUrlObj)) eqn:Eo;
    [|discriminate].
  destruct (isExcluded urlObj) eqn:Ex; [discriminate|].
  destruct (goesDeeper (pathname baseUrlObj) (pathname urlObj)) eqn:Eg;
    [|discriminate].
  cbn in H. injection H as <-. apply str_eqb_eq in Eo.
  exists resolved, urlObj. repeat split; assumption.
Qed.

Lemma collectLinks_In (url : str) (baseUrlObj : URL) (anchors : list str)
  (link : str) :
  In link (collectLinks parseURL resolveURL url baseUrlObj anchors) ->
  exists anchor,
    In anchor anchors /\
    linkOfAnchor parseURL resolveURL url baseUrlObj anchor = Some link.
Proof.
  induction anchors as [|a rest IH]; cbn [collectLinks]; [intros []|].
  destruct (linkOfAnchor parseURL resolveURL url baseUrlObj a) as [l|] eqn:E.
  - intros [<-|H].
    + exists a. split; [now left|exact E].
    + destruct (IH H) as (x & Hx & Hl). exists x. split; [now right|exact Hl].
  - intros H. destruct (IH H) as (x & Hx & Hl).
    exists x. split; [now right|exact Hl].
Qed.

(** What [extractLinks] returns: no link twice, and only links that come
    from an anchor of the page, resolve to the origin of the page, are not
    excluded and lie below the page. *)
Lemma extractLinks_spec (n : nat) (url : str) :
  NoDup (extractLinks parseURL resolveURL httpAnchors n url) /\
  forall link,
    In link (extractLinks parseURL resolveURL httpAnchors n url) ->
    exists anchors baseUrlObj anchor resolved urlObj,
      httpAnchors n url = Ok anchors /\
      parseURL url = Ok baseUrlObj /\
      In anchor anchors /\ anchor <> [] /\
      resolveURL anchor url = Ok resolved /\
      link = href resolved /\
      parseURL link = Ok urlObj /\
      origin urlObj = origin baseUrlObj /\
      isExcluded urlObj = false /\
      goesDeeper (pathname baseUrlObj) (pathname urlObj) = true.
Proof.
  unfold extractLinks.
  destruct (httpAnchors n url) as [anchors|]; [|split; [constructor|intros ? []]].
  destruct (parseURL url) as [baseUrlObj|];
    [|split; [constructor|intros ? []]].
  split; [apply unique_NoDup|].
  intros link Hl. apply (proj1 (unique_In _ _)) in Hl.
  destruct (collectLinks_In _ _ _ _ Hl) as (anchor & Ha & Hlink).
  destruct (linkOfAnchor_sound _ _ _ _ Hlink) as (Hne & resolved & urlObj & H).
  exists anchors, baseUrlObj, anchor, resolved, urlObj.
  repeat split; try assumption; apply H.
Qed.

End LinkFacts.

(** X12: the links that [extractLinks] returns.  No link is returned twice;
    every returned link is the resolved form of a non-empty [href] of the
    page, has the origin of the page, passes the exclusion list, and lies
    below the page (or the page is the root).  When the request fails, no
    link is returned. *)
Theorem extractLinks_sound
  (parseURL : str -> result URL) (resolveURL : str -> str -> result URL)
  (httpAnchors : nat -> str -> result (list str)) (n : nat) (url : str) :
  NoDup (extractLinks parseURL resolveURL httpAnchors n url) /\
  (forall link,
      In link (extractLinks parseURL resolveURL httpAnchors n url) ->
      exists anchors baseUrlObj anchor resolved urlObj,
        httpAnchors n url = Ok anchors /\
        parseURL url = Ok baseUrlObj /\
        In anchor anchors /\ anchor <> [] /\
        resolveURL anchor url = Ok resolved /\
        link = href resolved /\
        parseURL link = Ok urlObj /\
        origin urlObj = origin baseUrlObj /\
        isExcluded urlObj = false /\
        goesDeeper (pathname baseUrlObj) (pathname urlObj) = true) /\
  ((exists e, httpAnchors n url = Throw e) ->
   extractLinks parseURL resolveURL httpAnchors n url = []).
Proof.
  destruct (extractLinks_spec parseURL resolveURL httpAnchors n url) as [H1 H2].
  split; [exact H1|]. split; [exact H2|].
  intros [e He]. unfold extractLinks. now rewrite He.
Qed.

(** *** Invariants of the crawl *)

Lemma pageRequests_app (l1 l2 : list Request) :
  pageRequests (l1 ++ l2) = pageRequests l1 ++ pageRequests l2.
Proof.
  induction l1 as [|[u ok|u] l1 IH]; cbn [app pageRequests]; congruence.
Qed.

Section CrawlMore.
Variable parseURL : str -> result URL.
Variable resolveURL : str -> str -> result URL.
Variable httpPage : nat -> str -> result (option str).
Variable httpAnchors : nat -> str -> result (list str).

Let step := crawlStep parseURL resolveURL httpPage httpAnchors.
Let iter := crawlIter parseURL resolveURL httpPage httpAnchors.
Let loop := crawlLoop parseURL resolveURL httpPage httpAnchors.

Lemma crawlStep_budget (st st' : CrawlState) :
  withinBudget st -> step st = Some st' -> withinBudget st'.
Proof.
  intros [Hb Hc] H. unfold step, crawlStep in H.
  destruct (urlsToVisit st) as [|cur queue]; [discriminate|].
  destruct (len (visitedUrls st) <? maxPages) eqn:E; [|discriminate].
  apply Z.ltb_lt in E.
  destruct (has (visitedUrls st) cur).
  - injection H as <-. split; assumption.
  - destruct (scrapeSinglePage httpPage (length (requests st)) cur)
      as [pageContent|e].
    + injection H as <-. unfold withinBudget, len in *. cbn.
      rewrite length_app. cbn [length]. split; [lia|].
      destruct (0 <? Z.of_nat (length (trim pageContent)));
        [rewrite length_app; cbn [length]|]; lia.
    + injection H as <-. split; assumption.
Qed.

Lemma crawlIter_budget (n : nat) :
  forall st, withinBudget st -> withinBudget (iter n st).
Proof.
  induction n as [|n IH]; intros st Hst; cbn; [assumption|].
  destruct (crawlStep parseURL resolveURL httpPage httpAnchors st)
    as [st'|] eqn:E; [|assumption].
  apply IH. eapply crawlStep_budget; eassumption.
Qed.

Lemma crawlLoop_more_fuel (extra : nat) :
  forall fuel st st',
    loop fuel st = Some st' -> loop (fuel + extra) st = Some st'.
Proof.
  unfold loop. induction fuel as [|f IH]; intros st st' H.
  - cbn [crawlLoop] in H.
    destruct (crawlStep parseURL resolveURL httpPage httpAnchors st) eqn:E;
      [discriminate|].
    destruct extra; cbn [Nat.add crawlLoop]; now rewrite E.
  - cbn [crawlLoop Nat.add] in *.
    destruct (crawlStep parseURL resolveURL httpPage httpAnchors st);
      [now apply IH|exact H].
Qed.

Lemma onSite_origin (baseUrl : str) (b0 : URL) (u : str) (o : URL) :
  parseURL baseUrl = Ok b0 -> onSite parseURL baseUrl b0 u -> parseURL u = Ok o ->
  origin o = origin b0.
Proof.
  intros Hb (o' & Ho & [->|[H _]]) Hp; congruence.
Qed.

Lemma crawlStep_site (baseUrl : str) (b0 : URL) (st st' : CrawlState) :
  parseURL baseUrl = Ok b0 ->
  siteInv parseURL baseUrl b0 st -> step st = Some st' -> siteInv parseURL baseUrl b0 st'.
Proof.
  intros Hb (Hq & Hv & Hp & Hl) H. unfold step, crawlStep in H.
  destruct (urlsToVisit st) as [|cur queue]; [discriminate|].
  destruct (len (visitedUrls st) <? maxPages); [|discriminate].
  inversion Hq as [|? ? Hcur Hq']; subst.
  destruct (has (visitedUrls st) cur).
  - injection H as <-. repeat split; assumption.
  - destruct (scrapeSinglePage httpPage (length (requests st)) cur)
      as [pageContent|e].
    + injection H as <-. unfold siteInv. cbn.
      rewrite pageRequests_app, linkRequests_app. cbn.
      repeat split.
      * destruct (enqueue_spec (visitedUrls st)
                    (extractLinks parseURL resolveURL httpAnchors
                       (S (length (requests st))) cur) queue)
          as (added & -> & _ & Hadd).
        apply Forall_app. split; [assumption|].
        apply Forall_forall. intros u Hu.
        destruct (Hadd u Hu) as (Hin & _).
        destruct (extractLinks_spec parseURL resolveURL httpAnchors
                    (S (length (requests st))) cur) as [_ Hs].
        destruct (Hs u Hin)
          as (anchors & baseUrlObj & anchor & resolved & urlObj &
              _ & Hpb & _ & _ & _ & _ & Hpu & Ho & Hx & _).
        exists urlObj. split; [exact Hpu|]. right. split; [|exact Hx].
        rewrite Ho. eapply onSite_origin; eassumption.
      * apply Forall_app. split; [assumption|]. now repeat constructor.
      * apply Forall_app. split; [assumption|]. now repeat constructor.
      * apply Forall_app. split; [assumption|]. now repeat constructor.
    + injection H as <-. unfold siteInv. cbn.
      rewrite pageRequests_app, linkRequests_app. cbn. rewrite app_nil_r.
      repeat split; try assumption.
      apply Forall_app. split; [assumption|]. now repeat constructor.
Qed.

Lemma crawlIter_site (baseUrl : str) (b0 : URL) (n : nat) :
  parseURL baseUrl = Ok b0 ->
  forall st, siteInv parseURL baseUrl b0 st -> siteInv parseURL baseUrl b0 (iter n st).
Proof.
  intros Hb. induction n as [|n IH]; intros st Hst; cbn; [assumption|].
  destruct (crawlStep parseURL resolveURL httpPage httpAnchors st)
    as [st'|] eqn:E; [|assumption].
  apply IH. eapply crawlStep_site; eassumption.
Qed.

Lemma crawlStart_site (baseUrl : str) (b0 : URL) :
  parseURL baseUrl = Ok b0 -> siteInv parseURL baseUrl b0 (crawlStart baseUrl).
Proof.
  intros Hb. unfold siteInv, crawlStart. cbn.
  repeat split; try constructor; [|constructor].
  exists b0. split; [exact Hb|now left].
Qed.

End CrawlMore.

(** X13: the page budget.  A crawl scrapes at most 50 pages with success and
    asks at most 50 times for links, however large the site. *)
Theorem crawl_page_budget
  (parseURL : str -> result URL) (resolveURL : str -> str -> result URL)
  (httpPage : nat -> str -> result (option str))
  (httpAnchors : nat -> str -> result (list str))
  (fuel : nat) (baseUrl : str) (r : result str) (log : list Request) :
  scrapeWebsite parseURL resolveURL httpPage httpAnchors fuel baseUrl =
    Some (r, log) ->
  len (scraped log) <= maxPages /\ len (linkRequests log) <= maxPages.
Proof.
  unfold scrapeWebsite. intros H.
  destruct (parseURL baseUrl) as [b0|e].
  - destruct (crawlLoop parseURL resolveURL httpPage httpAnchors fuel
                (crawlStart baseUrl)) as [st|] eqn:E; [|discriminate].
    apply crawlLoop_iter in E.
    pose proof (crawlIter_inv parseURL resolveURL httpPage httpAnchors fuel _
                  (crawlStart_inv baseUrl)) as (_ & _ & Hs & Hl & _).
    assert (Hb0 : withinBudget (crawlStart baseUrl))
      by (split; cbn; [unfold maxPages; lia|lia]).
    pose proof (crawlIter_budget parseURL resolveURL httpPage httpAnchors fuel _
                  Hb0) as [Hb _].
    rewrite E in *.
    assert (log = requests st)
      by (destruct (len (trim (join LF2 (allContent st))) =? 0); congruence).
    subst log. rewrite Hs, Hl. split; exact Hb.
  - assert (log = []) by congruence. subst log. cbn. unfold maxPages. lia.
Qed.

Lemma crawl_page_budget_witness :
  len (scraped [ReqPage seedUrl true; ReqLinks seedUrl;
                ReqPage pageA false;
                ReqPage pageB true; ReqLinks pageB;
                ReqPage pageA true; ReqLinks pageA]) <= maxPages /\
  len (linkRequests [ReqPage seedUrl true; ReqLinks seedUrl;
                     ReqPage pageA false;
                     ReqPage pageB true; ReqLinks pageB;
                     ReqPage pageA true; ReqLinks pageA]) <= maxPages.
Proof.
  apply (crawl_page_budget siteParse siteResolve (sitePage 2) siteAnchors 10
           seedUrl
           (Ok (join LF2
                  [LF2 ++ lit "=== Page: https://a.com/ ===" ++ LF2 ++ lit "text";
                   LF2 ++ lit "=== Page: https://a.com/docs ===" ++ LF2 ++ lit "text";
                   LF2 ++ lit "=== Page: https://a.com/docs/x ===" ++ LF2 ++ lit "text"]))).
  vm_compute. reflexivity.
Defined.

(** X14: a crawl ends.  For every web there is an amount of fuel with which
    [scrapeWebsite] returns, and more fuel gives the same outcome: the loop
    cannot run forever, since at most 50 iterations visit a page and every
    other one shortens the queue. *)
Theorem scrapeWebsite_terminates
  (parseURL : str -> result URL) (resolveURL : str -> str -> result URL)
  (httpPage : nat -> str -> result (option str))
  (httpAnchors : nat -> str -> result (list str)) (baseUrl : str) :
  exists fuel outcome,
    forall extra,
      scrapeWebsite parseURL resolveURL httpPage httpAnchors (fuel + extra)
        baseUrl = Some outcome.
Proof.
  destruct (crawlLoop_terminates parseURL resolveURL httpPage httpAnchors
              (crawlStart baseUrl)) as (fuel & st & Hst).
  unfold scrapeWebsite. destruct (parseURL baseUrl) as [b0|e].
  - exists fuel,
      (if len (trim (join LF2 (allContent st))) =? 0
       then (Throw (HttpException (lit "No content found on any pages")
                      BAD_REQUEST), requests st)
       else (Ok (join LF2 (allContent st)), requests st)).
    intros extra.
    rewrite (crawlLoop_more_fuel parseURL resolveURL httpPage httpAnchors
               extra fuel _ _ Hst).
    cbn zeta.
    destruct (len (trim (join LF2 (allContent st))) =? 0); reflexivity.
  - exists 0%nat. eexists. intros extra. reflexivity.
Qed.

(** X15: the crawl stays on the seed's site.  Every URL that a crawl requests
    parses; it is the seed itself, or it has the origin of the seed and is
    not on the exclusion list. *)
Theorem crawl_stays_on_origin
  (parseURL : str -> result URL) (resolveURL : str -> str -> result URL)
  (httpPage : nat -> str -> result (option str))
  (httpAnchors : nat -> str -> result (list str))
  (fuel : nat) (baseUrl : str) (r : result str) (log : list Request) (u : str) :
  scrapeWebsite parseURL resolveURL httpPage httpAnchors fuel baseUrl =
    Some (r, log) ->
  In u (pageRequests log) \/ In u (linkRequests log) ->
  exists b0 o,
    parseURL baseUrl = Ok b0 /\ parseURL u = Ok o /\
    (u = baseUrl \/ (origin o = origin b0 /\ isExcluded o = false)).
Proof.
  unfold scrapeWebsite. intros H Hu.
  destruct (parseURL baseUrl) as [b0|e] eqn:Hb.
  - destruct (crawlLoop parseURL resolveURL httpPage httpAnchors fuel
                (crawlStart baseUrl)) as [st|] eqn:E; [|discriminate].
    apply crawlLoop_iter in E.
    pose proof (crawlIter_site parseURL resolveURL httpPage httpAnchors
                  baseUrl b0 fuel Hb _
                  (crawlStart_site parseURL baseUrl b0 Hb))
      as (_ & _ & Hp & Hl).
    rewrite E in *.
    assert (log = requests st)
      by (destruct (len (trim (join LF2 (allContent st))) =? 0); congruence).
    subst log. rewrite Forall_forall in Hp, Hl.
    destruct Hu as [Hu|Hu]; [apply Hp in Hu|apply Hl in Hu];
      destruct Hu as (o & Ho & Hcase); exists b0, o; auto.
  - assert (log = []) by congruence. subst log. now destruct Hu.
Qed.

Lemma crawl_stays_on_origin_witness :
  exists b0 o,
    siteParse seedUrl = Ok b0 /\ siteParse pageA = Ok o /\
    (pageA = seedUrl \/ (origin o = origin b0 /\ isExcluded o = false)).
Proof.
  apply (crawl_stays_on_origin siteParse siteResolve (sitePage 2) siteAnchors 10
           seedUrl
           (Ok (join LF2
                  [LF2 ++ lit "=== Page: https://a.com/ ===" ++ LF2 ++ lit "text";
                   LF2 ++ lit "=== Page: https://a.com/docs ===" ++ LF2 ++ lit "text";
                   LF2 ++ lit "=== Page: https://a.com/docs/x ===" ++ LF2 ++ lit "text"]))
           [ReqPage seedUrl true; ReqLinks seedUrl;
            ReqPage pageA false;
            ReqPage pageB true; ReqLinks pageB;
            ReqPage pageA true; ReqLinks pageA] pageA).
  - vm_compute. reflexivity.
  - left. cbn. right. now left.
Defined.

End CrawlerFacts.

(* ================================================================== *)
(** ** The orchestrator *)

Module RagFacts.
Import JS JSFacts Exn Rag.

(** *** The index during Initialize *)

Section OrchestratorFacts.
Variable scrapeWebsite : nat -> str -> result str.
Variable embedContent : nat -> str -> result (option (list float)).
Variable now : nat -> Z.

Lemma sameIndex_refl (st : RagState) : sameIndex st st.
Proof. split; reflexivity. Qed.

Lemma sameIndex_trans (a b c : RagState) :
  sameIndex a b -> sameIndex b c -> sameIndex a c.
Proof. unfold sameIndex. intros [? ?] [? ?]. split; congruence. Qed.

Lemma sameIndex_logCall (c : Call) (st : RagState) :
  sameIndex st (logCall c st).
Proof. split; reflexivity. Qed.

Lemma generateEmbedding_sameIndex (text : str) (st : RagState) :
  sameIndex st (snd (generateEmbedding embedContent text st)).
Proof.
  unfold generateEmbedding.
  destruct (embedContent (length (calls st)) text) as [[v|]|e]; cbn;
    apply sameIndex_logCall.
Qed.

Lemma startBatch_sameIndex (batch : list str) :
  forall st, sameIndex st (snd (startBatch embedContent batch st)).
Proof.
  induction batch as [|text rest IH]; intros st; cbn [startBatch].
  - apply sameIndex_refl.
  - pose proof (generateEmbedding_sameIndex text st) as H1.
    destruct (generateEmbedding embedContent text st) as [r st1].
    cbn [snd] in H1.
    pose proof (IH st1) as H2.
    destruct (startBatch embedContent rest st1) as [rs st2]. cbn [snd] in *.
    exact (sameIndex_trans _ _ _ H1 H2).
Qed.

Lemma embedLoop_sameIndex (fuel : nat) :
  forall texts embeddings st,
    sameIndex st (snd (embedLoop embedContent fuel texts embeddings st)).
Proof.
  induction fuel as [|f IH]; intros texts embeddings st.
  - destruct texts; cbn; apply sameIndex_refl.
  - destruct texts as [|t texts]; [apply sameIndex_refl|].
    cbn [embedLoop].
    pose proof (startBatch_sameIndex (firstn batchSize (t :: texts)) st) as H1.
    destruct (startBatch embedContent (firstn batchSize (t :: texts)) st)
      as [rs st1].
    cbn [snd] in H1.
    destruct (promiseAll rs) as [batchEmbeddings|e]; [|exact H1].
    exact (sameIndex_trans _ _ _ H1 (IH _ _ _)).
Qed.

Lemma scrapeAll_sameIndex (urls : list str) :
  forall allContent st,
    sameIndex st (snd (scrapeAll scrapeWebsite urls allContent st)).
Proof.
  induction urls as [|url rest IH]; intros allContent st; cbn [scrapeAll].
  - apply sameIndex_refl.
  - destruct (scrapeWebsite (length (calls st)) url);
      exact (sameIndex_trans _ _ _ (sameIndex_logCall _ st) (IH _ _)).
Qed.

(** When no crawl returns, no content is collected. *)
Lemma scrapeAll_all_fail (urls : list str) :
  (forall n url, exists e, scrapeWebsite n url = Throw e) ->
  forall allContent st,
    fst (scrapeAll scrapeWebsite urls allContent st) = Ok allContent.
Proof.
  intros Hfail. induction urls as [|url rest IH]; intros allContent st;
    cbn [scrapeAll]; [reflexivity|].
  destruct (Hfail (length (calls st)) url) as [e ->]. apply IH.
Qed.

(** A failing body has not touched the index: everything that can throw
    comes before [clearCollection]. *)
Lemma initializeBody_throw (websiteUrls : UrlArg) (st st' : RagState)
  (e : exn) :
  initializeBody scrapeWebsite embedContent now websiteUrls st =
  (Throw e, st') ->
  sameIndex st st'.
Proof.
  unfold initializeBody, bind. cbn [setWebsiteUrl].
  set (urls := match websiteUrls with OneUrl url => [url] | ManyUrls l => l end).
  set (st0 := mkRag (hd_error urls) (isInitialized st) (documents st) (calls st)).
  assert (H0 : sameIndex st st0) by (split; reflexivity).
  pose proof (scrapeAll_sameIndex urls [] st0) as H1.
  destruct (scrapeAll scrapeWebsite urls [] st0) as [[allContent|e1] st1];
    cbn [snd] in H1.
  - destruct (length allContent =? 0)%nat.
    + unfold throw. cbn beta. intros [= _ <-].
      exact (sameIndex_trans _ _ _ H0 H1).
    + destruct (length (Chunker.chunkText (join LF2 allContent)) =? 0)%nat.
      * unfold throw. cbn beta. intros [= _ <-].
        exact (sameIndex_trans _ _ _ H0 H1).
      * pose proof (embedLoop_sameIndex
                      (length (map Chunker.text
                                 (Chunker.chunkText (join LF2 allContent))))
                      (map Chunker.text
                         (Chunker.chunkText (join LF2 allContent))) [] st1)
          as H2.
        unfold generateEmbeddings.
        destruct (embedLoop embedContent _ _ [] st1) as [[embeddings|e2] st2];
          cbn [snd] in H2.
        -- cbn. discriminate.
        -- intros [= _ <-].
           exact (sameIndex_trans _ _ _ H0 (sameIndex_trans _ _ _ H1 H2)).
  - intros [= _ <-]. exact (sameIndex_trans _ _ _ H0 H1).
Qed.

(** A run in which every crawl fails is a failed run. *)
Lemma initialize_without_content (websiteUrls : UrlArg) (st : RagState) :
  (forall n url, exists e, scrapeWebsite n url = Throw e) ->
  fst (initializeRag scrapeWebsite embedContent now websiteUrls st) =
  Throw (HttpException
           (lit "Failed to initialize RAG: " ++
            lit "No content scraped from any website")
           INTERNAL_SERVER_ERROR).
Proof.
  intros Hfail. unfold initializeRag, tryCatch, initializeBody, bind.
  cbn [setWebsiteUrl].
  set (urls := match websiteUrls with OneUrl url => [url] | ManyUrls l => l end).
  set (st0 := mkRag (hd_error urls) (isInitialized st) (documents st) (calls st)).
  pose proof (scrapeAll_all_fail urls Hfail [] st0) as H.
  destruct (scrapeAll scrapeWebsite urls [] st0) as [r st1]. cbn [fst] in H.
  subst r. reflexivity.
Qed.

End OrchestratorFacts.

(** C7 (failed Initialize keeps the index).  A run of [initializeRag] that
    fails, for whatever answers of the scraper and of the embedder, leaves
    the collection of the vector database and the readiness flag as they
    were: the three causes of failure (no seed yields content, no chunk, the
    embedder fails) all come before [clearCollection]. *)
Theorem failed_initialize_keeps_index
  (scrapeWebsite : nat -> str -> result str)
  (embedContent : nat -> str -> result (option (list float)))
  (now : nat -> Z)
  (websiteUrls : UrlArg) (st st' : RagState) (e : exn) :
  initializeRag scrapeWebsite embedContent now websiteUrls st = (Throw e, st') ->
  documents st' = documents st /\ isInitialized st' = isInitialized st.
Proof.
  unfold initializeRag, tryCatch. intros H.
  destruct (initializeBody scrapeWebsite embedContent now websiteUrls st)
    as [[u|e1] st1] eqn:E; [discriminate|].
  unfold throw in H. injection H as _ <-.
  exact (initializeBody_throw _ _ _ _ _ _ _ E).
Qed.

Lemma failed_initialize_keeps_index_witness :
  documents
    (snd (initializeRag scraperDown embedderUp (fun _ => 0)
            (OneUrl (lit "https://b.com/")) readyState)) =
  documents readyState /\
  isInitialized
    (snd (initializeRag scraperDown embedderUp (fun _ => 0)
            (OneUrl (lit "https://b.com/")) readyState)) =
  isInitialized readyState.
Proof.
  apply (failed_initialize_keeps_index scraperDown embedderUp (fun _ => 0)
           (OneUrl (lit "https://b.com/")) readyState _
           (HttpException
              (lit "Failed to initialize RAG: No content scraped from any website")
              INTERNAL_SERVER_ERROR)).
  vm_compute. reflexivity.
Defined.

(** The run also fails, index untouched, when the embedder is down; the
    calls show that the scraper had answered (the only chunk of the short
    combined text is its leading paragraph break). *)
Lemma initialize_embedder_down :
  initializeRag scraperUp embedderDown (fun _ => 0)
    (OneUrl (lit "https://b.com/")) readyState =
  (Throw (HttpException
            (lit "Failed to initialize RAG: Failed to generate embedding: 429 Too Many Requests")
            INTERNAL_SERVER_ERROR),
   mkRag (Some (lit "https://b.com/")) true (documents readyState)
     [CallScrape (lit "https://b.com/"); CallEmbed LF2]).
Proof. vm_compute. reflexivity. Qed.

(** C8 (query before Ready), as amended.  While the index has never been
    populated ([isInitialized] is false), [query] throws a 400 and leaves
    the state as it was: no call is made to the embedder, to the vector
    index or to the answer generator.  The exception is the not-initialized
    error for a query that is not blank, and 'Query is required' for an
    empty or white-space query, which is rejected before the state is
    looked at. *)
Theorem query_before_ready
  (embedContent : nat -> str -> result (option (list float)))
  (chatCompletion : nat -> str -> result (option str))
  (q : str) (st : RagState) :
  isInitialized st = false ->
  snd (query embedContent chatCompletion q st) = st /\
  calls (snd (query embedContent chatCompletion q st)) = calls st /\
  fst (query embedContent chatCompletion q st) =
  Throw (HttpException
           (if len (trim q) =? 0 then lit "Query is required"
            else notInitializedMessage)
           BAD_REQUEST).
Proof.
  intros Hinit. unfold query.
  destruct (len q =? 0) eqn:Eq.
  - apply Z.eqb_eq in Eq. destruct q; [|discriminate].
    cbn. repeat split.
  - cbn [orb]. destruct (len (trim q) =? 0) eqn:Et.
    + cbn. repeat split.
    + rewrite Hinit. cbn. repeat split.
Qed.

Lemma query_before_ready_witness :
  isInitialized initialState = false /\
  fst (query embedderUp (fun _ _ => Ok None) (lit "hello") initialState) =
  Throw (HttpException notInitializedMessage BAD_REQUEST) /\
  calls (snd (query embedderUp (fun _ _ => Ok None) (lit "hello")
                initialState)) = [].
Proof.
  destruct (query_before_ready embedderUp (fun _ _ => Ok None) (lit "hello")
              initialState eq_refl) as (_ & Hcalls & Hmsg).
  split; [reflexivity|]. split; [exact Hmsg|exact Hcalls].
Defined.

(** C8 as stated fails on a blank query: three spaces pass the schema of
    the endpoint ([min(1)]), and before the first initialization [query]
    answers them with 'Query is required', not with the not-initialized
    error; the state is left as it was. *)
Lemma query_blank_before_ready :
  Controller.RagQueryDtoSchema (lit "   ") = true /\
  isInitialized initialState = false /\
  query embedderUp (fun _ _ => Ok None) (lit "   ") initialState =
  (Throw (HttpException (lit "Query is required") BAD_REQUEST),
   initialState) /\
  fst (query embedderUp (fun _ _ => Ok None) (lit "   ") initialState) <>
  Throw (HttpException notInitializedMessage BAD_REQUEST).
Proof.
  repeat split; try (vm_compute; reflexivity).
  vm_compute. discriminate.
Qed.

(** *** The embedder *)

Lemma appendCalls_nil (st : RagState) : appendCalls st [] = st.
Proof. destruct st. unfold appendCalls. cbn. now rewrite app_nil_r. Qed.

Lemma appendCalls_app (st : RagState) (a b : list Call) :
  appendCalls (appendCalls st a) b = appendCalls st (a ++ b).
Proof. unfold appendCalls. cbn. now rewrite app_assoc. Qed.

Lemma logCall_appendCalls (c : Call) (st : RagState) :
  logCall c st = appendCalls st [c].
Proof. reflexivity. Qed.

Lemma promiseAll_ok {A : Type} (rs : list (result A)) (l : list A) :
  promiseAll rs = Ok l -> rs = map Ok l.
Proof.
  revert l. induction rs as [|[a|e] rs IH]; intros l H; cbn [promiseAll] in H.
  - injection H as <-. reflexivity.
  - destruct (promiseAll rs) as [l'|]; [|discriminate].
    injection H as <-. cbn [map]. f_equal. now apply IH.
  - discriminate.
Qed.

Lemma promiseAll_throw {A : Type} (rs : list (result A)) (e : exn) :
  promiseAll rs = Throw e -> In (Throw e) rs.
Proof.
  induction rs as [|[a|e'] rs IH]; intros H; cbn [promiseAll] in H.
  - discriminate.
  - destruct (promiseAll rs) as [l'|]; [discriminate|].
    right. apply IH. congruence.
  - left. congruence.
Qed.

Section EmbedderFacts.
Variable embedContent : nat -> str -> result (option (list float)).

(** The outcome of the request for [text] issued as call number [n]. *)
Let answered (n : nat) (text : str) (r : result (list float)) : Prop :=
  match r with
  | Ok v => embedContent n text = Ok (Some v)
  | Throw e =>
      embeddingFailure e /\ forall v, embedContent n text <> Ok (Some v)
  end.

Lemma generateEmbedding_spec (text : str) (st : RagState) :
  snd (generateEmbedding embedContent text st) = appendCalls st [CallEmbed text]
  /\ answered (length (calls st)) text
       (fst (generateEmbedding embedContent text st)).
Proof.
  unfold generateEmbedding, answered.
  destruct (embedContent (length (calls st)) text) as [[v|]|e] eqn:E;
    cbn [fst snd]; (split; [reflexivity|]).
  - reflexivity.
  - split; [eexists; reflexivity|discriminate].
  - split; [eexists; reflexivity|discriminate].
Qed.

Lemma startBatch_spec (batch : list str) :
  forall st,
    snd (startBatch embedContent batch st) =
      appendCalls st (map CallEmbed batch) /\
    length (fst (startBatch embedContent batch st)) = length batch /\
    forall i text r,
      nth_error batch i = Some text ->
      nth_error (fst (startBatch embedContent batch st)) i = Some r ->
      answered (length (calls st) + i) text r.
Proof.
  induction batch as [|t rest IH]; intros st; cbn [startBatch].
  - cbn. split; [now rewrite appendCalls_nil|]. split; [reflexivity|].
    intros [|i]; discriminate.
  - destruct (generateEmbedding_spec t st) as [Hs Ha].
    destruct (generateEmbedding embedContent t st) as [r st1].
    cbn [fst snd] in Hs, Ha. subst st1.
    destruct (IH (appendCalls st [CallEmbed t])) as (Hs' & Hl & Hn).
    destruct (startBatch embedContent rest (appendCalls st [CallEmbed t]))
      as [rs st2].
    cbn [fst snd] in *. subst st2. split; [apply appendCalls_app|].
    split; [cbn [length]; now rewrite Hl|].
    intros [|i] text r0 Ht Hr; cbn [nth_error] in Ht, Hr.
    + injection Ht as <-. injection Hr as <-. now rewrite Nat.add_0_r.
    + specialize (Hn i text r0 Ht Hr). cbn [appendCalls calls] in Hn.
      rewrite length_app in Hn. cbn [length] in Hn.
      now replace (length (calls st) + S i)%nat
        with (length (calls st) + 1 + i)%nat by lia.
Qed.

(** The loop when it returns: one vector per text, each the answer to the
    request for that text. *)
Lemma embedLoop_ok (fuel : nat) :
  forall texts acc st embeddings st',
    (length texts <= fuel)%nat ->
    embedLoop embedContent fuel texts acc st = (Ok embeddings, st') ->
    st' = appendCalls st (map CallEmbed texts) /\
    exists new,
      embeddings = acc ++ new /\ length new = length texts /\
      forall i text,
        nth_error texts i = Some text ->
        exists v, nth_error new i = Some v /\
                  embedContent (length (calls st) + i)%nat text = Ok (Some v).
Proof.
  induction fuel as [|f IH]; intros texts acc st embeddings st' Hf H.
  - destruct texts; [|cbn in Hf; lia]. cbn in H. injection H as <- <-.
    split; [now rewrite appendCalls_nil|]. exists [].
    rewrite app_nil_r. repeat split. intros [|i]; discriminate.
  - destruct texts as [|t texts].
    + cbn in H. injection H as <- <-.
      split; [now rewrite appendCalls_nil|]. exists [].
      rewrite app_nil_r. repeat split. intros [|i]; discriminate.
    + cbn [embedLoop] in H.
      set (all := t :: texts) in *.
      destruct (startBatch_spec (firstn batchSize all) st) as (Hs & Hl & Hn).
      destruct (startBatch embedContent (firstn batchSize all) st)
        as [rs st1].
      cbn [fst snd] in Hs, Hl, Hn. subst st1.
      destruct (promiseAll rs) as [batchEmbeddings|e] eqn:Ep; [|discriminate].
      apply promiseAll_ok in Ep. subst rs. rewrite length_map in Hl.
      assert (Hrest : (length (skipn batchSize all) <= f)%nat).
      { rewrite length_skipn. unfold all, batchSize in *. cbn [length] in *. lia. }
      destruct (IH _ _ _ _ _ Hrest H) as (Hst & new & He & Hlen & Hnew).
      split.
      * rewrite Hst, appendCalls_app, <- map_app. now rewrite firstn_skipn.
      * exists (batchEmbeddings ++ new). split; [now rewrite He, app_assoc|].
        split.
        -- rewrite length_app, Hl, Hlen, <- length_app.
           now rewrite firstn_skipn.
        -- intros i text Hi.
           destruct (Nat.lt_ge_cases i (length (firstn batchSize all)))
             as [Hlt|Hge].
           ++ assert (Hi' : nth_error (firstn batchSize all) i = Some text).
              { rewrite <- (firstn_skipn batchSize all) in Hi.
                now rewrite nth_error_app1 in Hi. }
              assert (Hb : (i < length batchEmbeddings)%nat) by lia.
              destruct (nth_error batchEmbeddings i) as [v|] eqn:Ev;
                [|apply nth_error_None in Ev; lia].
              exists v. split; [rewrite nth_error_app1; assumption|].
              apply (Hn i text (Ok v) Hi').
              now rewrite nth_error_map, Ev.
           ++ assert (Hi' : nth_error (skipn batchSize all)
                              (i - length (firstn batchSize all)) = Some text).
              { rewrite <- (firstn_skipn batchSize all) in Hi.
                now rewrite nth_error_app2 in Hi. }
              destruct (Hnew _ _ Hi') as (v & Hv & Hc). exists v. split.
              ** rewrite nth_error_app2 by lia. now rewrite Hl.
              ** cbn [appendCalls calls] in Hc.
                 rewrite length_app, length_map in Hc.
                 now replace (length (calls st) + i)%nat
                   with (length (calls st) + length (firstn batchSize all) +
                         (i - length (firstn batchSize all)))%nat by lia.
Qed.

Lemma firstn_add {A : Type} (a b : nat) (l : list A) :
  firstn a l ++ firstn b (skipn a l) = firstn (a + b) l.
Proof.
  revert l. induction a as [|a IH]; intros l; [reflexivity|].
  destruct l as [|x l]; cbn [firstn skipn Nat.add app].
  - now rewrite firstn_nil.
  - now rewrite IH.
Qed.

(** The loop when it throws: the batches issued so far were issued whole,
    and a request of the last one was not answered with a vector. *)
Lemma embedLoop_throw (fuel : nat) :
  forall texts acc st e st',
    embedLoop embedContent fuel texts acc st = (Throw e, st') ->
    embeddingFailure e /\
    exists k : nat,
      (0 < k)%nat /\
      st' = appendCalls st (map CallEmbed (firstn (batchSize * k) texts)) /\
      exists i text,
        (batchSize * (k - 1) <= i < batchSize * k)%nat /\
        nth_error texts i = Some text /\
        forall v, embedContent (length (calls st) + i)%nat text <> Ok (Some v).
Proof.
  induction fuel as [|f IH]; intros texts acc st e st' H.
  - destruct texts; discriminate.
  - destruct texts as [|t texts]; [discriminate|].
    cbn [embedLoop] in H. set (all := t :: texts) in *.
    destruct (startBatch_spec (firstn batchSize all) st) as (Hs & Hl & Hn).
    destruct (startBatch embedContent (firstn batchSize all) st) as [rs st1].
    cbn [fst snd] in Hs, Hl, Hn. subst st1.
    destruct (promiseAll rs) as [batchEmbeddings|e1] eqn:Ep.
    + destruct (IH _ _ _ _ _ H) as (He & k & Hk & Hst & i & text & Hi & Ht & Hv).
      split; [exact He|]. exists (S k). split; [lia|].
      rewrite nth_error_skipn in Ht.
      assert (Hfull : length (firstn batchSize all) = batchSize).
      { apply firstn_length_le.
        assert (batchSize + i < length all)%nat
          by (apply nth_error_Some; congruence). lia. }
      split.
      * rewrite Hst, appendCalls_app, <- map_app. f_equal. f_equal.
        replace (batchSize * S k)%nat with (batchSize + batchSize * k)%nat
          by (unfold batchSize; lia).
        apply firstn_add.
      * exists (batchSize + i)%nat, text.
        split; [unfold batchSize in *; lia|]. split; [exact Ht|].
        intros v. specialize (Hv v). cbn [appendCalls calls] in Hv.
        rewrite length_app, length_map, Hfull in Hv.
        now rewrite Nat.add_assoc.
    + injection H as <- <-. apply promiseAll_throw in Ep.
      apply In_nth_error in Ep. destruct Ep as [i Hi].
      assert (Hlt : (i < length (firstn batchSize all))%nat)
        by (rewrite <- Hl; apply nth_error_Some; congruence).
      destruct (nth_error (firstn batchSize all) i) as [text|] eqn:Et;
        [|apply nth_error_None in Et; lia].
      destruct (Hn i text (Throw e1) Et Hi) as [He Hv].
      split; [exact He|]. exists 1%nat. split; [lia|].
      rewrite Nat.mul_1_r. split; [reflexivity|].
      exists i, text. rewrite length_firstn in Hlt.
      split; [unfold batchSize in *; lia|]. split; [|exact Hv].
      rewrite <- (firstn_skipn batchSize all).
      rewrite nth_error_app1; [exact Et|rewrite length_firstn; lia].
Qed.

End EmbedderFacts.

(** X16: what [generateEmbeddings] returns.  When it returns, there is one
    vector per text, in the order of the texts; the i-th vector is the
    answer of the embedder to the request for the i-th text; exactly one
    request per text has been issued, in order, and nothing else of the
    state has changed. *)
Theorem generateEmbeddings_one_vector_per_text
  (embedContent : nat -> str -> result (option (list float)))
  (texts : list str) (st st' : RagState) (embeddings : list (list float)) :
  generateEmbeddings embedContent texts st = (Ok embeddings, st') ->
  length embeddings = length texts /\
  st' = appendCalls st (map CallEmbed texts) /\
  forall i text,
    nth_error texts i = Some text ->
    exists v, nth_error embeddings i = Some v /\
              embedContent (length (calls st) + i)%nat text = Ok (Some v).
Proof.
  intros H. unfold generateEmbeddings in H.
  destruct (embedLoop_ok embedContent _ _ _ _ _ _ (Nat.le_refl _) H)
    as (Hst & new & He & Hl & Hn).
  cbn [app] in He. subst new. repeat split; assumption.
Qed.

Lemma generateEmbeddings_one_vector_per_text_witness :
  length [[1; 0]%float; [1; 0]%float] = length [lit "a"; lit "b"] /\
  appendCalls initialState [CallEmbed (lit "a"); CallEmbed (lit "b")] =
  appendCalls initialState (map CallEmbed [lit "a"; lit "b"]).
Proof.
  destruct (generateEmbeddings_one_vector_per_text embedderUp
              [lit "a"; lit "b"] initialState
              (appendCalls initialState
                 [CallEmbed (lit "a"); CallEmbed (lit "b")])
              [[1; 0]%float; [1; 0]%float]) as (H1 & H2 & _).
  - vm_compute. reflexivity.
  - split; [exact H1|exact H2].
Defined.

(** X17: how [generateEmbeddings] fails.  Every failure is an
    [HttpException] of status 500 whose message starts with
    ["Failed to generate embedding: "]; the requests issued are those of the
    first [k] batches of ten texts, whole, for some [k >= 1], and a request
    of the last of these batches was not answered with a vector: after a
    failure no further batch is started. *)
Theorem generateEmbeddings_failure
  (embedContent : nat -> str -> result (option (list float)))
  (texts : list str) (st st' : RagState) (e : exn) :
  generateEmbeddings embedContent texts st = (Throw e, st') ->
  embeddingFailure e /\
  exists k : nat,
    (0 < k)%nat /\
    st' = appendCalls st (map CallEmbed (firstn (batchSize * k) texts)) /\
    exists i text,
      (batchSize * (k - 1) <= i < batchSize * k)%nat /\
      nth_error texts i = Some text /\
      forall v, embedContent (length (calls st) + i)%nat text <> Ok (Some v).
Proof. apply embedLoop_throw. Qed.

Lemma generateEmbeddings_failure_witness :
  embeddingFailure
    (HttpException (lit "Failed to generate embedding: 429 Too Many Requests")
       INTERNAL_SERVER_ERROR).
Proof.
  apply (generateEmbeddings_failure embedderDown (repeat (lit "a") 12)
           initialState
           (appendCalls initialState (repeat (CallEmbed (lit "a")) 10))).
  vm_compute. reflexivity.
Defined.

(** *** Initialize and Query, case by case *)

Section InitializeFacts.
Variable scrapeWebsite : nat -> str -> result str.
Variable embedContent : nat -> str -> result (option (list float)).
Variable now : nat -> Z.

(** The scraping loop calls the scraper once per URL, in order, and
    collects one block per crawl that returned. *)
Lemma scrapeAll_spec (urls : list str) :
  forall allContent st,
  exists blocks,
    scrapeAll scrapeWebsite urls allContent st =
      (Ok (allContent ++ blocks), appendCalls st (map CallScrape urls)) /\
    Forall (fun b => b <> []) blocks /\
    (blocks = [] ->
     forall i url, nth_error urls i = Some url ->
       exists e, scrapeWebsite (length (calls st) + i)%nat url = Throw e).
Proof.
  induction urls as [|url rest IH]; intros allContent st; cbn [scrapeAll].
  - exists []. rewrite app_nil_r, appendCalls_nil.
    split; [reflexivity|]. split; [constructor|]. intros _ [|i]; discriminate.
  - rewrite logCall_appendCalls.
    destruct (scrapeWebsite (length (calls st)) url) as [content|e] eqn:E.
    + destruct (IH (allContent ++
                      [LF2 ++ lit "=== Website: " ++ url ++ lit " ===" ++ LF2 ++
                       content]) (appendCalls st [CallScrape url]))
        as (blocks & Hs & Hne & _).
      eexists (_ :: blocks). rewrite Hs, appendCalls_app, <- app_assoc.
      split; [reflexivity|]. split; [|discriminate].
      constructor; [discriminate|exact Hne].
    + destruct (IH allContent (appendCalls st [CallScrape url]))
        as (blocks & Hs & Hne & Hall).
      exists blocks. rewrite Hs, appendCalls_app.
      split; [reflexivity|]. split; [exact Hne|].
      intros Hb [|i] u Hu; cbn [nth_error] in Hu.
      * injection Hu as <-. rewrite Nat.add_0_r. eauto.
      * destruct (Hall Hb i u Hu) as [e' He']. exists e'.
        cbn [appendCalls calls] in He'. rewrite length_app in He'.
        cbn [length] in He'.
        now replace (length (calls st) + S i)%nat
          with (length (calls st) + 1 + i)%nat by lia.
Qed.

Lemma join_nonempty (sep : str) (blocks : list str) :
  blocks <> [] -> Forall (fun b => b <> []) blocks -> join sep blocks <> [].
Proof.
  intros Hb Hne. destruct blocks as [|b rest]; [contradiction|].
  inversion Hne as [|? ? Hb0 _]; subst.
  destruct b as [|c b']; [contradiction|].
  cbn [join]. destruct rest; discriminate.
Qed.

(** A text that is not empty has a chunk. *)
Lemma chunkText_nonempty (txt : str) :
  txt <> [] -> (0 < length (Chunker.chunkText txt))%nat.
Proof.
  intros H. pose proof (ChunkerFacts.chunkText_count txt) as Hc.
  assert (1 <= len txt) by (destruct txt; [contradiction|unfold len; cbn [length]; lia]).
  assert (1 <= (len txt + 999) / 1000).
  { apply Z.div_le_lower_bound; lia. }
  unfold len in Hc at 1. lia.
Qed.

Lemma mapIndexed_length {A B : Type} (f : nat -> A -> B) (l : list A) :
  forall i, length (mapIndexed f i l) = length l.
Proof.
  induction l as [|a r IH]; intros i; cbn [mapIndexed length];
    [reflexivity|]. now rewrite IH.
Qed.

(** The outcomes of the body of [initializeRag]. *)
Lemma initializeBody_cases (websiteUrls : UrlArg) (st : RagState) :
  let urls := urlsOf websiteUrls in
  let st0 := mkRag (hd_error urls) (isInitialized st) (documents st)
               (calls st) in
  let scraped := appendCalls st0 (map CallScrape urls) in
  (* no crawl returned *)
  (initializeBody scrapeWebsite embedContent now websiteUrls st =
     (Throw (HttpException (lit "No content scraped from any website")
               BAD_REQUEST), scraped) /\
   forall i url, nth_error urls i = Some url ->
     exists e, scrapeWebsite (length (calls st) + i)%nat url = Throw e) \/
  (* the embedder failed *)
  (exists e st',
      initializeBody scrapeWebsite embedContent now websiteUrls st =
        (Throw e, st') /\
      embeddingFailure e /\ websiteUrl st' = hd_error urls /\
      sameIndex st st' /\
      exists texts,
        calls st' = calls st ++ map CallScrape urls ++ map CallEmbed texts) \/
  (* the index was replaced *)
  (exists allContent embeddings,
      let chunks := Chunker.chunkText (join LF2 allContent) in
      let documents :=
        mapIndexed (buildDocument now urls embeddings) 0 chunks in
      initializeBody scrapeWebsite embedContent now websiteUrls st =
        (Ok tt,
         mkRag (hd_error urls) true documents
           (calls st ++ map CallScrape urls ++
            map CallEmbed (map Chunker.text chunks))) /\
      length embeddings = length chunks /\
      (0 < length chunks)%nat /\
      forall i text,
        nth_error (map Chunker.text chunks) i = Some text ->
        exists v, nth_error embeddings i = Some v /\
                  embedContent
                    (length (calls st) + length urls + i)%nat text =
                  Ok (Some v)).
Proof.
  cbn zeta. unfold initializeBody, bind. cbn [setWebsiteUrl].
  fold (urlsOf websiteUrls).
  set (urls := urlsOf websiteUrls).
  set (st0 := mkRag (hd_error urls) (isInitialized st) (documents st) (calls st)).
  destruct (scrapeAll_spec urls [] st0) as (blocks & Hs & Hne & Hall).
  rewrite Hs. cbn [app].
  destruct blocks as [|b blocks].
  - left. cbn [length Nat.eqb]. split; [reflexivity|].
    intros i url Hi. exact (Hall eq_refl i url Hi).
  - right. cbn [length Nat.eqb].
    set (allContent := b :: blocks) in *.
    pose proof (chunkText_nonempty (join LF2 allContent)
                  (join_nonempty LF2 allContent ltac:(discriminate) Hne))
      as Hchunks.
    destruct (length (Chunker.chunkText (join LF2 allContent)) =? 0)%nat eqn:E;
      [apply Nat.eqb_eq in E; lia|].
    set (chunks := Chunker.chunkText (join LF2 allContent)) in *.
    set (st1 := appendCalls st0 (map CallScrape urls)).
    destruct (generateEmbeddings embedContent (map Chunker.text chunks) st1)
      as [[embeddings|e] st2] eqn:Eg.
    + right. exists allContent, embeddings.
      destruct (embedLoop_ok embedContent _ _ _ _ _ _ (Nat.le_refl _) Eg)
        as (Hst & new & Hnew & Hl & Hn).
      cbn [app] in Hnew. subst new.
      rewrite length_map in Hl. fold chunks.
      split; [|split; [exact Hl|split; [exact Hchunks|]]].
      * subst st2. cbn. now rewrite <- app_assoc.
      * intros i text Hi. destruct (Hn i text Hi) as (v & Hv & Hc).
        exists v. split; [exact Hv|].
        unfold st1 in Hc. cbn [appendCalls calls st0] in Hc.
        now rewrite length_app, length_map in Hc.
    + left. exists e, st2. split; [reflexivity|].
      destruct (embedLoop_throw embedContent _ _ _ _ _ _ Eg)
        as (He & k & _ & Hst & _).
      split; [exact He|]. subst st2. split; [reflexivity|].
      split; [split; reflexivity|].
      eexists. cbn [appendCalls calls st1 st0]. now rewrite <- app_assoc.
Qed.

(** The calls of [initializeRag]: the scraper once per URL, in order, then
    the embedder only. *)
Lemma initializeRag_calls (websiteUrls : UrlArg) (st : RagState) :
  exists texts,
    calls (snd (initializeRag scrapeWebsite embedContent now websiteUrls st)) =
    calls st ++ map CallScrape (urlsOf websiteUrls) ++ map CallEmbed texts.
Proof.
  assert (Hst : snd (initializeRag scrapeWebsite embedContent now websiteUrls st)
                = snd (initializeBody scrapeWebsite embedContent now
                         websiteUrls st)).
  { unfold initializeRag, tryCatch.
    destruct (initializeBody scrapeWebsite embedContent now websiteUrls st)
      as [[[]|e] st']; reflexivity. }
  rewrite Hst.
  destruct (initializeBody_cases websiteUrls st)
    as [[Hb _]|[(e & st1 & Hb & _ & _ & _ & texts & Hc)
               |(allContent & embeddings & Hb & _)]];
    cbn zeta in *; rewrite Hb; cbn [snd].
  - exists []. cbn [appendCalls calls map]. now rewrite app_nil_r.
  - exists texts. exact Hc.
  - eexists. reflexivity.
Qed.

End InitializeFacts.

Lemma mapIndexed_nth {A B : Type} (f : nat -> A -> B) (l : list A) :
  forall k i, nth_error (mapIndexed f k l) i =
              option_map (f (k + i)%nat) (nth_error l i).
Proof.
  induction l as [|a r IH]; intros k i; cbn [mapIndexed].
  - now destruct i.
  - destruct i as [|i]; cbn [nth_error option_map].
    + now rewrite Nat.add_0_r.
    + rewrite IH. now replace (S k + i)%nat with (k + S i)%nat by lia.
Qed.

(** X18: what a successful [initializeRag] leaves behind.  The collection is
    replaced, not extended: it holds exactly one document per chunk of the
    combined content, in order, at least one; document [i] carries the text
    of chunk [i] without the markers, the span of that chunk, and the vector
    that the embedder returned for the text of that chunk.  The session is
    ready, [websiteUrl] is the first URL, and the scraper has been called
    once per URL, then the embedder once per chunk. *)
Theorem initializeRag_replaces_index
  (scrapeWebsite : nat -> str -> result str)
  (embedContent : nat -> str -> result (option (list float)))
  (now : nat -> Z) (websiteUrls : UrlArg) (st st' : RagState) :
  initializeRag scrapeWebsite embedContent now websiteUrls st = (Ok tt, st') ->
  exists allContent embeddings,
    let urls := urlsOf websiteUrls in
    let chunks := Chunker.chunkText (join LF2 allContent) in
    st' = mkRag (hd_error urls) true
            (mapIndexed (buildDocument now urls embeddings) 0 chunks)
            (calls st ++ map CallScrape urls ++
             map CallEmbed (map Chunker.text chunks)) /\
    (0 < length chunks)%nat /\
    length (documents st') = length chunks /\
    forall i c,
      nth_error chunks i = Some c ->
      exists d v,
        nth_error (documents st') i = Some d /\
        VectorDb.text d = stripMarkers 0 (Chunker.text c) /\
        VectorDb.embedding d = v /\
        embedContent (length (calls st) + length urls + i)%nat
          (Chunker.text c) = Ok (Some v) /\
        option_map VectorDb.meta_index (VectorDb.metadata d) =
          Some (Chunker.index c) /\
        option_map VectorDb.meta_startChar (VectorDb.metadata d) =
          Some (Chunker.startChar c) /\
        option_map VectorDb.meta_endChar (VectorDb.metadata d) =
          Some (Chunker.endChar c).
Proof.
  intros H. unfold initializeRag, tryCatch in H.
  destruct (initializeBody_cases scrapeWebsite embedContent now websiteUrls st)
    as [[Hb _]|[(e & st1 & Hb & _)|(allContent & embeddings & Hb & Hl & Hc & Hn)]];
    cbn zeta in *; rewrite Hb in H; try discriminate.
  injection H as <-. exists allContent, embeddings. cbn zeta.
  split; [reflexivity|]. split; [exact Hc|]. cbn [documents].
  split; [apply mapIndexed_length|].
  intros i c Hi.
  destruct (Hn i (Chunker.text c)) as (v & Hv & He);
    [now rewrite nth_error_map, Hi|].
  exists (buildDocument now (urlsOf websiteUrls) embeddings i c), v.
  split; [now rewrite mapIndexed_nth, Hi|].
  split; [reflexivity|]. split; [|split; [exact He|repeat split]].
  cbn [buildDocument VectorDb.embedding]. now apply nth_error_nth.
Qed.

Lemma initializeRag_replaces_index_witness :
  exists allContent embeddings,
    let urls := urlsOf (OneUrl (lit "https://b.com/")) in
    let chunks := Chunker.chunkText (join LF2 allContent) in
    mkRag (Some (lit "https://b.com/")) true
      [VectorDb.mkDocument (lit "chunk_0_0") LF2 [1; 0]%float
         (Some (VectorDb.mkMetadata 0 0 2 (Some (lit "https://b.com/"))
                  [lit "https://b.com/"]))]
      [CallScrape (lit "https://b.com/"); CallEmbed LF2] =
    mkRag (hd_error urls) true
      (mapIndexed (buildDocument (fun _ => 0) urls embeddings) 0 chunks)
      (calls readyState ++ map CallScrape urls ++
       map CallEmbed (map Chunker.text chunks)).
Proof.
  destruct (initializeRag_replaces_index scraperUp embedderUp (fun _ => 0)
              (OneUrl (lit "https://b.com/")) readyState
              (mkRag (Some (lit "https://b.com/")) true
                 [VectorDb.mkDocument (lit "chunk_0_0") LF2 [1; 0]%float
                    (Some (VectorDb.mkMetadata 0 0 2
                             (Some (lit "https://b.com/"))
                             [lit "https://b.com/"]))]
                 [CallScrape (lit "https://b.com/"); CallEmbed LF2]))
    as (allContent & embeddings & H & _).
  - vm_compute. reflexivity.
  - exists allContent, embeddings. exact H.
Defined.

(** X19: why [initializeRag] fails.  Every failure is an [HttpException] of
    status 500 whose message starts with ["Failed to initialize RAG: "],
    also when the cause was raised with status 400.  There are two causes
    only: every crawl threw (then the scraper was called once per URL and
    nothing else), or the embedder failed.  The error
    ["No content chunks created from websites"] cannot occur: content that
    was scraped always gives a chunk. *)
Theorem initializeRag_failure_causes
  (scrapeWebsite : nat -> str -> result str)
  (embedContent : nat -> str -> result (option (list float)))
  (now : nat -> Z) (websiteUrls : UrlArg) (st st' : RagState) (e : exn) :
  initializeRag scrapeWebsite embedContent now websiteUrls st = (Throw e, st') ->
  (e = HttpException
         (lit "Failed to initialize RAG: " ++
          lit "No content scraped from any website")
         INTERNAL_SERVER_ERROR /\
   calls st' = calls st ++ map CallScrape (urlsOf websiteUrls) /\
   forall i url,
     nth_error (urlsOf websiteUrls) i = Some url ->
     exists e', scrapeWebsite (length (calls st) + i)%nat url = Throw e') \/
  (exists detail,
      e = HttpException
            (lit "Failed to initialize RAG: " ++
             lit "Failed to generate embedding: " ++ detail)
            INTERNAL_SERVER_ERROR).
Proof.
  intros H. unfold initializeRag, tryCatch in H.
  destruct (initializeBody_cases scrapeWebsite embedContent now websiteUrls st)
    as [[Hb Hall]|[(e1 & st1 & Hb & He & _)|(allContent & embeddings & Hb & _)]];
    cbn zeta in *; rewrite Hb in H; try discriminate.
  - left. unfold throw in H. injection H as <- <-.
    split; [reflexivity|]. split; [reflexivity|exact Hall].
  - right. destruct He as [detail ->]. unfold throw in H.
    injection H as <- _. exists detail. reflexivity.
Qed.

Lemma initializeRag_failure_causes_witness :
  HttpException
    (lit "Failed to initialize RAG: Failed to generate embedding: 429 Too Many Requests")
    INTERNAL_SERVER_ERROR =
  HttpException
    (lit "Failed to initialize RAG: " ++ lit "No content scraped from any website")
    INTERNAL_SERVER_ERROR /\
  calls (mkRag (Some (lit "https://b.com/")) true (documents readyState)
           [CallScrape (lit "https://b.com/"); CallEmbed LF2]) =
  calls readyState ++ map CallScrape (urlsOf (OneUrl (lit "https://b.com/"))) /\
  (forall i url,
     nth_error (urlsOf (OneUrl (lit "https://b.com/"))) i = Some url ->
     exists e', scraperUp (length (calls readyState) + i)%nat url = Throw e') \/
  (exists detail,
      HttpException
        (lit "Failed to initialize RAG: Failed to generate embedding: 429 Too Many Requests")
        INTERNAL_SERVER_ERROR =
      HttpException
        (lit "Failed to initialize RAG: " ++
         lit "Failed to generate embedding: " ++ detail)
        INTERNAL_SERVER_ERROR).
Proof.
  apply (initializeRag_failure_causes scraperUp embedderDown (fun _ => 0)
           (OneUrl (lit "https://b.com/")) readyState).
  vm_compute. reflexivity.
Defined.

Section QueryFacts.
Variable embedContent : nat -> str -> result (option (list float)).
Variable chatCompletion : nat -> str -> result (option str).

(** The outcomes of a query that passes the two guards. *)
Lemma query_ready (q : str) (st : RagState) :
  len (trim q) <> 0 -> isInitialized st = true -> falsy (websiteUrl st) = false ->
  query embedContent chatCompletion q st =
  match embedContent (length (calls st)) q with
  | Ok (Some v) =>
      match VectorDb.searchSimilar (documents st) v 5 with
      | Ok similarDocs =>
          if (length similarDocs =? 0)%nat then
            (Throw (HttpException
                      (lit "No relevant content found for your query")
                      NOT_FOUND),
             appendCalls st [CallEmbed q; CallSearch v 5])
          else
            let prompt :=
              promptFor (join (LF2 ++ lit "---" ++ LF2)
                           (map VectorDb.text similarDocs)) q in
            (match chatCompletion (S (S (length (calls st)))) prompt with
             | Ok content =>
                 Ok (if falsy content then lit "No answer generated"
                     else match content with
                          | Some answer => answer
                          | None => []
                          end)
             | Throw e => Throw (queryError e)
             end,
             appendCalls st [CallEmbed q; CallSearch v 5; CallComplete prompt])
      | Throw e =>
          (Throw (queryError e), appendCalls st [CallEmbed q; CallSearch v 5])
      end
  | Ok None =>
      (Throw (HttpException
                (lit "Failed to generate embedding: " ++
                 lit "Invalid embedding response from Gemini")
                INTERNAL_SERVER_ERROR), appendCalls st [CallEmbed q])
  | Throw e =>
      (Throw (HttpException (lit "Failed to generate embedding: " ++ message e)
                INTERNAL_SERVER_ERROR), appendCalls st [CallEmbed q])
  end.
Proof.
  intros Hq Hi Hw. unfold query.
  assert (Hq0 : len q <> 0).
  { intros E. apply Hq. destruct q; [reflexivity|discriminate]. }
  apply Z.eqb_neq in Hq, Hq0. rewrite Hq, Hq0. cbn [orb]. cbn beta.
  rewrite Hi, Hw. cbn [orb negb].
  unfold tryCatch, bind, generateEmbedding.
  rewrite logCall_appendCalls.
  destruct (embedContent (length (calls st)) q) as [[v|]|e]; try reflexivity.
  unfold searchSimilar. rewrite logCall_appendCalls, appendCalls_app.
  cbn [app documents appendCalls].
  destruct (VectorDb.searchSimilar (documents st) v 5) as [docs|e].
  - destruct (length docs =? 0)%nat; [reflexivity|].
    unfold createCompletion, ret.
    rewrite logCall_appendCalls, appendCalls_app. cbn [app].
    cbn [appendCalls calls].
    rewrite length_app. cbn [length].
    replace (length (calls st) + 2)%nat with (S (S (length (calls st))))
      by lia.
    destruct (chatCompletion _ _) as [content|e]; [reflexivity|].
    unfold queryError, throw. destruct (isHttpException e); reflexivity.
  - unfold queryError, throw. destruct (isHttpException e); reflexivity.
Qed.

(** The outcomes of a query that a guard rejects. *)
Lemma query_rejected (q : str) (st : RagState) :
  len (trim q) = 0 \/ isInitialized st = false \/ falsy (websiteUrl st) = true ->
  exists msg,
    query embedContent chatCompletion q st =
    (Throw (HttpException msg BAD_REQUEST), st).
Proof.
  intros H. unfold query.
  destruct ((len q =? 0) || (len (trim q) =? 0)) eqn:E;
    [eexists; reflexivity|].
  apply orb_false_elim in E. destruct E as [_ E]. apply Z.eqb_neq in E.
  destruct H as [H|[H|H]]; [contradiction| |]; rewrite H; cbn [negb orb];
    [|rewrite orb_true_r]; eexists; reflexivity.
Qed.

Lemma query_guard_dec (q : str) (st : RagState) :
  (len (trim q) <> 0 /\ isInitialized st = true /\
   falsy (websiteUrl st) = false) \/
  (len (trim q) = 0 \/ isInitialized st = false \/
   falsy (websiteUrl st) = true).
Proof.
  destruct (Z.eq_dec (len (trim q)) 0); [tauto|].
  destruct (isInitialized st); [|tauto].
  destruct (falsy (websiteUrl st)); tauto.
Qed.

Lemma query_frame (q : str) (st : RagState) :
  exists new,
    snd (query embedContent chatCompletion q st) = appendCalls st new /\
    (new = [] \/ new = [CallEmbed q] \/
     (exists v, new = [CallEmbed q; CallSearch v 5]) \/
     (exists v prompt,
         new = [CallEmbed q; CallSearch v 5; CallComplete prompt])).
Proof.
  destruct (query_guard_dec q st) as [(Hq & Hi & Hw)|Hr].
  - rewrite (query_ready q st Hq Hi Hw).
    destruct (embedContent (length (calls st)) q) as [[v|]|e];
      try (eexists; split; [reflexivity|]; tauto).
    destruct (VectorDb.searchSimilar (documents st) v 5) as [docs|e];
      [|eexists; split; [reflexivity|]; eauto].
    destruct (length docs =? 0)%nat;
      eexists; (split; [reflexivity|]); eauto 6.
  - destruct (query_rejected q st Hr) as [msg ->].
    exists []. split; [now rewrite appendCalls_nil|tauto].
Qed.

End QueryFacts.

(** *** Searching, as the orchestrator uses it *)

Lemma scoreAll_documents (q : list float) (docs : list VectorDb.Document) :
  forall sims, VectorDb.scoreAll q docs = Ok sims ->
               map VectorDb.document sims = docs.
Proof.
  induction docs as [|d rest IH]; intros sims H; cbn [VectorDb.scoreAll] in H.
  - injection H as <-. reflexivity.
  - destruct (VectorDb.cosineSimilarity q (VectorDb.embedding d)) as [s|];
      [|discriminate].
    destruct (VectorDb.scoreAll q rest) as [l|]; [|discriminate].
    injection H as <-. cbn [map VectorDb.document]. f_equal. now apply IH.
Qed.

(** A search that returns gives documents of the collection, at most
    [topK] of them, and at least one when the collection is not empty and
    [topK] is positive. *)
Lemma searchSimilar_returns (docs : list VectorDb.Document) (q : list float)
  (topK : Z) (res : list VectorDb.Document) :
  0 < topK ->
  VectorDb.searchSimilar docs q topK = Ok res ->
  (forall d, In d res -> In d docs) /\
  len res <= topK /\
  (docs <> [] -> res <> []).
Proof.
  intros Hk H. unfold VectorDb.searchSimilar in H.
  destruct docs as [|d0 rest].
  - cbn in H. injection H as <-. split; [intros ? []|].
    split; [cbn; lia|congruence].
  - cbn [length Nat.eqb] in H.
    destruct (VectorDb.scoreAll q (d0 :: rest)) as [sims|] eqn:Es;
      [|discriminate].
    injection H as <-. apply scoreAll_documents in Es.
    set (L := VectorDb.sort VectorDb.sortsAfter sims).
    assert (HL : Permutation L sims) by apply VectorDbFacts.sort_perm.
    rewrite VectorDbFacts.slice_0.
    pose proof (VectorDbFacts.clampIndex_range (len L) topK (len_nonneg L))
      as Hr.
    assert (Hlen : length L = S (length rest)).
    { rewrite (Permutation_length HL), <- (length_map VectorDb.document), Es.
      reflexivity. }
    split; [|split].
    + intros d Hd. apply in_map_iff in Hd. destruct Hd as (x & <- & Hx).
      assert (Hx' : In x L)
        by (rewrite <- (firstn_skipn
                          (Z.to_nat (clampIndex (len L) topK)) L);
            apply in_or_app; now left).
      rewrite <- Es. apply in_map.
      apply (Permutation_in x HL Hx').
    + unfold len at 1. rewrite length_map, length_firstn.
      unfold clampIndex in *. destruct (topK <? 0) eqn:E;
        [apply Z.ltb_lt in E|]; lia.
    + intros _ Hnil. apply (f_equal (@length _)) in Hnil.
      rewrite length_map, length_firstn in Hnil. cbn [length] in Hnil.
      unfold clampIndex, len in *. rewrite Hlen in *.
      destruct (topK <? 0) eqn:E; [apply Z.ltb_lt in E|]; lia.
Qed.

(** X20: a query never changes the index.  Whatever its outcome, [query]
    leaves [websiteUrl], the readiness flag and the collection as they
    were; it makes at most three calls, in this order: the embedder with
    the query, the vector search with [topK = 5], the answer generator. *)
Theorem query_keeps_index
  (embedContent : nat -> str -> result (option (list float)))
  (chatCompletion : nat -> str -> result (option str))
  (q : str) (st : RagState) :
  websiteUrl (snd (query embedContent chatCompletion q st)) = websiteUrl st /\
  isInitialized (snd (query embedContent chatCompletion q st)) =
    isInitialized st /\
  documents (snd (query embedContent chatCompletion q st)) = documents st /\
  exists new,
    calls (snd (query embedContent chatCompletion q st)) = calls st ++ new /\
    (new = [] \/ new = [CallEmbed q] \/
     (exists v, new = [CallEmbed q; CallSearch v 5]) \/
     (exists v prompt,
         new = [CallEmbed q; CallSearch v 5; CallComplete prompt])).
Proof.
  destruct (query_frame embedContent chatCompletion q st) as (new & -> & Hn).
  repeat split. exists new. split; [reflexivity|exact Hn].
Qed.

(** X21: the exceptions of a query.  [query] throws [HttpException]s only.
    When a stored vector and the embedding of the query differ in length,
    the error of the vector search surfaces as status 500 with the message
    of [cosineSimilarity] behind the generic prefix, and the answer
    generator is not called. *)
Theorem query_throws_http_exceptions
  (embedContent : nat -> str -> result (option (list float)))
  (chatCompletion : nat -> str -> result (option str))
  (q : str) (st : RagState) :
  (forall e, fst (query embedContent chatCompletion q st) = Throw e ->
             isHttpException e = true) /\
  (forall v,
      len (trim q) <> 0 -> isInitialized st = true ->
      falsy (websiteUrl st) = false ->
      embedContent (length (calls st)) q = Ok (Some v) ->
      Exists (fun d => length (VectorDb.embedding d) <> length v)
        (documents st) ->
      query embedContent chatCompletion q st =
      (Throw (HttpException
                (lit "An error occurred while processing your query: " ++
                 lit "Vectors must have the same length")
                INTERNAL_SERVER_ERROR),
       appendCalls st [CallEmbed q; CallSearch v 5])).
Proof.
  split.
  - intros e. destruct (query_guard_dec q st) as [(Hq & Hi & Hw)|Hr].
    + rewrite (query_ready embedContent chatCompletion q st Hq Hi Hw).
      assert (Hwrap : forall x, isHttpException (queryError x) = true).
      { intros x. unfold queryError.
        destruct (isHttpException x) eqn:E; [exact E|reflexivity]. }
      destruct (embedContent (length (calls st)) q) as [[v|]|e0];
        cbn [fst]; try (intros [= <-]; reflexivity).
      destruct (VectorDb.searchSimilar (documents st) v 5) as [docs|e0];
        [|cbn [fst]; intros [= <-]; apply Hwrap].
      destruct (length docs =? 0)%nat; cbn [fst];
        [intros [= <-]; reflexivity|].
      destruct (chatCompletion _ _) as [c|e0]; [discriminate|].
      intros [= <-]. apply Hwrap.
    + destruct (query_rejected embedContent chatCompletion q st Hr)
        as [msg ->]. cbn [fst]. intros [= <-]. reflexivity.
  - intros v Hq Hi Hw He Hx.
    rewrite (query_ready embedContent chatCompletion q st Hq Hi Hw), He.
    unfold VectorDb.searchSimilar.
    destruct (documents st) as [|d ds] eqn:Ed; [inversion Hx|].
    cbn [length Nat.eqb].
    now rewrite (VectorDbFacts.scoreAll_mismatch v (d :: ds) Hx).
Qed.

(** X22: an answer is grounded.  When [query] returns an answer, the session
    was ready, the query was not blank, between one and five documents of
    the collection were retrieved for the embedding of the query, the
    prompt sent to the answer generator is built from their texts and the
    query, and the answer is the generated content, or
    ["No answer generated"] when there is none: an answer is never empty. *)
Theorem query_answer_is_grounded
  (embedContent : nat -> str -> result (option (list float)))
  (chatCompletion : nat -> str -> result (option str))
  (q : str) (st : RagState) (answer : str) :
  fst (query embedContent chatCompletion q st) = Ok answer ->
  answer <> [] /\ isInitialized st = true /\ len (trim q) <> 0 /\
  exists v similarDocs content,
    embedContent (length (calls st)) q = Ok (Some v) /\
    VectorDb.searchSimilar (documents st) v 5 = Ok similarDocs /\
    1 <= len similarDocs <= 5 /\
    (forall d, In d similarDocs -> In d (documents st)) /\
    chatCompletion (S (S (length (calls st))))
      (promptFor (join (LF2 ++ lit "---" ++ LF2)
                    (map VectorDb.text similarDocs)) q) = Ok content /\
    answer = (if falsy content then lit "No answer generated"
              else match content with
                   | Some a => a
                   | None => []
                   end) /\
    snd (query embedContent chatCompletion q st) =
      appendCalls st
        [CallEmbed q; CallSearch v 5;
         CallComplete
           (promptFor (join (LF2 ++ lit "---" ++ LF2)
                         (map VectorDb.text similarDocs)) q)].
Proof.
  intros H. destruct (query_guard_dec q st) as [(Hq & Hi & Hw)|Hr].
  - rewrite (query_ready embedContent chatCompletion q st Hq Hi Hw) in *.
    destruct (embedContent (length (calls st)) q) as [[v|]|e0] eqn:Ee;
      try discriminate.
    destruct (VectorDb.searchSimilar (documents st) v 5) as [docs|e0] eqn:Es;
      [|discriminate].
    destruct (length docs =? 0)%nat eqn:El; [discriminate|].
    cbn zeta in *. cbn [fst snd] in *.
    destruct (chatCompletion _ _) as [content|e0] eqn:Ec; [|discriminate].
    injection H as <-.
    split; [|split; [exact Hi|split; [exact Hq|]]].
    + destruct content as [a|]; cbn [falsy]; [|discriminate].
      destruct (len a =? 0) eqn:Ea; [discriminate|].
      intros ->. discriminate.
    + exists v, docs, content.
      destruct (searchSimilar_returns _ _ 5 _ ltac:(lia) Es) as (Hin & Hle & _).
      apply Nat.eqb_neq in El.
      repeat split; try assumption; try reflexivity.
      unfold len. lia.
  - destruct (query_rejected embedContent chatCompletion q st Hr) as [msg E].
    rewrite E in H. discriminate.
Qed.

Lemma query_answer_is_grounded_witness :
  lit "No answer generated" <> [] /\ isInitialized readyState = true.
Proof.
  destruct (query_answer_is_grounded embedderUp (fun _ _ => Ok None)
              (lit "hello") readyState (lit "No answer generated"))
    as (H1 & H2 & _).
  - vm_compute. reflexivity.
  - split; [exact H1|exact H2].
Defined.

(** *** The states of a session *)

Lemma initializeRag_state
  (scrapeWebsite : nat -> str -> result str)
  (embedContent : nat -> str -> result (option (list float)))
  (now : nat -> Z) (websiteUrls : UrlArg) (st : RagState) :
  snd (initializeRag scrapeWebsite embedContent now websiteUrls st) =
  snd (initializeBody scrapeWebsite embedContent now websiteUrls st).
Proof.
  unfold initializeRag, tryCatch.
  destruct (initializeBody scrapeWebsite embedContent now websiteUrls st)
    as [[[]|e] st']; reflexivity.
Qed.

(** In a session, a ready index is never empty. *)
Lemma reachable_ready (st : RagState) :
  reachable st -> isInitialized st = true -> documents st <> [].
Proof.
  induction 1 as [|scrape embed now arg st Hst IH|embed chat q st Hst IH].
  - discriminate.
  - rewrite initializeRag_state.
    destruct (initializeBody_cases scrape embed now arg st)
      as [[Hb _]|[(e & st1 & Hb & _ & _ & Hsame & _)
                 |(allContent & embeddings & Hb & _ & Hc & _)]];
      cbn zeta in *; rewrite Hb; cbn [snd].
    + exact IH.
    + destruct Hsame as [Hd Hi]. rewrite Hd, Hi. exact IH.
    + intros _ Hnil. apply (f_equal (@length _)) in Hnil.
      cbn [documents] in Hnil. rewrite mapIndexed_length in Hnil.
      cbn [length] in Hnil. lia.
  - destruct (query_frame embed chat q st) as (new & -> & _). exact IH.
Qed.

(** X23: the 404 of [query] is out of reach.  In every state of a session
    (any sequence of [initializeRag] and [query] calls from start-up, one
    after the other, whatever the collaborators answer) a ready index holds
    at least one document, so the search of a query returns at least one
    document or throws: unless the answer generator itself throws an
    [HttpException], no query ends with status 404, and
    ["No relevant content found for your query"] is never thrown. *)
Theorem query_never_not_found
  (embedContent : nat -> str -> result (option (list float)))
  (chatCompletion : nat -> str -> result (option str))
  (q : str) (st : RagState) :
  reachable st ->
  (forall n prompt e, chatCompletion n prompt = Throw e ->
                      isHttpException e = false) ->
  (isInitialized st = true -> documents st <> []) /\
  forall msg,
    fst (query embedContent chatCompletion q st) <>
    Throw (HttpException msg NOT_FOUND).
Proof.
  intros Hr Hchat. pose proof (reachable_ready st Hr) as Hne.
  split; [exact Hne|]. intros msg.
  destruct (query_guard_dec q st) as [(Hq & Hi & Hw)|Hrej].
  - rewrite (query_ready embedContent chatCompletion q st Hq Hi Hw).
    destruct (embedContent (length (calls st)) q) as [[v|]|e0];
      try discriminate.
    destruct (VectorDb.searchSimilar (documents st) v 5) as [docs|e0] eqn:Es.
    + destruct (searchSimilar_returns _ _ 5 _ ltac:(lia) Es) as (_ & _ & Hres).
      specialize (Hres (Hne Hi)).
      destruct docs as [|d ds]; [contradiction|]. cbn [length Nat.eqb fst].
      destruct (chatCompletion _ _) as [c|e0] eqn:Ec; [discriminate|].
      unfold queryError. rewrite (Hchat _ _ _ Ec). discriminate.
    + cbn [fst]. unfold VectorDb.searchSimilar in Es.
      destruct (length (documents st) =? 0)%nat; [discriminate|].
      destruct (VectorDb.scoreAll v (documents st)) as [sims|e1] eqn:Ea;
        [discriminate|].
      injection Es as <-.
      assert (He1 : isHttpException e1 = false).
      { clear -Ea. revert e1 Ea.
        induction (documents st) as [|d ds IH]; intros e1 Ea;
          cbn [VectorDb.scoreAll] in Ea; [discriminate|].
        unfold VectorDb.cosineSimilarity in Ea.
        destruct (negb (length v =? length (VectorDb.embedding d))%nat).
        - injection Ea as <-. reflexivity.
        - destruct (VectorDb.cosineLoop _ _ _ _ _) as [[dp na] nb].
          destruct ((sqrt na =? 0)%float || (sqrt nb =? 0)%float);
            (destruct (VectorDb.scoreAll v ds) as [l|e2];
             [discriminate|injection Ea as <-; now apply IH]). }
      unfold queryError. rewrite He1. discriminate.
  - destruct (query_rejected embedContent chatCompletion q st Hrej)
      as [m ->]. discriminate.
Qed.

Lemma query_never_not_found_witness :
  reachable
    (snd (initializeRag scraperUp embedderUp (fun _ => 0)
            (OneUrl (lit "https://b.com/")) initialState)) /\
  forall msg,
    fst (query embedderUp (fun _ _ => Ok None) (lit "hello")
           (snd (initializeRag scraperUp embedderUp (fun _ => 0)
                   (OneUrl (lit "https://b.com/")) initialState))) <>
    Throw (HttpException msg NOT_FOUND).
Proof.
  assert (H : reachable
                (snd (initializeRag scraperUp embedderUp (fun _ => 0)
                        (OneUrl (lit "https://b.com/")) initialState)))
    by (apply reach_initialize; apply reach_start).
  split; [exact H|].
  apply (query_never_not_found embedderUp (fun _ _ => Ok None) (lit "hello")
           (snd (initializeRag scraperUp embedderUp (fun _ => 0)
                   (OneUrl (lit "https://b.com/")) initialState)) H).
  discriminate.
Defined.

(** X24: [websiteUrl] changes before anything can fail.  After
    [initializeRag], failed or not, [websiteUrl] is the first URL given.
    With an empty list of URLs the run fails without a single call and
    leaves [websiteUrl] undefined: the collection and the readiness flag
    are kept, and yet every later query is rejected as not initialized. *)
Theorem initializeRag_overwrites_websiteUrl
  (scrapeWebsite : nat -> str -> result str)
  (embedContent : nat -> str -> result (option (list float)))
  (chatCompletion : nat -> str -> result (option str))
  (now : nat -> Z) (st : RagState) :
  (forall websiteUrls,
      websiteUrl (snd (initializeRag scrapeWebsite embedContent now
                         websiteUrls st)) =
      hd_error (urlsOf websiteUrls)) /\
  initializeRag scrapeWebsite embedContent now (ManyUrls []) st =
    (Throw (HttpException
              (lit "Failed to initialize RAG: " ++
               lit "No content scraped from any website")
              INTERNAL_SERVER_ERROR),
     mkRag None (isInitialized st) (documents st) (calls st)) /\
  (forall q,
      len (trim q) <> 0 ->
      query embedContent chatCompletion q
        (snd (initializeRag scrapeWebsite embedContent now (ManyUrls []) st)) =
      (Throw (HttpException notInitializedMessage BAD_REQUEST),
       mkRag None (isInitialized st) (documents st) (calls st))).
Proof.
  assert (Hempty :
            initializeRag scrapeWebsite embedContent now (ManyUrls []) st =
            (Throw (HttpException
                      (lit "Failed to initialize RAG: " ++
                       lit "No content scraped from any website")
                      INTERNAL_SERVER_ERROR),
             mkRag None (isInitialized st) (documents st) (calls st))).
  { reflexivity. }
  split; [|split; [exact Hempty|]].
  - intros websiteUrls. rewrite initializeRag_state.
    destruct (initializeBody_cases scrapeWebsite embedContent now websiteUrls st)
      as [[Hb _]|[(e & st1 & Hb & _ & Hw & _)
                 |(allContent & embeddings & Hb & _)]];
      cbn zeta in *; rewrite Hb; cbn [snd]; [reflexivity|exact Hw|reflexivity].
  - intros q Hq. rewrite Hempty. cbn [snd]. unfold query.
    assert (Hq0 : len q <> 0).
    { intros E. apply Hq. destruct q; [reflexivity|discriminate]. }
    apply Z.eqb_neq in Hq, Hq0. rewrite Hq, Hq0. cbn [orb]. cbn beta.
    cbn [websiteUrl falsy]. now rewrite orb_true_r.
Qed.

(** *** The markers *)

Lemma span_app (f : N -> bool) (run rest : str) :
  Forall (fun c => f c = true) run ->
  match rest with
  | c :: _ => f c = false
  | [] => True
  end ->
  span f (run ++ rest) = (run, rest).
Proof.
  intros Hrun Hrest. induction Hrun as [|c run Hc _ IH]; cbn [app span].
  - destruct rest as [|c r]; [reflexivity|]. cbn [span]. now rewrite Hrest.
  - now rewrite Hc, IH.
Qed.

Lemma startsWith_app (p s : str) : startsWith (p ++ s) p = true.
Proof.
  induction p as [|c p IH]; [now destruct s|].
  cbn [app startsWith]. now rewrite N.eqb_refl.
Qed.

Lemma endsWith_app (s p : str) : endsWith (s ++ p) p = true.
Proof. unfold endsWith. rewrite rev_app_distr. apply startsWith_app. Qed.

Lemma afterMarkerHead_marker (website : bool) (s : str) :
  afterMarkerHead (lit "=== " ++ (if website then lit "Website" else lit "Page")
                   ++ lit ": " ++ s) = Some s.
Proof. destruct website; reflexivity. Qed.

(** The source of a marker that stands at the head of the text. *)
Lemma sourceAt_marker (website secure : bool) (host tail : str) :
  host <> [] -> Forall (fun c => isWhiteSpace c = false) host ->
  sourceAt (lit "=== " ++ (if website then lit "Website" else lit "Page") ++
            lit ": " ++ (if secure then lit "https://" else lit "http://") ++
            host ++ lit " ===" ++ tail) =
  Some ((if secure then lit "https://" else lit "http://") ++ host).
Proof.
  intros Hne Hws.
  assert (Hspan : span (fun c => negb (isWhiteSpace c))
                    (host ++ lit " ===" ++ tail) = (host, lit " ===" ++ tail)).
  { apply span_app; [|reflexivity].
    eapply Forall_impl; [|exact Hws]. cbn beta. now intros c ->. }
  assert (Hlen : (0 <? len host) = true).
  { apply Z.ltb_lt. destruct host; [contradiction|]. unfold len. cbn [length]. lia. }
  unfold sourceAt. rewrite afterMarkerHead_marker.
  destruct secure.
  - change (stripPrefix (lit "http") (lit "https://" ++ host ++ lit " ===" ++ tail))
      with (Some (lit "s://" ++ host ++ lit " ===" ++ tail)).
    cbv iota beta zeta.
    change (stripPrefix (lit "s://") (lit "s://" ++ host ++ lit " ===" ++ tail))
      with (Some (host ++ lit " ===" ++ tail)).
    cbv iota beta. rewrite Hspan, Hlen.
    now rewrite (startsWith_app (lit " ===") tail).
  - change (stripPrefix (lit "http") (lit "http://" ++ host ++ lit " ===" ++ tail))
      with (Some (lit "://" ++ host ++ lit " ===" ++ tail)).
    cbv iota beta zeta.
    change (stripPrefix (lit "s://") (lit "://" ++ host ++ lit " ===" ++ tail))
      with (@None str).
    change (stripPrefix (lit "://") (lit "://" ++ host ++ lit " ===" ++ tail))
      with (Some (host ++ lit " ===" ++ tail)).
    cbv iota beta. rewrite Hspan, Hlen.
    now rewrite (startsWith_app (lit " ===") tail).
Qed.

Lemma matchSource_hit (s u : str) :
  sourceAt s = Some u -> matchSource s = Some u.
Proof. intros H. destruct s; cbn [matchSource]; now rewrite H. Qed.

Lemma matchSource_skip (c : N) (s : str) :
  sourceAt (c :: s) = None -> matchSource (c :: s) = matchSource s.
Proof. intros H. cbn [matchSource]. now rewrite H. Qed.

Lemma markerLengthAt_marker (website : bool) (url tail : str) :
  url <> [] -> Forall (fun c => c <> 10%N) url ->
  markerLengthAt (lit "=== " ++ (if website then lit "Website" else lit "Page")
                  ++ lit ": " ++ url ++ lit " ===" ++ LF2 ++ tail) =
  Some (length (lit "=== " ++ (if website then lit "Website" else lit "Page")
                ++ lit ": " ++ url ++ lit " ===" ++ LF2)).
Proof.
  intros Hne Hnl. unfold markerLengthAt. rewrite afterMarkerHead_marker.
  assert (Hspan : span (fun c => negb (c =? 10)%N)
                    ((url ++ lit " ===") ++ LF2 ++ tail) =
                  (url ++ lit " ===", LF2 ++ tail)).
  { apply span_app; [|reflexivity]. apply Forall_app. split.
    - eapply Forall_impl; [|exact Hnl]. cbn beta. intros c Hc.
      apply N.eqb_neq in Hc. now rewrite Hc.
    - repeat constructor. }
  rewrite <- app_assoc in Hspan. rewrite Hspan.
  rewrite endsWith_app, (startsWith_app LF2 tail).
  assert (Hl : (5 <=? length (url ++ lit " ==="))%nat = true).
  { apply Nat.leb_le. rewrite length_app.
    change (length (lit " ===")) with 4%nat.
    destruct url; [contradiction|cbn [length]; lia]. }
  rewrite Hl. cbn [andb]. f_equal.
  rewrite !length_app.
  change (length (lit "=== ")) with 4%nat.
  change (length (lit ": ")) with 2%nat.
  change (length (lit " ===")) with 4%nat.
  change (length LF2) with 2%nat.
  destruct website;
    [change (length (lit "Website")) with 7%nat
    |change (length (lit "Page")) with 4%nat]; lia.
Qed.

Lemma stripMarkers_skip (k : nat) :
  forall pre tail,
    length pre = k -> stripMarkers k (pre ++ tail) = stripMarkers 0 tail.
Proof.
  induction k as [|k IH]; intros pre tail Hl.
  - destruct pre; [reflexivity|discriminate].
  - destruct pre as [|c pre]; [discriminate|]. cbn [app stripMarkers].
    apply IH. now injection Hl.
Qed.

(** Removing a marker that stands at the head of the text. *)
Lemma stripMarkers_marker (website : bool) (url tail : str) :
  url <> [] -> Forall (fun c => c <> 10%N) url ->
  stripMarkers 0 (lit "=== " ++ (if website then lit "Website" else lit "Page")
                  ++ lit ": " ++ url ++ lit " ===" ++ LF2 ++ tail) =
  stripMarkers 0 tail.
Proof.
  intros Hne Hnl.
  pose proof (markerLengthAt_marker website url tail Hne Hnl) as Hm.
  set (marker := lit "=== " ++ (if website then lit "Website" else lit "Page")
                 ++ lit ": " ++ url ++ lit " ===" ++ LF2) in *.
  replace (lit "=== " ++ (if website then lit "Website" else lit "Page")
           ++ lit ": " ++ url ++ lit " ===" ++ LF2 ++ tail)
    with (marker ++ tail) in *
    by (unfold marker; now rewrite <- !app_assoc).
  destruct marker as [|c m] eqn:Em; [now destruct website|].
  cbn [app stripMarkers]. cbn [app] in Hm. rewrite Hm. cbn [length].
  now apply stripMarkers_skip.
Qed.

Lemma includes_app (pre p post : str) : includes (pre ++ p ++ post) p = true.
Proof.
  induction pre as [|c pre IH]; cbn [app].
  - pose proof (startsWith_app p post) as H.
    destruct (p ++ post); cbn [includes]; now rewrite H.
  - cbn [includes]. rewrite IH. apply orb_true_r.
Qed.

(** X25: the markers are read back.  A block that the scraping loops write,
    two line feeds, a marker line [=== Website: url ===] or
    [=== Page: url ===] and an empty line in front of the content, gives its
    URL back as the source of the document built from it, provided the URL
    starts with [http://] or [https://] and holds no white space; and the
    marker line is removed from the stored text. *)
Theorem marker_round_trip (website secure : bool) (host body : str)
  (now : nat -> Z) (urls : list str) (embeddings : list (list float))
  (i : nat) (index startChar endChar : Z) :
  host <> [] -> Forall (fun c => isWhiteSpace c = false) host ->
  let url := (if secure then lit "https://" else lit "http://") ++ host in
  let block :=
    LF2 ++ lit "=== " ++ (if website then lit "Website" else lit "Page") ++
    lit ": " ++ url ++ lit " ===" ++ LF2 ++ body in
  let d := buildDocument now urls embeddings i
             (Chunker.mkChunk block index startChar endChar) in
  matchSource block = Some url /\
  stripMarkers 0 block = LF2 ++ stripMarkers 0 body /\
  option_map VectorDb.meta_source (VectorDb.metadata d) = Some (Some url) /\
  VectorDb.text d = LF2 ++ stripMarkers 0 body.
Proof.
  intros Hne Hws. cbn zeta.
  set (url := (if secure then lit "https://" else lit "http://") ++ host).
  set (marker := lit "=== " ++ (if website then lit "Website" else lit "Page")
                 ++ lit ": " ++ url ++ lit " ===" ++ LF2 ++ body).
  assert (Hsrc : sourceAt marker = Some url).
  { unfold marker, url. rewrite <- app_assoc.
    now apply sourceAt_marker. }
  assert (Hm : matchSource (LF2 ++ marker) = Some url).
  { change (LF2 ++ marker) with (10%N :: 10%N :: marker).
    rewrite !matchSource_skip by reflexivity.
    now apply matchSource_hit. }
  assert (Hurl : url <> [] /\ Forall (fun c => c <> 10%N) url).
  { unfold url. split; [now destruct secure|].
    apply Forall_app. split.
    - destruct secure; repeat constructor; discriminate.
    - eapply Forall_impl; [|exact Hws]. cbn beta. intros c Hc ->.
      discriminate. }
  assert (Hs : stripMarkers 0 (LF2 ++ marker) = LF2 ++ stripMarkers 0 body).
  { change (LF2 ++ marker) with (10%N :: 10%N :: marker).
    change (stripMarkers 0 (10%N :: 10%N :: marker))
      with (10%N :: 10%N :: stripMarkers 0 marker).
    unfold marker. now rewrite (stripMarkers_marker website url body). }
  split; [exact Hm|]. split; [exact Hs|].
  unfold buildDocument.
  cbn [Chunker.text VectorDb.metadata VectorDb.text option_map
       VectorDb.meta_source].
  split; [|exact Hs]. rewrite Hm.
  assert (Hi : includes (LF2 ++ marker) (lit "=== Page:")
               || includes (LF2 ++ marker) (lit "=== Website:") = true).
  { unfold marker. destruct website.
    - rewrite orb_true_iff. right.
      change (lit "=== " ++ lit "Website" ++ lit ": " ++ url ++ lit " ===" ++
              LF2 ++ body)
        with (lit "=== Website:" ++ lit " " ++ url ++ lit " ===" ++ LF2 ++ body).
      apply includes_app.
    - rewrite orb_true_iff. left.
      change (lit "=== " ++ lit "Page" ++ lit ": " ++ url ++ lit " ===" ++
              LF2 ++ body)
        with (lit "=== Page:" ++ lit " " ++ url ++ lit " ===" ++ LF2 ++ body).
      apply includes_app. }
  now rewrite Hi.
Qed.

Lemma marker_round_trip_witness :
  matchSource (LF2 ++ lit "=== Website: https://a.com/ ===" ++ LF2 ++
               lit "Some text") = Some (lit "https://a.com/") /\
  stripMarkers 0 (LF2 ++ lit "=== Website: https://a.com/ ===" ++ LF2 ++
                  lit "Some text") = LF2 ++ lit "Some text".
Proof.
  destruct (marker_round_trip true true (lit "a.com/") (lit "Some text")
              (fun _ => 0) [] [] 0 0 0 0) as (H1 & H2 & _).
  - discriminate.
  - repeat constructor.
  - split; [exact H1|exact H2].
Defined.

(** *** Start-up and the controller *)

(** *** [split] *)

Lemma split_plain (sep : N) (u : str) :
  Forall (fun c => c <> sep) u -> split sep u = [u].
Proof.
  induction 1 as [|c u Hc _ IH]; [reflexivity|].
  cbn [split]. apply N.eqb_neq in Hc. now rewrite Hc, IH.
Qed.

Lemma split_app (sep : N) (u s : str) :
  Forall (fun c => c <> sep) u ->
  split sep (u ++ sep :: s) = u :: split sep s.
Proof.
  induction 1 as [|c u Hc _ IH]; cbn [app split].
  - now rewrite N.eqb_refl.
  - apply N.eqb_neq in Hc. now rewrite Hc, IH.
Qed.

Lemma split_parts (sep : N) (s : str) :
  Forall (fun p => Forall (fun c => c <> sep) p) (split sep s).
Proof.
  induction s as [|c r IH]; cbn [split]; [repeat constructor|].
  destruct (c =? sep)%N eqn:E.
  - constructor; [constructor|exact IH].
  - apply N.eqb_neq in E. destruct (split sep r) as [|p ps].
    + repeat constructor. exact E.
    + inversion IH; subst. constructor; [now constructor|assumption].
Qed.

Lemma trim_space (u : str) : trim (32%N :: u) = trim u.
Proof. reflexivity. Qed.

Lemma trim_keeps (P : N -> Prop) (s : str) :
  Forall P s -> Forall P (trim s).
Proof.
  intros H. destruct (trim_infix s) as (pre & post & E & _).
  rewrite E in H. apply Forall_app in H. destruct H as [_ H].
  apply Forall_app in H. now destruct H.
Qed.

Lemma split_join (urls : list str) :
  Forall (fun u => Forall (fun c => c <> 44%N) u) urls ->
  split 44 (join (lit ", ") urls) =
  match urls with
  | [] => [[]]
  | u :: rest => u :: map (cons 32%N) rest
  end.
Proof.
  induction 1 as [|u rest Hu Hrest IH]; [reflexivity|].
  destruct rest as [|v rest'].
  - cbn [join map]. now apply split_plain.
  - change (join (lit ", ") (u :: v :: rest'))
      with (u ++ 44%N :: 32%N :: join (lit ", ") (v :: rest')).
    rewrite (split_app 44 u _ Hu). f_equal.
    cbn [split]. change (32 =? 44)%N with false. cbv iota.
    rewrite IH. reflexivity.
Qed.

(** X26: the list of URLs read from [RAG_WEBSITE_URL].  Every URL of the list
    is non-empty, has no white space at either end and holds no comma; and
    a list of such URLs, written with [", "] between them (as the service
    logs it), is read back as it was. *)
Theorem parseUrls_round_trip :
  (forall websiteUrl,
      Forall (fun url => url <> [] /\ trim url = url /\ ~ In 44%N url)
        (parseUrls websiteUrl)) /\
  (forall urls,
      Forall (fun url => url <> [] /\ trim url = url /\ ~ In 44%N url) urls ->
      parseUrls (join (lit ", ") urls) = urls).
Proof.
  split.
  - intros s. unfold parseUrls. apply Forall_forall. intros u Hu.
    apply filter_In in Hu. destruct Hu as [Hu Hlen].
    apply in_map_iff in Hu. destruct Hu as (p & <- & Hp).
    split; [|split].
    + intros E. rewrite E in Hlen. discriminate.
    + apply trim_idempotent.
    + pose proof (split_parts 44 s) as Hparts.
      rewrite Forall_forall in Hparts. specialize (Hparts p Hp).
      apply (trim_keeps (fun c => c <> 44%N)) in Hparts.
      rewrite Forall_forall in Hparts. intros Hin. now apply (Hparts 44%N).
  - intros urls Hurls. unfold parseUrls. rewrite split_join.
    + destruct urls as [|u rest]; [reflexivity|].
      assert (Hall : forall l,
                 Forall (fun url => url <> [] /\ trim url = url /\
                                    ~ In 44%N url) l ->
                 filter (fun url => 0 <? len url)
                   (map trim (map (cons 32%N) l)) = l).
      { induction 1 as [|x l (Hx & Ht & _) _ IHl]; [reflexivity|].
        cbn [map filter]. rewrite trim_space, Ht.
        destruct x as [|c x]; [contradiction|].
        change (0 <? len (c :: x)) with (0 <? Z.pos (Pos.of_succ_nat (length x))).
        cbn [Z.ltb Z.compare]. now rewrite IHl. }
      inversion Hurls as [|? ? (Hx & Ht & _) Hrest]; subst.
      cbn [map filter]. rewrite Ht.
      destruct u as [|c u]; [contradiction|].
      change (0 <? len (c :: u)) with (0 <? Z.pos (Pos.of_succ_nat (length u))).
      cbn [Z.ltb Z.compare]. f_equal. now apply Hall.
    + eapply Forall_impl; [|exact Hurls]. cbn beta.
      intros u (_ & _ & Hc). apply Forall_forall. intros c Hin ->.
      contradiction.
Qed.

Section StartupProofs.
Variable scrapeWebsite : nat -> str -> result str.
Variable embedContent : nat -> str -> result (option (list float)).
Variable now : nat -> Z.

(** After [initializeRag] the index is as before, or ready and not
    empty. *)
Lemma initializeRag_index (websiteUrls : UrlArg) (st : RagState) :
  let st' := snd (initializeRag scrapeWebsite embedContent now websiteUrls st) in
  sameIndex st st' \/ (isInitialized st' = true /\ documents st' <> []).
Proof.
  cbn zeta. rewrite initializeRag_state.
  destruct (initializeBody_cases scrapeWebsite embedContent now websiteUrls st)
    as [[Hb _]|[(e & st1 & Hb & _ & _ & Hsame & _)
               |(allContent & embeddings & Hb & _ & Hc & _)]];
    cbn zeta in *; rewrite Hb; cbn [snd].
  - left. split; reflexivity.
  - left. exact Hsame.
  - right. split; [reflexivity|]. intros Hnil.
    apply (f_equal (@length _)) in Hnil. cbn [documents] in Hnil.
    rewrite mapIndexed_length in Hnil. cbn [length] in Hnil. lia.
Qed.

End StartupProofs.

(** X27: start-up never fails on the index.  [onModuleInit] returns normally
    whatever the scraper and the embedder do; without a value for
    [RAG_WEBSITE_URL] it makes no call and changes nothing; otherwise the
    session is left with the index it had, or ready with an index that is
    not empty. *)
Theorem onModuleInit_never_throws
  (scrapeWebsite : nat -> str -> result str)
  (embedContent : nat -> str -> result (option (list float)))
  (now : nat -> Z) (env : option str) (st : RagState) :
  fst (onModuleInit scrapeWebsite embedContent now env st) = Ok tt /\
  (falsy env = true ->
   snd (onModuleInit scrapeWebsite embedContent now env st) = st) /\
  (sameIndex st (snd (onModuleInit scrapeWebsite embedContent now env st)) \/
   (isInitialized (snd (onModuleInit scrapeWebsite embedContent now env st))
    = true /\
    documents (snd (onModuleInit scrapeWebsite embedContent now env st))
    <> [])).
Proof.
  unfold onModuleInit. destruct env as [websiteUrl|]; cbn [falsy].
  - destruct (len websiteUrl =? 0).
    + repeat split. left. split; reflexivity.
    + pose proof (initializeRag_index scrapeWebsite embedContent now
                    (ManyUrls (parseUrls websiteUrl)) st) as Hidx.
      cbn zeta in Hidx. unfold tryCatch.
      destruct (initializeRag scrapeWebsite embedContent now
                  (ManyUrls (parseUrls websiteUrl)) st) as [[[]|e] st'];
        cbn [fst snd] in *; (split; [reflexivity|]);
        (split; [discriminate|exact Hidx]).
  - repeat split. left. split; reflexivity.
Qed.

(** X28: the URLs that [POST /rag/initialize] crawls.  For a body that passes
    the refinement of the schema, the scraper is called once for each URL
    of [urls] when that field is present, and once for [url] otherwise, in
    order and before any other call; [url] is ignored as soon as [urls] is
    present.  A body with a [url] and an empty [urls] passes the refinement,
    and the request then fails with status 500 without a single call. *)
Theorem initialize_endpoint_urls
  (scrapeWebsite : nat -> str -> result str)
  (embedContent : nat -> str -> result (option (list float)))
  (now : nat -> Z) (initializeDto : Controller.InitializeRagDto) (st : RagState) :
  Controller.refine initializeDto = true ->
  (Controller.urls initializeDto <> Some [] -> Controller.requestedUrls initializeDto <> []) /\
  (exists embeds,
      calls (snd (Controller.initialize scrapeWebsite embedContent now
                    initializeDto st)) =
      calls st ++ map CallScrape (Controller.requestedUrls initializeDto) ++
      map CallEmbed embeds) /\
  (Controller.urls initializeDto = Some [] ->
   Controller.initialize scrapeWebsite embedContent now initializeDto st =
   (Throw (HttpException
             (lit "Failed to initialize RAG: " ++
              lit "No content scraped from any website")
             INTERNAL_SERVER_ERROR),
    mkRag None (isInitialized st) (documents st) (calls st))).
Proof.
  intros Href. split; [|split].
  - unfold Controller.refine, Controller.requestedUrls in *.
    destruct (Controller.urls initializeDto) as [[|u l]|]; try congruence.
    destruct (Controller.url initializeDto) as [u|]; cbn in Href; [|discriminate].
    rewrite orb_false_r in Href. apply negb_true_iff in Href.
    cbn [falsy]. rewrite Href. discriminate.
  - destruct (initializeRag_calls scrapeWebsite embedContent now
                (ManyUrls (Controller.requestedUrls initializeDto)) st) as [texts Hc].
    exists texts. unfold Controller.initialize, bind.
    destruct (initializeRag scrapeWebsite embedContent now
                (ManyUrls (Controller.requestedUrls initializeDto)) st) as [[[]|e] st'];
      cbn [snd ret] in *; exact Hc.
  - intros Hu. unfold Controller.initialize, Controller.requestedUrls. rewrite Hu. reflexivity.
Qed.

Lemma initialize_endpoint_urls_witness :
  Controller.initialize scraperUp embedderUp (fun _ => 0)
    (Controller.mkInitializeRagDto (Some (lit "https://b.com/")) (Some [])) readyState =
  (Throw (HttpException
            (lit "Failed to initialize RAG: " ++
             lit "No content scraped from any website")
            INTERNAL_SERVER_ERROR),
   mkRag None (isInitialized readyState) (documents readyState)
     (calls readyState)).
Proof.
  apply (initialize_endpoint_urls scraperUp embedderUp (fun _ => 0)
           (Controller.mkInitializeRagDto (Some (lit "https://b.com/")) (Some []))
           readyState); reflexivity.
Defined.

End RagFacts.

(* ================================================================== *)
(** ** The Express server *)

Module ServerFacts.
Import JS JSFacts Exn Rag RagFacts Server.

Lemma promiseAll_plain {A : Type} (rs : list (result A)) :
  promiseAll (map plain rs) = plain (promiseAll rs).
Proof.
  induction rs as [|[a|e] rs IH]; cbn [map plain promiseAll];
    try reflexivity.
  rewrite IH. now destruct (promiseAll rs).
Qed.

Section ServerProofs.
Variable scrapeWebsite : nat -> str -> result str.
Variable embedContent : nat -> str -> result (option (list float)).
Variable chatCompletion : nat -> str -> result (option str).
Variable now : nat -> Z.

Lemma generateEmbedding_plain (text : str) (st : RagState) :
  Server.generateEmbedding embedContent text st =
  (plain (fst (Rag.generateEmbedding embedContent text st)),
   snd (Rag.generateEmbedding embedContent text st)).
Proof.
  unfold Server.generateEmbedding, Rag.generateEmbedding.
  destruct (embedContent (length (calls st)) text) as [[v|]|e]; reflexivity.
Qed.

Lemma startBatch_plain (batch : list str) :
  forall st,
    Server.startBatch embedContent batch st =
    (map plain (fst (Rag.startBatch embedContent batch st)),
     snd (Rag.startBatch embedContent batch st)).
Proof.
  induction batch as [|t rest IH]; intros st;
    cbn [Server.startBatch Rag.startBatch]; [reflexivity|].
  rewrite generateEmbedding_plain.
  destruct (Rag.generateEmbedding embedContent t st) as [r st1].
  cbn [fst snd]. rewrite IH.
  destruct (Rag.startBatch embedContent rest st1) as [rs st2]. reflexivity.
Qed.

Lemma embedLoop_plain (fuel : nat) :
  forall texts embeddings st,
    Server.embedLoop embedContent fuel texts embeddings st =
    (plain (fst (Rag.embedLoop embedContent fuel texts embeddings st)),
     snd (Rag.embedLoop embedContent fuel texts embeddings st)).
Proof.
  induction fuel as [|f IH]; intros texts embeddings st.
  - destruct texts; reflexivity.
  - destruct texts as [|t texts]; [reflexivity|].
    cbn [Server.embedLoop Rag.embedLoop]. rewrite startBatch_plain.
    destruct (Rag.startBatch embedContent (firstn batchSize (t :: texts)) st)
      as [rs st1]. cbn [fst snd]. rewrite promiseAll_plain.
    destruct (promiseAll rs) as [batchEmbeddings|e]; cbn [plain];
      [apply IH|reflexivity].
Qed.

(** The outcomes of the query handler on a query that passes the two
    guards. *)
Lemma queryHandler_ready (q : str) (st : RagState) :
  len (trim q) <> 0 -> isInitialized st = true ->
  falsy (websiteUrl st) = false ->
  Server.queryHandler embedContent chatCompletion (Some q) st =
  match embedContent (length (calls st)) q with
  | Ok (Some v) =>
      match VectorDb.searchSimilar (documents st) v 5 with
      | Ok similarDocs =>
          if (length similarDocs =? 0)%nat then
            (mkResponse 404
               (JsonError (lit "No relevant content found for your query")),
             appendCalls st [CallEmbed q; CallSearch v 5])
          else
            let prompt :=
              promptFor (join (LF2 ++ lit "---" ++ LF2)
                           (map VectorDb.text similarDocs)) q in
            (match chatCompletion (S (S (length (calls st)))) prompt with
             | Ok content =>
                 mkResponse 200
                   (JsonAnswer
                      (if falsy content then lit "No answer generated"
                       else match content with
                            | Some answer => answer
                            | None => []
                            end))
             | Throw e =>
                 mkResponse 500
                   (JsonError
                      (lit "An error occurred while processing your query: "
                       ++ message e))
             end,
             appendCalls st [CallEmbed q; CallSearch v 5; CallComplete prompt])
      | Throw e =>
          (mkResponse 500
             (JsonError
                (lit "An error occurred while processing your query: " ++
                 message e)),
           appendCalls st [CallEmbed q; CallSearch v 5])
      end
  | Ok None =>
      (mkResponse 500
         (JsonError
            (lit "An error occurred while processing your query: " ++
             lit "Failed to generate embedding: " ++
             lit "Invalid embedding response from Gemini")),
       appendCalls st [CallEmbed q])
  | Throw e =>
      (mkResponse 500
         (JsonError
            (lit "An error occurred while processing your query: " ++
             lit "Failed to generate embedding: " ++ message e)),
       appendCalls st [CallEmbed q])
  end.
Proof.
  intros Hq Hi Hw. unfold Server.queryHandler.
  assert (Hq0 : len q <> 0).
  { intros E. apply Hq. destruct q; [reflexivity|discriminate]. }
  apply Z.eqb_neq in Hq, Hq0. rewrite Hq, Hq0. cbn [orb].
  rewrite Hi, Hw. cbn [orb negb].
  unfold bind, Server.generateEmbedding.
  rewrite logCall_appendCalls.
  destruct (embedContent (length (calls st)) q) as [[v|]|e]; try reflexivity.
  unfold searchSimilar. rewrite logCall_appendCalls, appendCalls_app.
  cbn [app documents appendCalls].
  destruct (VectorDb.searchSimilar (documents st) v 5) as [docs|e];
    [|reflexivity].
  destruct (length docs =? 0)%nat; [reflexivity|].
  unfold createCompletion, ret.
  rewrite logCall_appendCalls, appendCalls_app. cbn [app].
  cbn [appendCalls calls].
  rewrite length_app. cbn [length].
  replace (length (calls st) + 2)%nat with (S (S (length (calls st))))
    by lia.
  destruct (chatCompletion _ _) as [content|e]; reflexivity.
Qed.

Lemma queryHandler_rejected (q : str) (st : RagState) :
  len (trim q) = 0 \/ isInitialized st = false \/ falsy (websiteUrl st) = true ->
  exists msg,
    Server.queryHandler embedContent chatCompletion (Some q) st =
    (mkResponse 400 (JsonError msg), st).
Proof.
  intros H. unfold Server.queryHandler.
  destruct ((len q =? 0) || (len (trim q) =? 0)) eqn:E;
    [eexists; reflexivity|].
  apply orb_false_elim in E. destruct E as [_ E]. apply Z.eqb_neq in E.
  destruct H as [H|[H|H]]; [contradiction| |]; rewrite H; cbn [negb orb];
    [|rewrite orb_true_r]; eexists; reflexivity.
Qed.

End ServerProofs.

(** X29: the two query paths agree.  For the same state and the same
    collaborators, the handler of [POST /rag/query] of the Express server
    and [RagService.query] make the same calls and leave the same state;
    the handler answers 200 with the answer that the service returns, and
    otherwise an error body with the status that the exception of the
    service carries (400, 404 or 500).  The answer generator is assumed to
    throw no [HttpException] of its own. *)
Theorem server_query_agrees
  (embedContent : nat -> str -> result (option (list float)))
  (chatCompletion : nat -> str -> result (option str))
  (q : str) (st : RagState) :
  (forall n prompt e, chatCompletion n prompt = Throw e ->
                      isHttpException e = false) ->
  snd (Server.queryHandler embedContent chatCompletion (Some q) st) =
  snd (Rag.query embedContent chatCompletion q st) /\
  match fst (Rag.query embedContent chatCompletion q st) with
  | Ok answer =>
      fst (Server.queryHandler embedContent chatCompletion (Some q) st) =
      mkResponse 200 (JsonAnswer answer)
  | Throw e =>
      exists message s error,
        e = HttpException message s /\
        fst (Server.queryHandler embedContent chatCompletion (Some q) st) =
        mkResponse (statusCode s) (JsonError error)
  end.
Proof.
  intros Hchat. destruct (query_guard_dec q st) as [(Hq & Hi & Hw)|Hr].
  - rewrite (query_ready embedContent chatCompletion q st Hq Hi Hw).
    rewrite (queryHandler_ready embedContent chatCompletion q st Hq Hi Hw).
    destruct (embedContent (length (calls st)) q) as [[v|]|e0];
      cbn [fst snd]; try (split; [reflexivity|]; eauto).
    destruct (VectorDb.searchSimilar (documents st) v 5) as [docs|e0] eqn:Es.
    + destruct (length docs =? 0)%nat; cbn [fst snd];
        [split; [reflexivity|]; eauto|].
      split; [reflexivity|].
      destruct (chatCompletion _ _) as [c|e0] eqn:Ec; [reflexivity|].
      unfold queryError. rewrite (Hchat _ _ _ Ec). eauto.
    + cbn [fst snd]. split; [reflexivity|].
      assert (He0 : e0 = Error (lit "Vectors must have the same length")).
      { unfold VectorDb.searchSimilar in Es.
        destruct (length (documents st) =? 0)%nat; [discriminate|].
        destruct (VectorDb.scoreAll v (documents st)) as [sims|e1] eqn:Ea;
          [discriminate|]. injection Es as <-.
        clear -Ea. revert e1 Ea.
        induction (documents st) as [|d ds IH]; intros e1 Ea;
          cbn [VectorDb.scoreAll] in Ea; [discriminate|].
        unfold VectorDb.cosineSimilarity in Ea.
        destruct (negb (length v =? length (VectorDb.embedding d))%nat).
        - now injection Ea as <-.
        - destruct (VectorDb.cosineLoop _ _ _ _ _) as [[dp na] nb].
          destruct ((sqrt na =? 0)%float || (sqrt nb =? 0)%float);
            (destruct (VectorDb.scoreAll v ds) as [l|e2];
             [discriminate|injection Ea as <-; now apply IH]). }
      subst e0. unfold queryError. cbn [isHttpException]. eauto.
  - destruct (query_rejected embedContent chatCompletion q st Hr) as [m ->].
    destruct (queryHandler_rejected embedContent chatCompletion q st Hr)
      as [m' ->].
    cbn [fst snd]. split; [reflexivity|]. eauto.
Qed.

Lemma server_query_agrees_witness :
  fst (Server.queryHandler embedderUp (fun _ _ => Ok None) (Some (lit "hello"))
         readyState) =
  mkResponse 200 (JsonAnswer (lit "No answer generated")).
Proof.
  destruct (server_query_agrees embedderUp (fun _ _ => Ok None) (lit "hello")
              readyState) as [_ H].
  - discriminate.
  - exact H.
Defined.

(** X30: the two initialization paths agree.  For the same state and the
    same collaborators, the handler of [POST /rag/initialize] of the Express
    server, run on the value of [RAG_WEBSITE_URL], and
    [RagService.initializeRag], run on the URLs read from that value, make
    the same calls and leave the same state.  The handler answers 200 with
    the number of documents when the service returns; when the embedder
    fails both report status 500 with the same message; when no crawl
    returned the handler answers 400 where the service throws 500. *)
Theorem server_initialize_agrees
  (scrapeWebsite : nat -> str -> result str)
  (embedContent : nat -> str -> result (option (list float)))
  (now : nat -> Z) (env : str) (st : RagState) :
  len env <> 0 ->
  snd (Server.initializeHandler scrapeWebsite embedContent now env st) =
  snd (initializeRag scrapeWebsite embedContent now
         (ManyUrls (parseUrls env)) st) /\
  match fst (initializeRag scrapeWebsite embedContent now
               (ManyUrls (parseUrls env)) st) with
  | Ok _ =>
      fst (Server.initializeHandler scrapeWebsite embedContent now env st) =
      mkResponse 200
        (JsonInitialized (lit "RAG system initialized successfully")
           (len (documents
                   (snd (initializeRag scrapeWebsite embedContent now
                           (ManyUrls (parseUrls env)) st))))
           (len (parseUrls env)))
  | Throw e =>
      (e = HttpException
             (lit "Failed to initialize RAG: " ++
              lit "No content scraped from any website")
             INTERNAL_SERVER_ERROR /\
       fst (Server.initializeHandler scrapeWebsite embedContent now env st) =
       mkResponse 400
         (JsonError (lit "No content scraped from any website"))) \/
      (e = HttpException (message e) INTERNAL_SERVER_ERROR /\
       fst (Server.initializeHandler scrapeWebsite embedContent now env st) =
       mkResponse 500 (JsonError (message e)))
  end.
Proof.
  intros Henv. apply Z.eqb_neq in Henv.
  unfold Server.initializeHandler, initializeRag, tryCatch, initializeBody.
  rewrite Henv. unfold bind. cbn [setWebsiteUrl].
  set (urls := parseUrls env).
  set (st0 := mkRag (hd_error urls) (isInitialized st) (documents st) (calls st)).
  destruct (scrapeAll_spec scrapeWebsite urls [] st0)
    as (blocks & Hs & Hne & _).
  rewrite Hs. cbn [app].
  destruct blocks as [|b blocks].
  - cbn [length Nat.eqb]. unfold throw, ret. cbn [fst snd].
    split; [reflexivity|]. left. split; reflexivity.
  - cbn [length Nat.eqb].
    set (allContent := b :: blocks) in *.
    pose proof (chunkText_nonempty (join LF2 allContent)
                  (join_nonempty LF2 allContent ltac:(discriminate) Hne))
      as Hchunks.
    destruct (length (Chunker.chunkText (join LF2 allContent)) =? 0)%nat eqn:E;
      [apply Nat.eqb_eq in E; lia|].
    unfold Server.generateEmbeddings, Rag.generateEmbeddings.
    rewrite embedLoop_plain.
    destruct (Rag.embedLoop embedContent _ _ [] _) as [[embeddings|e] st2].
    + cbn [plain fst snd]. split; reflexivity.
    + cbn [plain fst snd]. unfold throw. cbn [fst snd message].
      split; [reflexivity|]. right. split; reflexivity.
Qed.

Lemma server_initialize_agrees_witness :
  snd (Server.initializeHandler scraperUp embedderUp (fun _ => 0)
         (lit "https://b.com/") initialState) =
  snd (initializeRag scraperUp embedderUp (fun _ => 0)
         (ManyUrls (parseUrls (lit "https://b.com/"))) initialState).
Proof.
  destruct (server_initialize_agrees scraperUp embedderUp (fun _ => 0)
              (lit "https://b.com/") initialState) as [H _].
  - discriminate.
  - exact H.
Defined.

End ServerFacts.
